(** * Tournament scheduling engine: shallow embedding and verified properties

    Source: BACKEND/app/services/scheduling_service.py and the stage
    orchestration of BACKEND/app/services/data_service.py.

    Python integers are [Z]; [None]-able fields are [option]; dataclasses
    are records; Python dictionaries that are iterated in insertion order
    are association lists, dictionaries only used for lookup are [gmap]s,
    and Python sets are [gset]s.  Exceptions are the [Raise] branch of
    [result]. *)

From Stdlib Require Import ZArith List String Ascii Lia Bool Arith.
From stdpp Require Import gmap strings list pretty.

Open Scope Z_scope.

(** ** Exceptions *)

Inductive exn :=
| ApplicationError (msg : string) (status_code : Z)
| ValueError
| ZeroDivisionError
| IndexError
| TypeError.

Inductive result (A : Type) :=
| Ok (a : A)
| Raise (e : exn).
Arguments Ok {A} a.
Arguments Raise {A} e.

(** Sequencing of fallible steps: an exception aborts the rest. *)
#[export] Instance result_ret : MRet result := fun _ a => Ok a.
#[export] Instance result_bind : MBind result := fun _ _ k r =>
  match r with
  | Ok a => k a
  | Raise e => Raise e
  end.

Definition is_ok {A} (r : result A) : bool :=
  match r with Ok _ => true | Raise _ => false end.

(** ** Python string primitives

    Python [str] values are modelled by their UTF-8 bytes.  Prefix tests,
    substring replacement and splitting act on bytes exactly as Python acts
    on code points (UTF-8 is self-synchronising).  [lower], [strip] and
    [int] are Python's on ASCII text: bytes above 127 are left alone by
    [lower], not stripped by [strip] and rejected by [int]. *)

Module PyStr.

Definition lower_ascii (c : ascii) : ascii :=
  let n := nat_of_ascii c in
  if ((65 <=? n) && (n <=? 90))%nat then ascii_of_nat (n + 32) else c.

Fixpoint lower (s : string) : string :=
  match s with
  | EmptyString => EmptyString
  | String c r => String (lower_ascii c) (lower r)
  end.

(** [s.startswith(p)] *)
Definition startswith (s p : string) : bool := String.prefix p s.

(** [s.replace(old, new)] for a non-empty [old]: every non-overlapping
    occurrence, scanning from the left.  [skip] counts the bytes of a
    matched occurrence that are still to be dropped. *)
Fixpoint replace_from (skip : nat) (old new s : string) : string :=
  match s with
  | EmptyString => EmptyString
  | String c r =>
      match skip with
      | S k => replace_from k old new r
      | O =>
          if String.prefix old s
          then new ++ replace_from (String.length old - 1) old new r
          else String c (replace_from O old new r)
      end
  end.

Definition replace (s old new : string) : string := replace_from O old new s.

(** ASCII whitespace, as [str.strip()] sees it. *)
Definition is_space (c : ascii) : bool :=
  let n := nat_of_ascii c in
  (((9 <=? n) && (n <=? 13)) || ((28 <=? n) && (n <=? 32)))%nat.

Fixpoint lstrip (s : string) : string :=
  match s with
  | EmptyString => EmptyString
  | String c r => if is_space c then lstrip r else s
  end.

Fixpoint rstrip (s : string) : string :=
  match s with
  | EmptyString => EmptyString
  | String c r =>
      match rstrip r with
      | EmptyString => if is_space c then EmptyString else String c EmptyString
      | r' => String c r'
      end
  end.

Definition strip (s : string) : string := rstrip (lstrip s).

(** [s.split(sep)[-1]]: what follows the last [sep], or [s] itself. *)
Fixpoint split_last (sep : ascii) (s : string) : string :=
  match s with
  | EmptyString => EmptyString
  | String c r =>
      if Ascii.eqb c sep then split_last sep r
      else if existsb (Ascii.eqb sep) (list_ascii_of_string r)
           then split_last sep r else s
  end.

Definition digit_val (c : ascii) : option Z :=
  let n := nat_of_ascii c in
  if ((48 <=? n) && (n <=? 57))%nat then Some (Z.of_nat (n - 48)) else None.

Fixpoint parse_digits (acc : Z) (s : string) : option Z :=
  match s with
  | EmptyString => Some acc
  | String c r =>
      match digit_val c with
      | Some d => parse_digits (10 * acc + d) r
      | None => None
      end
  end.

(** [int(s)]: [None] stands for [ValueError].  Decimal ASCII digits with
    an optional sign, surrounding whitespace ignored. *)
Definition int (s : string) : option Z :=
  match strip s with
  | EmptyString => None
  | String "-" EmptyString => None
  | String "+" EmptyString => None
  | String "-" r => Z.opp <$> parse_digits 0 r
  | String "+" r => parse_digits 0 r
  | t => parse_digits 0 t
  end.

(** [value or ""] for an optional string. *)
Definition or_empty (s : option string) : string := default EmptyString s.

End PyStr.

(** ** Data model (dataclasses of scheduling_service.py) *)

Record Team := mkTeam {
  team_id : option Z;
  nombre : string }.

Definition is_placeholder (t : Team) : bool :=
  match team_id t with None => true | Some _ => false end.

Module TeamStanding.
Record t := mk {
  team : Team;
  serie : option string;
  points : Z;
  goals_for : Z;
  goals_against : Z;
  wins : Z;
  draws : Z;
  losses : Z }.

Definition goal_diff (s : t) : Z := goals_for s - goals_against s.

(** [TeamStanding(team=team, serie=serie)]: the counters default to 0. *)
Definition new (tm : Team) (sr : option string) : t := mk tm sr 0 0 0 0 0 0.
End TeamStanding.
Abbreviation TeamStanding := TeamStanding.t.

Record Venue := mkVenue {
  venue_id : Z;
  venue_nombre : string }.

(** [datetime.time]: only hour and minute are read by the engine. *)
Record time := mkTime {
  hour : Z;
  minute : Z }.

Module ScheduleConfig.
Record t := mk {
  hora_inicio : time;
  hora_fin : time;
  duracion_horas : Z;
  descanso_min_dias : Z }.
End ScheduleConfig.
Abbreviation ScheduleConfig := ScheduleConfig.t.

(** [datetime.date] values are day ordinals. *)
Definition date := Z.

Module Slot.
Record t := mk {
  index : Z;
  day_index : Z;
  time_index : Z;
  fecha : date;
  hora_inicio : time;
  hora_fin : time;
  venue : Venue }.
End Slot.
Abbreviation Slot := Slot.t.

Module MatchDefinition.
Record t := mk {
  internal_id : Z;
  code : string;
  fase : string;
  serie : option string;
  ronda : string;
  local : option Team;
  visitante : option Team;
  placeholder_local : option string;
  placeholder_visitante : option string;
  is_playoff : bool }.
End MatchDefinition.
Abbreviation MatchDefinition := MatchDefinition.t.

Module PartidoDTO.
Record t := mk {
  fecha : date;
  hora_inicio : time;
  hora_fin : time;
  escenario_evento_id : Z;
  fase : string;
  serie : option string;
  ronda : string;
  llave : option string;
  equipo_local_id : option Z;
  equipo_local_nombre : string;
  equipo_visitante_id : option Z;
  equipo_visitante_nombre : string;
  placeholder_local : option string;
  placeholder_visitante : option string;
  estado : string }.
End PartidoDTO.
Abbreviation PartidoDTO := PartidoDTO.t.

(** The columns of the persisted match row (models/event.py) that the
    engine reads. *)
Module EventoPartido.
Record t := mk {
  fecha : option date;
  hora : option time;
  escenario_evento_id : option Z;
  equipo_local_id : option Z;
  equipo_visitante_id : option Z;
  puntaje_local : option Z;
  puntaje_visitante : option Z;
  ganador_inscripcion_id : option Z;
  fase : option string;
  serie : option string;
  llave : option string;
  estado : option string }.
End EventoPartido.
Abbreviation EventoPartido := EventoPartido.t.

Record TournamentStructure := mkStructure {
  series : Z;
  playoff_teams : Z }.

Definition SERIE_LABELS : string := "ABCDE".

(** ** Structure resolver *)

Definition capacity_error : exn :=
  ApplicationError
    "La generación automática solo está soportada para eventos entre 2 y 25 equipos"
    400.

Definition determine_tournament_structure (num_teams : Z)
  : result TournamentStructure :=
  if (2 <=? num_teams) && (num_teams <=? 7) then Ok (mkStructure 1 0)
  else if (8 <=? num_teams) && (num_teams <=? 11) then Ok (mkStructure 2 4)
  else if (12 <=? num_teams) && (num_teams <=? 15) then Ok (mkStructure 3 8)
  else if (16 <=? num_teams) && (num_teams <=? 19) then Ok (mkStructure 4 8)
  else if (20 <=? num_teams) && (num_teams <=? 25) then Ok (mkStructure 5 8)
  else Raise capacity_error.

(** The structure the documented bands prescribe for a supported count. *)
Definition documented_band (n : Z) : TournamentStructure :=
  if n <=? 7 then mkStructure 1 0
  else if n <=? 11 then mkStructure 2 4
  else if n <=? 15 then mkStructure 3 8
  else if n <=? 19 then mkStructure 4 8
  else mkStructure 5 8.

(** Ceiling division, as the spec's [ceil(N / series)]. *)
Definition ceil_div (a b : Z) : Z := (a + b - 1) / b.


Definition resolve_stage_sequence (playoff_teams : Z) : list string :=
  if playoff_teams =? 4 then ["group"; "semifinal"; "final"; "third_place"]%string
  else if playoff_teams =? 8
  then ["group"; "quarterfinal"; "semifinal"; "final"; "third_place"]%string
  else ["group"; "final"]%string.

(** ** Standings engine *)

(** Python compares the key tuples lexicographically with [<].  The name
    goes through [PyStr.lower], which is [str.lower] on names whose cased
    letters are ASCII; [_standing_sort_key_by] below takes the
    lower-casing as a parameter. *)
Definition _standing_sort_key (item : TeamStanding)
  : Z * Z * Z * Z * string :=
  (- TeamStanding.points item,
   - TeamStanding.goal_diff item,
   - TeamStanding.goals_for item,
   - TeamStanding.wins item,
   PyStr.lower (nombre (TeamStanding.team item))).

Definition standing_key_lt (a b : Z * Z * Z * Z * string) : bool :=
  let '(a1, a2, a3, a4, a5) := a in
  let '(b1, b2, b3, b4, b5) := b in
  if negb (a1 =? b1) then a1 <? b1
  else if negb (a2 =? b2) then a2 <? b2
  else if negb (a3 =? b3) then a3 <? b3
  else if negb (a4 =? b4) then a4 <? b4
  else String.ltb a5 b5.

(** [list.sort(key=...)] is stable: an element goes after every earlier
    element that is not strictly greater. *)
Fixpoint insert_sorted {A} (lt : A -> A -> bool) (x : A) (l : list A) : list A :=
  match l with
  | [] => [x]
  | y :: r => if lt x y then x :: l else y :: insert_sorted lt x r
  end.

Definition stable_sort {A} (lt : A -> A -> bool) (l : list A) : list A :=
  fold_left (fun acc x => insert_sorted lt x acc) l [].

Definition sort_standings (l : list TeamStanding) : list TeamStanding :=
  stable_sort
    (fun a b => standing_key_lt (_standing_sort_key a) (_standing_sort_key b)) l.

(** An insertion-ordered [dict]: keys are unique, a new key goes last, an
    update keeps the position. *)
Section Dict.
Context {K V : Type} (eqb : K -> K -> bool).

Fixpoint dict_get (k : K) (d : list (K * V)) : option V :=
  match d with
  | [] => None
  | (k', v) :: r => if eqb k k' then Some v else dict_get k r
  end.

Fixpoint dict_update (k : K) (f : V -> V) (d : list (K * V)) : list (K * V) :=
  match d with
  | [] => []
  | (k', v) :: r =>
      if eqb k k' then (k', f v) :: r else (k', v) :: dict_update k f r
  end.

(** [d.setdefault(k, v)], keeping the dictionary only. *)
Definition dict_setdefault (k : K) (v : V) (d : list (K * V)) : list (K * V) :=
  match dict_get k d with
  | Some _ => d
  | None => d ++ [(k, v)]
  end.
End Dict.

Definition standings_dict := list (Z * TeamStanding).

(** [x or 0] on an optional score. *)
Definition or_zero (x : option Z) : Z := default 0 x.

(** [if team_id not in standings: standings[team_id] = TeamStanding(...)] *)
Definition ensure_standing (team_lookup : gmap Z Team) (sr : option string)
    (tid : Z) (standings : standings_dict) : standings_dict :=
  dict_setdefault Z.eqb tid
    (TeamStanding.new (default (mkTeam (Some tid) "Equipo") (team_lookup !! tid)) sr)
    standings.

Definition add_goals (scored conceded : Z) (s : TeamStanding) : TeamStanding :=
  TeamStanding.mk (TeamStanding.team s) (TeamStanding.serie s)
    (TeamStanding.points s)
    (TeamStanding.goals_for s + scored)
    (TeamStanding.goals_against s + conceded)
    (TeamStanding.wins s) (TeamStanding.draws s) (TeamStanding.losses s).

Definition add_points (n : Z) (s : TeamStanding) : TeamStanding :=
  TeamStanding.mk (TeamStanding.team s) (TeamStanding.serie s)
    (TeamStanding.points s + n)
    (TeamStanding.goals_for s) (TeamStanding.goals_against s)
    (TeamStanding.wins s) (TeamStanding.draws s) (TeamStanding.losses s).

Definition add_win (s : TeamStanding) : TeamStanding :=
  TeamStanding.mk (TeamStanding.team s) (TeamStanding.serie s)
    (TeamStanding.points s)
    (TeamStanding.goals_for s) (TeamStanding.goals_against s)
    (TeamStanding.wins s + 1) (TeamStanding.draws s) (TeamStanding.losses s).

Definition add_draw (s : TeamStanding) : TeamStanding :=
  TeamStanding.mk (TeamStanding.team s) (TeamStanding.serie s)
    (TeamStanding.points s)
    (TeamStanding.goals_for s) (TeamStanding.goals_against s)
    (TeamStanding.wins s) (TeamStanding.draws s + 1) (TeamStanding.losses s).

Definition add_loss (s : TeamStanding) : TeamStanding :=
  TeamStanding.mk (TeamStanding.team s) (TeamStanding.serie s)
    (TeamStanding.points s)
    (TeamStanding.goals_for s) (TeamStanding.goals_against s)
    (TeamStanding.wins s) (TeamStanding.draws s) (TeamStanding.losses s + 1).

(** The inner loop over the two [(team_id, scored, conceded)] triples. *)
Definition tally_goals (team_lookup : gmap Z Team) (sr : option string)
    (standings : standings_dict) (triple : option Z * option Z * option Z)
  : standings_dict :=
  let '(tid, scored, conceded) := triple in
  match tid with
  | None => standings
  | Some tid =>
      dict_update Z.eqb tid (add_goals (or_zero scored) (or_zero conceded))
        (ensure_standing team_lookup sr tid standings)
  end.

Definition is_group (m : EventoPartido) : bool :=
  String.eqb (PyStr.lower (PyStr.or_empty (EventoPartido.fase m))) "group".

Definition is_finalizado (m : EventoPartido) : bool :=
  String.eqb (PyStr.lower (PyStr.or_empty (EventoPartido.estado m))) "finalizado".

(** The part of the loop body after the status test: win, draw and loss
    counters and points. *)
Definition tally_result (team_lookup : gmap Z Team) (m : EventoPartido)
    (standings : standings_dict) : standings_dict :=
  match EventoPartido.equipo_local_id m, EventoPartido.equipo_visitante_id m with
  | Some local_id, Some visitor_id =>
      let sr := EventoPartido.serie m in
      let standings := ensure_standing team_lookup sr local_id standings in
      let standings := ensure_standing team_lookup sr visitor_id standings in
      match EventoPartido.puntaje_local m, EventoPartido.puntaje_visitante m with
      | Some local_score, Some visitor_score =>
          if local_score =? visitor_score then
            let standings := dict_update Z.eqb local_id add_draw standings in
            let standings := dict_update Z.eqb visitor_id add_draw standings in
            let standings := dict_update Z.eqb local_id (add_points 1) standings in
            dict_update Z.eqb visitor_id (add_points 1) standings
          else if local_score >? visitor_score then
            let standings := dict_update Z.eqb local_id add_win standings in
            let standings := dict_update Z.eqb visitor_id add_loss standings in
            dict_update Z.eqb local_id (add_points 3) standings
          else
            let standings := dict_update Z.eqb visitor_id add_win standings in
            let standings := dict_update Z.eqb local_id add_loss standings in
            dict_update Z.eqb visitor_id (add_points 3) standings
      | _, _ => standings
      end
  | _, _ => standings
  end.

(** One iteration of [for match in matches]. *)
Definition process_match (team_lookup : gmap Z Team)
    (standings : standings_dict) (m : EventoPartido) : standings_dict :=
  if negb (is_group m) then standings
  else
    let sr := EventoPartido.serie m in
    let standings :=
      fold_left (tally_goals team_lookup sr)
        [ (EventoPartido.equipo_local_id m,
           EventoPartido.puntaje_local m, EventoPartido.puntaje_visitante m);
          (EventoPartido.equipo_visitante_id m,
           EventoPartido.puntaje_visitante m, EventoPartido.puntaje_local m) ]
        standings in
    if negb (is_finalizado m) then standings
    else tally_result team_lookup m standings.

Definition accumulate_standings (matches : list EventoPartido)
    (team_lookup : gmap Z Team) : standings_dict :=
  fold_left (process_match team_lookup) matches [].

(** [serie or "Serie"]: [None] and the empty string are falsy. *)
Definition serie_key (sr : option string) : string :=
  match sr with
  | Some l => if String.eqb l "" then "Serie" else l
  | None => "Serie"
  end.

(** [standing.serie or "Serie"] *)
Definition serie_label_of (s : TeamStanding) : string :=
  serie_key (TeamStanding.serie s).

(** [by_serie.setdefault(serie_label, []).append(standing)] *)
Definition group_by_serie (by_serie : list (string * list TeamStanding))
    (s : TeamStanding) : list (string * list TeamStanding) :=
  dict_update String.eqb (serie_label_of s) (fun l => l ++ [s])
    (dict_setdefault String.eqb (serie_label_of s) [] by_serie).

Definition compute_group_standings (matches : list EventoPartido)
    (team_lookup : gmap Z Team) : list (string * list TeamStanding) :=
  let standings := accumulate_standings matches team_lookup in
  let by_serie := fold_left group_by_serie (map snd standings) [] in
  map (fun '(sr, l) => (sr, sort_standings l)) by_serie.

(** ** Seed resolver *)

(** The [for standing in global_rankings] loop of the wildcard branch:
    [Some] is an early [return], [None] is falling out of the loop. *)
Fixpoint pick_unused (index : Z) (global_rankings : list TeamStanding)
    (used_ids : gset (option Z)) : option (Team * gset (option Z)) :=
  match global_rankings with
  | [] => None
  | standing :: rest =>
      let tid := team_id (TeamStanding.team standing) in
      if bool_decide (tid ∈ used_ids) then pick_unused index rest used_ids
      else if index =? 0
      then Some (TeamStanding.team standing, {[ tid ]} ∪ used_ids)
      else pick_unused (index - 1) rest used_ids
  end.

(** [if standing.team.id not in used_ids: used_ids.add(...); return ...] *)
Definition take_if_unused (standing : TeamStanding)
    (used_ids : gset (option Z)) : option (Team * gset (option Z)) :=
  let tid := team_id (TeamStanding.team standing) in
  if bool_decide (tid ∈ used_ids) then None
  else Some (TeamStanding.team standing, {[ tid ]} ∪ used_ids).

(** The three labelled branches, in source order; each either returns
    ([Some]) or falls through ([None]). *)
Definition seed_first (seed_label : string)
    (standings_by_serie : list (string * list TeamStanding))
    (used_ids : gset (option Z)) : option (Team * gset (option Z)) :=
  if PyStr.startswith seed_label "1° Serie " then
    let sr := PyStr.strip (PyStr.replace seed_label "1° Serie " "") in
    let candidate :=
      take 1 (default [] (dict_get String.eqb sr standings_by_serie)) in
    match candidate with
    | standing :: _ => take_if_unused standing used_ids
    | [] => None
    end
  else None.

Definition seed_second (seed_label : string)
    (standings_by_serie : list (string * list TeamStanding))
    (used_ids : gset (option Z)) : option (Team * gset (option Z)) :=
  if PyStr.startswith seed_label "2° Serie " then
    let sr := PyStr.strip (PyStr.replace seed_label "2° Serie " "") in
    let candidate := default [] (dict_get String.eqb sr standings_by_serie) in
    match candidate !! 1%nat with
    | Some standing => take_if_unused standing used_ids
    | None => None
    end
  else None.

Definition seed_wildcard (seed_label : string)
    (global_rankings : list TeamStanding)
    (used_ids : gset (option Z)) : option (Team * gset (option Z)) :=
  if PyStr.startswith (PyStr.lower seed_label) "clasificado #" then
    match PyStr.int (PyStr.split_last "#" seed_label) with
    | Some k => pick_unused (k - 1) global_rankings used_ids
    | None => None
    end
  else None.

(** Returns the resolved team (or [None]) and the updated [used_ids]: the
    Python function mutates the caller's set. *)
Definition resolve_seed_team (seed_label : string)
    (standings_by_serie : list (string * list TeamStanding))
    (global_rankings : list TeamStanding)
    (used_ids : gset (option Z)) : option Team * gset (option Z) :=
  if PyStr.startswith (PyStr.lower seed_label) "ganador"
     || PyStr.startswith (PyStr.lower seed_label) "perdedor"
  then (None, used_ids)
  else
    let seed_label := PyStr.strip seed_label in
    match seed_first seed_label standings_by_serie used_ids with
    | Some (tm, used_ids) => (Some tm, used_ids)
    | None =>
    match seed_second seed_label standings_by_serie used_ids with
    | Some (tm, used_ids) => (Some tm, used_ids)
    | None =>
    match seed_wildcard seed_label global_rankings used_ids with
    | Some (tm, used_ids) => (Some tm, used_ids)
    | None => (None, used_ids)
    end end end.

(** One resolution pass: successive calls that share one [used_ids]. *)
Record SeedCall := mkSeedCall {
  call_label : string;
  call_standings : list (string * list TeamStanding);
  call_rankings : list TeamStanding }.

Fixpoint resolve_pass (calls : list SeedCall) (used_ids : gset (option Z))
  : list (option Team) * gset (option Z) :=
  match calls with
  | [] => ([], used_ids)
  | c :: rest =>
      let '(r, used_ids) :=
        resolve_seed_team (call_label c) (call_standings c) (call_rankings c)
          used_ids in
      let '(rs, used_ids) := resolve_pass rest used_ids in
      (r :: rs, used_ids)
  end.

(** The teams a pass handed out, in call order. *)
Definition returned_teams (rs : list (option Team)) : list Team :=
  omap id rs.

(** Properties of one standings row. *)
Definition wdl_ok (s : TeamStanding) : Prop :=
  TeamStanding.points s = 3 * TeamStanding.wins s + TeamStanding.draws s
  /\ 0 <= TeamStanding.wins s
  /\ 0 <= TeamStanding.draws s
  /\ 0 <= TeamStanding.losses s.

Definition goals_ok (s : TeamStanding) : Prop :=
  0 <= TeamStanding.goals_for s /\ 0 <= TeamStanding.goals_against s.

(** No recorded score of the match is negative. *)
Definition scores_nonneg (m : EventoPartido) : Prop :=
  0 <= or_zero (EventoPartido.puntaje_local m)
  /\ 0 <= or_zero (EventoPartido.puntaje_visitante m).

(** Every row reachable by key satisfies [P]. *)
Definition dict_all (P : TeamStanding -> Prop) (d : standings_dict) : Prop :=
  forall k s, dict_get Z.eqb k d = Some s -> P s.

(** The (points, wins, draws, losses) of a team, all 0 when it has no row. *)
Definition wdl_of (d : standings_dict) (k : Z) : Z * Z * Z * Z :=
  match dict_get Z.eqb k d with
  | Some s => (TeamStanding.points s, TeamStanding.wins s,
               TeamStanding.draws s, TeamStanding.losses s)
  | None => (0, 0, 0, 0)
  end.

Definition wdl_add (a b : Z * Z * Z * Z) : Z * Z * Z * Z :=
  let '(p, w, d, l) := a in
  let '(p', w', d', l') := b in
  (p + p', w + w', d + d', l + l').

(** What one finalized match with both teams and both scores is worth to
    team [k]: 3 points for a win, 1 for a draw, 0 for a loss. *)
Definition result_delta (local_id visitor_id local_score visitor_score k : Z)
  : Z * Z * Z * Z :=
  let won := (3, 1, 0, 0) in
  let drew := (1, 0, 1, 0) in
  let lost := (0, 0, 0, 1) in
  let none := (0, 0, 0, 0) in
  let as_local :=
    if k =? local_id then
      if local_score =? visitor_score then drew
      else if local_score >? visitor_score then won else lost
    else none in
  let as_visitor :=
    if k =? visitor_id then
      if local_score =? visitor_score then drew
      else if local_score >? visitor_score then lost else won
    else none in
  wdl_add as_local as_visitor.

(** The contribution of any match to team [k]'s counters. *)
Definition match_delta (m : EventoPartido) (k : Z) : Z * Z * Z * Z :=
  if is_group m && is_finalizado m then
    match EventoPartido.equipo_local_id m, EventoPartido.equipo_visitante_id m,
          EventoPartido.puntaje_local m, EventoPartido.puntaje_visitante m with
    | Some l, Some v, Some ls, Some vs => result_delta l v ls vs k
    | _, _, _, _ => (0, 0, 0, 0)
    end
  else (0, 0, 0, 0).

(** A finalized group match between two resolved teams with both scores
    recorded, as result registration leaves it. *)
Definition finalized_group_match (local_id visitor_id local_score visitor_score : Z)
    (sr : option string) : EventoPartido :=
  EventoPartido.mk None None None (Some local_id) (Some visitor_id)
    (Some local_score) (Some visitor_score) None
    (Some "group"%string) sr None (Some "finalizado"%string).

(** The team a standings row is opened with. *)
Definition team_of (team_lookup : gmap Z Team) (tid : Z) : Team :=
  default (mkTeam (Some tid) "Equipo") (team_lookup !! tid).

(** A group match whose local score was recorded as -1. *)
Definition negative_score_match : EventoPartido :=
  EventoPartido.mk None None None (Some 1) (Some 2) (Some (-1)) (Some 0) None
    (Some "group"%string) (Some "Serie A"%string) None
    (Some "completado"%string).

(** Every row of a grouped table satisfies [P]. *)
Definition all_rows (P : TeamStanding -> Prop)
    (by_serie : list (string * list TeamStanding)) : Prop :=
  forall sr rows s, (sr, rows) ∈ by_serie -> s ∈ rows -> P s.

(** The counters a match list is worth to team [k], match by match. *)
Definition wdl_total (matches : list EventoPartido) (k : Z) : Z * Z * Z * Z :=
  fold_left (fun acc m => wdl_add acc (match_delta m k)) matches (0, 0, 0, 0).

(** ** Slot builder *)

(** [range(n)] *)
Definition range (n : Z) : list Z := Z.of_nat <$> seq 0 (Z.to_nat n).

(** A [for] loop whose body may raise: the first exception ends it. *)
Fixpoint result_fold {A S} (f : S -> A -> result S) (l : list A) (s : S)
  : result S :=
  match l with
  | [] => Ok s
  | a :: r => s' ← f s a; result_fold f r s'
  end.

(** [time(hour=h, minute=m)] raises [ValueError] outside 0..23 / 0..59. *)
Definition make_time (h m : Z) : result time :=
  if (0 <=? h) && (h <=? 23) && (0 <=? m) && (m <=? 59)
  then Ok (mkTime h m) else Raise ValueError.

(** The invariant of [datetime.time] values. *)
Definition time_ok (t : time) : Prop :=
  0 <= hour t <= 23 /\ 0 <= minute t <= 59.

Definition minutes_of (t : time) : Z := hour t * 60 + minute t.

Definition day_limit_error : exn :=
  ApplicationError
    "La configuración horaria no puede superar el límite diario de 24 horas" 400.

(** The start and end time of the slot with index [time_index] in a day. *)
Definition slot_window (start_minutes duration_minutes time_index : Z)
  : result (time * time) :=
  let start_total := start_minutes + time_index * duration_minutes in
  hora_inicio ← make_time (start_total / 60) (start_total mod 60);
  let end_total := start_total + duration_minutes in
  if end_total >? 24 * 60 then Raise day_limit_error
  else
    hora_fin ← make_time (end_total / 60) (end_total mod 60);
    Ok (hora_inicio, hora_fin).

(** The loop state: the slots built so far and the next index. *)
Definition slot_acc : Type := list Slot * Z.

(** [for venue in venues: slots.append(Slot(...)); index += 1] *)
Definition add_venue_slots (day_offset time_index : Z) (current_date : date)
    (hora_inicio hora_fin : time) (venues : list Venue) (acc : slot_acc)
  : slot_acc :=
  fold_left
    (fun '(slots, index) venue =>
       (slots ++ [Slot.mk index day_offset time_index current_date
                    hora_inicio hora_fin venue],
        index + 1))
    venues acc.

Definition time_loop (start_date : date) (start_minutes duration_minutes : Z)
    (venues : list Venue) (day_offset : Z) (acc : slot_acc) (time_index : Z)
  : result slot_acc :=
  w ← slot_window start_minutes duration_minutes time_index;
  Ok (add_venue_slots day_offset time_index (start_date + day_offset)
        w.1 w.2 venues acc).

Definition day_loop (start_date : date)
    (start_minutes duration_minutes slots_per_day : Z)
    (venues : list Venue) (acc : slot_acc) (day_offset : Z) : result slot_acc :=
  result_fold (time_loop start_date start_minutes duration_minutes venues day_offset)
    (range slots_per_day) acc.

(** The comparison [available_minutes < duration.total_seconds() / 60] is
    between an integer and the float [60.0 * duracion_horas], which is
    exact; [int(duration.total_seconds() // 60)] is [60 * duracion_horas]. *)
Definition build_slots (start_date end_date : date) (config : ScheduleConfig)
    (venues : list Venue) : result (list Slot) :=
  if start_date >? end_date then
    Raise (ApplicationError
      "La fecha de inicio del campeonato debe ser anterior al final" 400)
  else
    let start_minutes := minutes_of (ScheduleConfig.hora_inicio config) in
    let end_minutes := minutes_of (ScheduleConfig.hora_fin config) in
    let available_minutes := end_minutes - start_minutes in
    if available_minutes <? ScheduleConfig.duracion_horas config * 60 then
      Raise (ApplicationError
        "La ventana horaria diaria es insuficiente para al menos un partido" 400)
    else
      let duration_minutes := ScheduleConfig.duracion_horas config * 60 in
      if duration_minutes =? 0 then Raise ZeroDivisionError
      else
        let slots_per_day := Z.max (available_minutes / duration_minutes) 1 in
        let total_days := end_date - start_date + 1 in
        acc ← result_fold
                 (day_loop start_date start_minutes duration_minutes
                    slots_per_day venues)
                 (range total_days) ([], 0);
        Ok acc.1.

(** Every slot built so far starts no earlier than [lo], lasts [dur]
    minutes and ends no later than [hi]. *)
Definition slots_within (lo hi dur : Z) (acc : slot_acc) : Prop :=
  forall s, s ∈ acc.1 ->
    lo <= minutes_of (Slot.hora_inicio s)
    /\ minutes_of (Slot.hora_fin s) = minutes_of (Slot.hora_inicio s) + dur
    /\ minutes_of (Slot.hora_fin s) <= hi.


(** ** Round-robin generator *)

(** [f"Serie {SERIE_LABELS[index]}" if index < len(SERIE_LABELS)
     else f"Serie {index + 1}"] *)
Definition serie_label (index : nat) : string :=
  match String.get index SERIE_LABELS with
  | Some c => "Serie " ++ String c EmptyString
  | None => "Serie " ++ pretty (Z.of_nat index + 1)
  end.

(** [enumerate(l, start)] *)
Definition enumerate {A} (start : Z) (l : list A) : list (Z * A) :=
  imap (fun i a => (start + Z.of_nat i, a)) l.

(** [idx % series_count] raises for a zero count, and [series[...]] for
    an empty [series]; neither happens for the 1 to 5 series of a
    supported structure. *)
Definition _build_series_assignments (teams : list Team) (series_count : Z)
  : result (list (string * list Team)) :=
  match teams with
  | _ :: _ =>
      if series_count =? 0 then Raise ZeroDivisionError
      else if series_count <? 0 then Raise IndexError
      else Ok ()
  | [] => Ok ()
  end;;
  let series0 : list (list Team) := replicate (Z.to_nat series_count) [] in
  let series :=
    fold_left
      (fun series '(idx, team) =>
         alter (fun l => l ++ [team]) (Z.to_nat (idx mod series_count)) series)
      (enumerate 0 teams) series0 in
  Ok (imap (fun index serie_teams => (serie_label index, serie_teams)) series).

Definition BYE : Team := mkTeam None "BYE".

(** [[ordered[0]] + [ordered[-1]] + ordered[1:-1]]; the loop body only
    runs on lists of at least two teams, so the indexing succeeds. *)
Definition rotate (ordered : list Team) : list Team :=
  match ordered !! 0%nat, last ordered with
  | Some first, Some final =>
      [first] ++ [final] ++ drop 1 (take (length ordered - 1) ordered)
  | _, _ => ordered
  end.

(** The inner [for i in range(half)] loop of one round. *)
Definition round_pairs (n half : nat) (ordered : list Team)
  : list (Team * Team) :=
  flat_map
    (fun i =>
       match ordered !! i, ordered !! (n - 1 - i)%nat with
       | Some home, Some away =>
           if String.eqb (nombre home) "BYE" || String.eqb (nombre away) "BYE"
           then [] else [(home, away)]
       | _, _ => []
       end)
    (seq 0 half).

(** [for _round in range(n - 1)], carrying [ordered]. *)
Fixpoint round_loop (rounds_left n half : nat) (ordered : list Team)
  : list (list (Team * Team)) :=
  match rounds_left with
  | O => []
  | S k => round_pairs n half ordered :: round_loop k n half (rotate ordered)
  end.

Definition _round_robin_pairs (teams : list Team) : list (list (Team * Team)) :=
  let ordered := teams in
  let n := length ordered in
  let '(ordered, n) :=
    if (n mod 2 =? 1)%nat then (ordered ++ [BYE], (n + 1)%nat) else (ordered, n) in
  let half := (n / 2)%nat in
  round_loop (n - 1) n half ordered.

(** ** Bracket builder *)

(** [l[:n]]: the first [n] elements, and for a negative [n] all but the
    last [-n]. *)
Definition slice_to {A} (n : Z) (l : list A) : list A :=
  if n <? 0 then take (length l - Z.to_nat (- n)) l else take (Z.to_nat n) l.

(** The [for serie in series_names] loop stops at the first iteration
    that finds [total_slots] seeds; later iterations would find as many. *)
Definition _seed_labels (series_names : list string) (total_slots : Z)
  : list string :=
  let seeds := (fun serie => ("1° " ++ serie)%string) <$> series_names in
  let seeds :=
    fold_left
      (fun seeds serie =>
         if Z.of_nat (length seeds) >=? total_slots then seeds
         else seeds ++ [("2° " ++ serie)%string])
      series_names seeds in
  let missing := Z.to_nat (total_slots - Z.of_nat (length seeds)) in
  let seeds :=
    seeds ++ ((fun k => ("Clasificado #" ++ pretty (Z.of_nat k))%string)
               <$> seq 1 missing) in
  slice_to total_slots seeds.

Definition _placeholder_winner (code : string) : string := "Ganador " ++ code.
Definition _placeholder_loser (code : string) : string := "Perdedor " ++ code.

(** The loop state of [build_matches]: the matches so far and [match_id]. *)
Definition match_acc : Type := list MatchDefinition * Z.

Definition group_match (match_id : Z) (serie_name : string) (round_index : Z)
    (local visitante : Team) : MatchDefinition :=
  MatchDefinition.mk match_id
    ("GRP-" ++ serie_name ++ "-" ++ pretty round_index ++ "-" ++ pretty match_id)%string
    "group" (Some serie_name) ("Ronda " ++ pretty round_index)%string
    (Some local) (Some visitante) None None false.

Definition playoff_match (match_id : Z) (code fase ronda : string)
    (home_seed away_seed : string) : MatchDefinition :=
  MatchDefinition.mk match_id code fase None ronda None None
    (Some home_seed) (Some away_seed) true.

Definition add_round (serie_name : string) (acc : match_acc)
    (round : Z * list (Team * Team)) : match_acc :=
  let '(round_index, pairings) := round in
  fold_left
    (fun '(matches, match_id) '(local, visitante) =>
       (matches ++ [group_match match_id serie_name round_index local visitante],
        match_id + 1))
    pairings acc.

Definition add_serie (acc : match_acc) (assignment : string * list Team)
  : match_acc :=
  let '(serie_name, serie_teams) := assignment in
  fold_left (add_round serie_name) (enumerate 1 (_round_robin_pairs serie_teams)) acc.

(** [for idx, (code, home_seed, away_seed) in enumerate(pairs, start=1)] *)
Definition add_seeded (fase ronda_prefix : string) (acc : match_acc)
    (pairs : list (string * string * string)) : match_acc :=
  fold_left
    (fun '(matches, match_id) '(idx, (code, home_seed, away_seed)) =>
       (matches ++ [playoff_match match_id code fase
                      (ronda_prefix ++ pretty idx)%string home_seed away_seed],
        match_id + 1))
    (enumerate 1 pairs) acc.

Definition add_final_and_third (acc : match_acc) : match_acc :=
  let '(matches, match_id) := acc in
  (matches
   ++ [playoff_match match_id "FINAL" "final" "Final"
         (_placeholder_winner "SF1") (_placeholder_winner "SF2")]
   ++ [playoff_match (match_id + 1) "THIRD" "third_place" "Tercer puesto"
         (_placeholder_loser "SF1") (_placeholder_loser "SF2")],
   match_id + 2).

(** [seeds[i]]; the seed list has exactly [total_slots] entries, so the
    indexing succeeds. *)
Definition seed_at (seeds : list string) (i : nat) : string :=
  default EmptyString (seeds !! i).

Definition build_matches (structure : TournamentStructure)
    (assignments : list (string * list Team)) : list MatchDefinition :=
  let acc := fold_left add_serie assignments ([], 0) in
  let series_names := fst <$> assignments in
  let acc :=
    if playoff_teams structure =? 4 then
      let seeds := _seed_labels series_names 4 in
      let acc :=
        add_seeded "semifinal" "Semifinal " acc
          [ ("SF1", seed_at seeds 0, seed_at seeds 3);
            ("SF2", seed_at seeds 1, seed_at seeds 2) ]%string in
      add_final_and_third acc
    else if playoff_teams structure =? 8 then
      let seeds := _seed_labels series_names 8 in
      let acc :=
        add_seeded "quarterfinal" "Cuartos de final " acc
          [ ("QF1", seed_at seeds 0, seed_at seeds 7);
            ("QF2", seed_at seeds 3, seed_at seeds 4);
            ("QF3", seed_at seeds 1, seed_at seeds 6);
            ("QF4", seed_at seeds 2, seed_at seeds 5) ]%string in
      let acc :=
        add_seeded "semifinal" "Semifinal " acc
          [ ("SF1", _placeholder_winner "QF1", _placeholder_winner "QF4");
            ("SF2", _placeholder_winner "QF2", _placeholder_winner "QF3") ]%string in
      add_final_and_third acc
    else acc in
  acc.1.

(** ** Constraint solver

    [solve_schedule] builds a CP-SAT model and asks OR-tools for a
    solution.  The model is embedded as the list of constraints the code
    adds, over the variables it creates; the solver itself is a parameter,
    known only by its contract: an answer it reports as OPTIMAL or
    FEASIBLE satisfies every constraint of the model. *)

(** [assignment[(match.internal_id, slot.index)]] *)
Inductive BoolVar := Assign (match_id slot_index : Z).

Inductive IntVar :=
| MatchDay (match_id : Z)              (* match_day[match.internal_id] *)
| RestDiff (team : Z) (i j : nat)      (* diff of rest_{team}_{i}_{j} *)
| LastGroupDay
| LastDayUsed.

Inductive Constraint :=
| NewIntVar (x : IntVar) (lo hi : Z)
    (* x = model.NewIntVar(lo, hi, ...) *)
| AddExactlyOne (lits : list BoolVar)
    (* model.AddExactlyOne(lits) *)
| AddSumLe1 (lits : list BoolVar)
    (* model.Add(sum(lits) <= 1) *)
| AddEqOnlyIf (x : IntVar) (c : Z) (lit : BoolVar)
    (* model.Add(x == c).OnlyEnforceIf(lit) *)
| AddAbsEquality (target a b : IntVar)
    (* model.AddAbsEquality(target, a - b) *)
| AddGeConst (x : IntVar) (c : Z)
    (* model.Add(x >= c) *)
| AddGe (a b : IntVar)
    (* model.Add(a >= b) *)
| AddGt (a b : IntVar).
    (* model.Add(a > b) *)

(** What [solver.Value] reports for each variable. *)
Record Valuation := mkValuation {
  bool_value : BoolVar -> bool;
  int_value : IntVar -> Z }.

(** [sum(lits)] under a valuation. *)
Fixpoint lit_sum (v : Valuation) (lits : list BoolVar) : Z :=
  match lits with
  | [] => 0
  | l :: r => (if bool_value v l then 1 else 0) + lit_sum v r
  end.

Definition holds (v : Valuation) (c : Constraint) : bool :=
  match c with
  | NewIntVar x lo hi => (lo <=? int_value v x) && (int_value v x <=? hi)
  | AddExactlyOne lits => lit_sum v lits =? 1
  | AddSumLe1 lits => lit_sum v lits <=? 1
  | AddEqOnlyIf x c lit => implb (bool_value v lit) (int_value v x =? c)
  | AddAbsEquality t a b => int_value v t =? Z.abs (int_value v a - int_value v b)
  | AddGeConst x c => int_value v x >=? c
  | AddGe a b => int_value v a >=? int_value v b
  | AddGt a b => int_value v a >? int_value v b
  end.

Definition feasible (v : Valuation) (model : list Constraint) : bool :=
  forallb (holds v) model.

(** [solver.Solve(model)]: [Some v] when the status is OPTIMAL or
    FEASIBLE, with [v] the reported values. *)
Definition Solver : Type := list Constraint -> option Valuation.

(** The contract of the solver: a reported solution is a solution. *)
Definition solver_sound (Solve : Solver) : Prop :=
  forall model v, Solve model = Some v -> feasible v model = true.

(** [team.id] of a participant that is a resolved team. *)
Definition real_id (participant : option Team) : option Z :=
  participant ≫= team_id.

(** [(other.local and other.local.id == team_id)
     or (other.visitante and other.visitante.id == team_id)] *)
Definition plays (team : Z) (m : MatchDefinition) : bool :=
  bool_decide (real_id (MatchDefinition.local m) = Some team)
  || bool_decide (real_id (MatchDefinition.visitante m) = Some team).

(** The set comprehension [real_team_ids]. *)
Definition real_team_ids (matches : list MatchDefinition) : gset Z :=
  list_to_set
    (flat_map
       (fun m => omap real_id [MatchDefinition.local m; MatchDefinition.visitante m])
       matches).

Definition key_eqb (a b : Z * Z) : bool := (a.1 =? b.1) && (a.2 =? b.2).

(** [slots_by_day_time[(slot.day_index, slot.time_index)].append(slot.index)] *)
Definition slots_by_day_time (slots : list Slot) : list (Z * Z * list Z) :=
  fold_left
    (fun d slot =>
       let key := (Slot.day_index slot, Slot.time_index slot) in
       dict_update key_eqb key (fun l => l ++ [Slot.index slot])
         (dict_setdefault key_eqb key [] d))
    slots [].

(** [max(slot.day_index for slot in slots)] of a non-empty list. *)
Definition max_day_of (first : Slot) (rest : list Slot) : Z :=
  fold_left (fun acc s => Z.max acc (Slot.day_index s)) rest (Slot.day_index first).

Definition exactly_one_constraints (matches : list MatchDefinition)
    (slots : list Slot) : list Constraint :=
  (fun m => AddExactlyOne
     ((fun s => Assign (MatchDefinition.internal_id m) (Slot.index s)) <$> slots))
  <$> matches.

Definition slot_capacity_constraints (matches : list MatchDefinition)
    (slots : list Slot) : list Constraint :=
  (fun s => AddSumLe1
     ((fun m => Assign (MatchDefinition.internal_id m) (Slot.index s)) <$> matches))
  <$> slots.

Definition match_day_constraints (matches : list MatchDefinition)
    (slots : list Slot) (max_day : Z) : list Constraint :=
  flat_map
    (fun m =>
       NewIntVar (MatchDay (MatchDefinition.internal_id m)) 0 max_day
       :: ((fun s =>
              AddEqOnlyIf (MatchDay (MatchDefinition.internal_id m))
                (Slot.day_index s)
                (Assign (MatchDefinition.internal_id m) (Slot.index s)))
           <$> slots))
    matches.

(** The list [relevant] of one team and one (day, time) group. *)
Definition relevant_vars (matches : list MatchDefinition) (team : Z)
    (slot_indexes : list Z) : list BoolVar :=
  flat_map
    (fun other =>
       if plays team other
       then Assign (MatchDefinition.internal_id other) <$> slot_indexes
       else [])
    matches.

Definition team_time_constraints (matches : list MatchDefinition)
    (slots : list Slot) : list Constraint :=
  flat_map
    (fun team =>
       flat_map
         (fun group =>
            match relevant_vars matches team group.2 with
            | [] => []
            | relevant => [AddSumLe1 relevant]
            end)
         (slots_by_day_time slots))
    (elements (real_team_ids matches)).

Definition rest_constraints (matches : list MatchDefinition)
    (rest_days max_diff : Z) : list Constraint :=
  flat_map
    (fun team =>
       let team_matches := List.filter (plays team) matches in
       flat_map
         (fun i =>
            flat_map
              (fun j =>
                 match team_matches !! i, team_matches !! j with
                 | Some mi, Some mj =>
                     [ NewIntVar (RestDiff team i j) 0 max_diff;
                       AddAbsEquality (RestDiff team i j)
                         (MatchDay (MatchDefinition.internal_id mi))
                         (MatchDay (MatchDefinition.internal_id mj));
                       AddGeConst (RestDiff team i j) (rest_days + 1) ]
                 | _, _ => []
                 end)
              (seq (i + 1) (length team_matches - (i + 1))))
         (seq 0 (length team_matches)))
    (elements (real_team_ids matches)).

Definition is_group_definition (m : MatchDefinition) : bool :=
  String.eqb (MatchDefinition.fase m) "group".

Definition stage_order_constraints (matches : list MatchDefinition)
    (max_day : Z) : list Constraint :=
  let group_matches := List.filter is_group_definition matches in
  let playoff_matches := List.filter MatchDefinition.is_playoff matches in
  match group_matches, playoff_matches with
  | _ :: _, _ :: _ =>
      NewIntVar LastGroupDay 0 max_day
      :: ((fun m => AddGe LastGroupDay (MatchDay (MatchDefinition.internal_id m)))
          <$> group_matches)
      ++ ((fun m => AddGt (MatchDay (MatchDefinition.internal_id m)) LastGroupDay)
          <$> playoff_matches)
  | _, _ => []
  end.

Definition last_day_constraints (matches : list MatchDefinition)
    (max_day : Z) : list Constraint :=
  NewIntVar LastDayUsed 0 max_day
  :: ((fun m => AddGe LastDayUsed (MatchDay (MatchDefinition.internal_id m)))
      <$> matches).

(** Everything [solve_schedule] adds to the model, in source order; the
    objective [Minimize(last_day_used)] selects among the solutions and is
    not a constraint. *)
Definition cp_model (matches : list MatchDefinition) (slots : list Slot)
    (config : ScheduleConfig) (max_day : Z) : list Constraint :=
  let rest_days := Z.max (ScheduleConfig.descanso_min_dias config) 0 in
  exactly_one_constraints matches slots
  ++ slot_capacity_constraints matches slots
  ++ match_day_constraints matches slots max_day
  ++ team_time_constraints matches slots
  ++ rest_constraints matches rest_days max_day
  ++ stage_order_constraints matches max_day
  ++ last_day_constraints matches max_day.

(** The first slot whose variable is 1, if any. *)
Definition assigned_slot (v : Valuation) (slots : list Slot) (match_id : Z)
  : option Slot :=
  List.find (fun s => bool_value v (Assign match_id (Slot.index s))) slots.

(** The final loop: [solution[match.internal_id] = slot; break]. *)
Definition extract_solution (v : Valuation) (matches : list MatchDefinition)
    (slots : list Slot) : gmap Z Slot :=
  fold_left
    (fun solution m =>
       match assigned_slot v slots (MatchDefinition.internal_id m) with
       | Some slot => <[MatchDefinition.internal_id m := slot]> solution
       | None => solution
       end)
    matches ∅.

Definition infeasible_error : exn :=
  ApplicationError
    "No se encontró una programación factible con las restricciones actuales" 400.

Definition solve_schedule (Solve : Solver) (matches : list MatchDefinition)
    (slots : list Slot) (config : ScheduleConfig) : result (gmap Z Slot) :=
  match matches with
  | [] => Ok ∅
  | _ :: _ =>
      match slots with
      | [] => Raise ValueError
      | first :: rest =>
          let max_day := max_day_of first rest in
          match Solve (cp_model matches slots config max_day) with
          | Some v => Ok (extract_solution v matches slots)
          | None => Raise infeasible_error
          end
      end
  end.

(** A solver that proposes one candidate and reports it only after
    checking it against the model; it meets the contract by construction. *)
Definition checking_solver (candidate : Valuation) : Solver :=
  fun model => if feasible candidate model then Some candidate else None.

(** The valuation that places each match on the slot index a placement
    gives it; the auxiliary variables take the values the model forces. *)
Definition placed_slot (slots : list Slot) (placement : list (Z * Z))
    (match_id : Z) : option Slot :=
  idx ← dict_get Z.eqb match_id placement;
  List.find (fun s => Slot.index s =? idx) slots.

Definition placed_day (slots : list Slot) (placement : list (Z * Z))
    (match_id : Z) : Z :=
  default 0 (Slot.day_index <$> placed_slot slots placement match_id).

Definition max_placed_day (slots : list Slot) (placement : list (Z * Z))
    (matches : list MatchDefinition) : Z :=
  fold_left
    (fun acc m => Z.max acc (placed_day slots placement (MatchDefinition.internal_id m)))
    matches 0.

Definition placement_valuation (matches : list MatchDefinition)
    (slots : list Slot) (placement : list (Z * Z)) : Valuation :=
  {| bool_value := fun '(Assign m s) =>
       bool_decide (dict_get Z.eqb m placement = Some s);
     int_value := fun x =>
       match x with
       | MatchDay m => placed_day slots placement m
       | RestDiff team i j =>
           let team_matches := List.filter (plays team) matches in
           match team_matches !! i, team_matches !! j with
           | Some mi, Some mj =>
               Z.abs (placed_day slots placement (MatchDefinition.internal_id mi)
                      - placed_day slots placement (MatchDefinition.internal_id mj))
           | _, _ => 0
           end
       | LastGroupDay =>
           max_placed_day slots placement (List.filter is_group_definition matches)
       | LastDayUsed => max_placed_day slots placement matches
       end |}.

(** ** A worked event: eight teams, four venues, four days *)

Definition example_teams : list Team :=
  (fun i => mkTeam (Some i) ("Equipo " ++ pretty i)%string) <$> [1; 2; 3; 4; 5; 6; 7; 8].

Definition example_venues : list Venue :=
  [mkVenue 1 "Cancha 1"; mkVenue 2 "Cancha 2"; mkVenue 3 "Cancha 3";
   mkVenue 4 "Cancha 4"].

(** One two-hour match per day and venue, no rest day required. *)
Definition example_config : ScheduleConfig :=
  ScheduleConfig.mk (mkTime 8 0) (mkTime 10 0) 2 0.

Definition example_matches : list MatchDefinition :=
  match _build_series_assignments example_teams 2 with
  | Ok assignments => build_matches (mkStructure 2 4) assignments
  | Raise _ => []
  end.

Definition example_slots : list Slot :=
  match build_slots 100 103 example_config example_venues with
  | Ok slots => slots
  | Raise _ => []
  end.

(** Round k of both series on day k, the four playoff matches on the
    fourth day. *)
Definition example_placement : list (Z * Z) :=
  [ (0, 0); (1, 1); (6, 2); (7, 3);
    (2, 4); (3, 5); (8, 6); (9, 7);
    (4, 8); (5, 9); (10, 10); (11, 11);
    (12, 12); (13, 13); (14, 14); (15, 15) ].

Definition example_valuation : Valuation :=
  placement_valuation example_matches example_slots example_placement.

(** ** Full-schedule operation

    The event as the engine reads it.  [eligible] is the list returned by
    [collect_eligible_registrations]; the configuration passed to the
    operations below is the effective one (the override when given, the
    stored one otherwise). *)

Record EventoEscenario := mkEscenario {
  escenario_id : option Z;
  nombre_escenario : string }.

Record EventoInscripcion := mkInscripcion {
  inscripcion_id : Z;
  nombre_equipo : string }.

Record Evento := mkEvento {
  fecha_campeonato_inicio : option date;
  fecha_campeonato_fin : option date;
  escenarios : list EventoEscenario;
  eligible : list EventoInscripcion }.

(** On success, the championship date range. *)
Definition _ensure_event_ready (event : Evento) : result (date * date) :=
  match fecha_campeonato_inicio event, fecha_campeonato_fin event with
  | Some inicio, Some fin =>
      if inicio >? fin then
        Raise (ApplicationError "El rango de fechas del campeonato es inválido" 400)
      else
        match escenarios event with
        | [] => Raise (ApplicationError
                  "Debes registrar al menos una cancha para el evento" 400)
        | _ :: _ => Ok (inicio, fin)
        end
  | _, _ =>
      Raise (ApplicationError
        "El evento no tiene definidas las fechas del campeonato" 400)
  end.

Definition team_of_registration (registration : EventoInscripcion) : Team :=
  mkTeam (Some (inscripcion_id registration)) (nombre_equipo registration).

(** The sort key goes through [PyStr.lower], which is [str.lower] on names
    whose cased letters are ASCII; [_map_teams_by] below takes the
    lower-casing as a parameter. *)
Definition _map_teams (registrations : list EventoInscripcion)
  : result (list Team) :=
  let teams := team_of_registration <$> registrations in
  let teams :=
    stable_sort
      (fun a b => String.ltb (PyStr.lower (nombre a)) (PyStr.lower (nombre b)))
      teams in
  if (length teams <? 2)%nat then
    Raise (ApplicationError
      "Se requieren al menos dos instituciones habilitadas con equipos para generar el calendario"
      400)
  else Ok teams.

Definition _map_venues (venues : list EventoEscenario) : result (list Venue) :=
  let mapped :=
    omap (fun venue =>
            (fun i => mkVenue i (nombre_escenario venue)) <$> escenario_id venue)
      venues in
  match mapped with
  | [] => Raise (ApplicationError
            "No hay escenarios disponibles para programar partidos" 400)
  | _ :: _ => Ok mapped
  end.

(** [x or "Por definir"] on an optional placeholder. *)
Definition or_por_definir (placeholder : option string) : string :=
  match placeholder with
  | Some s => if String.eqb s "" then "Por definir" else s
  | None => "Por definir"
  end.

(** A placeholder that is set and not empty. *)
Definition truthy (placeholder : option string) : bool :=
  match placeholder with
  | Some s => negb (String.eqb s "")
  | None => false
  end.

(** The DTO [build_event_schedule] makes of a match and its slot. *)
Definition full_schedule_dto (m : MatchDefinition) (slot : Slot) : PartidoDTO :=
  let local_id := real_id (MatchDefinition.local m) in
  let visitante_id := real_id (MatchDefinition.visitante m) in
  let local_name :=
    match MatchDefinition.local m with
    | Some t => if String.eqb (nombre t) ""
                then or_por_definir (MatchDefinition.placeholder_local m)
                else nombre t
    | None => or_por_definir (MatchDefinition.placeholder_local m)
    end in
  let visitante_name :=
    match MatchDefinition.visitante m with
    | Some t => if String.eqb (nombre t) ""
                then or_por_definir (MatchDefinition.placeholder_visitante m)
                else nombre t
    | None => or_por_definir (MatchDefinition.placeholder_visitante m)
    end in
  PartidoDTO.mk (Slot.fecha slot) (Slot.hora_inicio slot) (Slot.hora_fin slot)
    (venue_id (Slot.venue slot))
    (MatchDefinition.fase m) (MatchDefinition.serie m) (MatchDefinition.ronda m)
    (Some (MatchDefinition.code m))
    local_id local_name visitante_id visitante_name
    (if truthy (MatchDefinition.placeholder_local m)
     then MatchDefinition.placeholder_local m
     else match local_id with Some _ => None | None => Some local_name end)
    (if truthy (MatchDefinition.placeholder_visitante m)
     then MatchDefinition.placeholder_visitante m
     else match visitante_id with Some _ => None | None => Some visitante_name end)
    "programado".

(** The sort key [(item.fecha, item.hora_inicio, item.escenario_evento_id)]. *)
Definition dto_key_lt (a b : PartidoDTO) : bool :=
  let ka := [PartidoDTO.fecha a; hour (PartidoDTO.hora_inicio a);
             minute (PartidoDTO.hora_inicio a); PartidoDTO.escenario_evento_id a] in
  let kb := [PartidoDTO.fecha b; hour (PartidoDTO.hora_inicio b);
             minute (PartidoDTO.hora_inicio b); PartidoDTO.escenario_evento_id b] in
  (fix lex (x y : list Z) : bool :=
     match x, y with
     | u :: x', w :: y' => if u =? w then lex x' y' else u <? w
     | _, _ => false
     end) ka kb.

(** [for match in matches: slot = solution.get(...); if not slot: continue] *)
Definition scheduled_dtos (dto : MatchDefinition -> Slot -> PartidoDTO)
    (matches : list MatchDefinition) (solution : gmap Z Slot) : list PartidoDTO :=
  stable_sort dto_key_lt
    (omap (fun m => dto m <$> solution !! MatchDefinition.internal_id m) matches).

Definition build_event_schedule (Solve : Solver) (event : Evento)
    (config : ScheduleConfig) : result (list PartidoDTO) :=
  range_ ← _ensure_event_ready event;
  teams ← _map_teams (eligible event);
  structure ← determine_tournament_structure (Z.of_nat (length teams));
  assignments ← _build_series_assignments teams (series structure);
  let matches := build_matches structure assignments in
  venues ← _map_venues (escenarios event);
  slots ← build_slots range_.1 range_.2 config venues;
  if (length slots <? length matches)%nat then
    Raise (ApplicationError
      "No hay suficientes franjas horarias para programar todos los partidos dentro del rango de fechas"
      400)
  else
    solution ← solve_schedule Solve matches slots config;
    if bool_decide (solution = ∅) then Ok []
    else Ok (scheduled_dtos full_schedule_dto matches solution).

(** A scheduled match of a playoff phase. *)
Definition is_playoff_dto (d : PartidoDTO) : bool :=
  negb (String.eqb (PartidoDTO.fase d) "group").

(** Both participants of a scheduled match are still placeholders. *)
Definition unresolved_dto (d : PartidoDTO) : Prop :=
  PartidoDTO.equipo_local_id d = None
  /\ PartidoDTO.equipo_visitante_id d = None
  /\ is_Some (PartidoDTO.placeholder_local d)
  /\ is_Some (PartidoDTO.placeholder_visitante d).

Definition example_event : Evento :=
  mkEvento (Some 100) (Some 103)
    ((fun v => mkEscenario (Some (venue_id v)) (venue_nombre v)) <$> example_venues)
    ((fun i => mkInscripcion i ("Equipo " ++ pretty i)%string)
     <$> [1; 2; 3; 4; 5; 6; 7; 8]).

(** A match definition of the group stage. *)
Definition group_shaped (m : MatchDefinition) : Prop :=
  MatchDefinition.fase m = "group"%string
  /\ MatchDefinition.is_playoff m = false.

(** A match definition of the bracket: a playoff phase and no resolved
    participant. *)
Definition bracket_shaped (m : MatchDefinition) : Prop :=
  MatchDefinition.fase m <> "group"%string
  /\ MatchDefinition.local m = None
  /\ MatchDefinition.visitante m = None.

(** ** Stage orchestrator (data_service.py) *)

Definition fase_lower (m : EventoPartido) : string :=
  PyStr.lower (PyStr.or_empty (EventoPartido.fase m)).

(** The matches of a phase; [final] and [third_place] form one unit. *)
Definition in_phase (phase : string) (m : EventoPartido) : bool :=
  String.eqb (fase_lower m) phase
  || (String.eqb phase "final" && String.eqb (fase_lower m) "third_place").

Definition _is_phase_complete (matches : list EventoPartido) (phase : string)
  : bool :=
  let normalized := PyStr.lower phase in
  match List.filter (in_phase normalized) matches with
  | [] => false
  | phase_matches => forallb is_finalizado phase_matches
  end.

(** [for idx, phase in enumerate(sequence)]; [prev_phase] is
    [sequence[idx - 1]], absent at index 0. *)
Fixpoint next_stage_loop (matches : list EventoPartido)
    (prev_phase : option string) (sequence : list string) : option string :=
  match sequence with
  | [] => None
  | phase :: rest =>
      match List.filter (in_phase phase) matches with
      | [] =>
          match prev_phase with
          | None => Some phase
          | Some prev =>
              if _is_phase_complete matches prev then Some phase else None
          end
      | _ :: _ =>
          if _is_phase_complete matches phase
          then next_stage_loop matches (Some phase) rest
          else None
      end
  end.

Definition _resolve_next_stage (structure : TournamentStructure)
    (matches : list EventoPartido) : option string :=
  let sequence := resolve_stage_sequence (playoff_teams structure) in
  match matches with
  | [] => head sequence
  | _ :: _ => next_stage_loop matches None sequence
  end.

Definition phase_not_ready_error : exn :=
  ApplicationError "No hay etapas pendientes o la fase actual aún no concluye" 409.

Definition seeds_not_ready_error : exn :=
  ApplicationError
    "Aún no se pueden definir los equipos clasificados para la siguiente fase" 409.

(** An optional id that is set and not zero ([if winner_id:]). *)
Definition truthy_id (x : option Z) : option Z :=
  match x with
  | Some i => if i =? 0 then None else Some i
  | None => None
  end.

(** One iteration of the loop that fills [winners_map]. *)
Definition record_winner (team_lookup : gmap Z Team)
    (winners_map : gmap string Team) (m : EventoPartido) : gmap string Team :=
  match EventoPartido.llave m with
  | Some code =>
      if String.eqb code "" || negb (is_finalizado m) then winners_map
      else
        match truthy_id (EventoPartido.ganador_inscripcion_id m) with
        | Some winner_id =>
            let winner :=
              default (mkTeam (Some winner_id) "Ganador") (team_lookup !! winner_id) in
            let winners_map := <[("Ganador " ++ code)%string := winner]> winners_map in
            let loser_id :=
              if bool_decide (Some winner_id = EventoPartido.equipo_local_id m)
              then EventoPartido.equipo_visitante_id m
              else EventoPartido.equipo_local_id m in
            match truthy_id loser_id with
            | Some loser_id =>
                let loser :=
                  default (mkTeam (Some loser_id) "Perdedor") (team_lookup !! loser_id) in
                <[("Perdedor " ++ code)%string := loser]> winners_map
            | None => winners_map
            end
        | None => winners_map
        end
  | None => winners_map
  end.

(** [winners_map.get(placeholder) or resolve_seed_team(...)], applied to
    one participant slot: the team, the placeholder that remains and the
    updated [used_seed_ids]. *)
Definition resolve_participant (winners_map : gmap string Team)
    (standings : list (string * list TeamStanding))
    (global_rankings : list TeamStanding)
    (team : option Team) (placeholder : option string)
    (used_ids : gset (option Z))
  : option Team * option string * gset (option Z) :=
  if truthy placeholder then
    let label := default EmptyString placeholder in
    let '(resolved, used_ids) :=
      match winners_map !! label with
      | Some t => (Some t, used_ids)
      | None => resolve_seed_team label standings global_rankings used_ids
      end in
    match resolved with
    | Some t => (Some t, None, used_ids)
    | None => (team, placeholder, used_ids)
    end
  else (team, placeholder, used_ids).

(** One iteration of [for definition in stage_definitions]. *)
Definition prepare_definition (next_stage : string)
    (winners_map : gmap string Team)
    (standings : list (string * list TeamStanding))
    (global_rankings : list TeamStanding)
    (acc : list MatchDefinition * gset (option Z)) (definition : MatchDefinition)
  : result (list MatchDefinition * gset (option Z)) :=
  let '(prepared, used_ids) := acc in
  let '(local_team, placeholder_local, used_ids) :=
    resolve_participant winners_map standings global_rankings
      (MatchDefinition.local definition)
      (MatchDefinition.placeholder_local definition) used_ids in
  let '(visitor_team, placeholder_visitante, used_ids) :=
    resolve_participant winners_map standings global_rankings
      (MatchDefinition.visitante definition)
      (MatchDefinition.placeholder_visitante definition) used_ids in
  if negb (String.eqb next_stage "group")
     && ((bool_decide (local_team = None) && bool_decide (placeholder_local = None))
         || (bool_decide (visitor_team = None)
             && bool_decide (placeholder_visitante = None)))
  then Raise seeds_not_ready_error
  else
    Ok (prepared
        ++ [MatchDefinition.mk
              (MatchDefinition.internal_id definition)
              (MatchDefinition.code definition)
              (MatchDefinition.fase definition)
              (MatchDefinition.serie definition)
              (MatchDefinition.ronda definition)
              local_team visitor_team placeholder_local placeholder_visitante
              (MatchDefinition.is_playoff definition)],
        used_ids).

(** The final that is played straight after the group stage when the
    structure has no bracket. *)
Definition fallback_final (teams : list Team) (team_lookup : gmap Z Team)
    (global_rankings : list TeamStanding) : result (list MatchDefinition) :=
  let all_ranked :=
    match global_rankings with
    | _ :: _ => global_rankings
    | [] =>
        (fun team =>
           TeamStanding.new
             (default team (team_id team ≫= fun i => team_lookup !! i)) None)
        <$> teams
    end in
  match sort_standings all_ranked with
  | first :: second :: _ =>
      Ok [MatchDefinition.mk 9999 "FINAL" "final" None "Final"
            (Some (TeamStanding.team first)) (Some (TeamStanding.team second))
            None None true]
  | _ => Raise (ApplicationError
           "Se requieren al menos dos equipos para disputar la final" 400)
  end.

(** The stage definitions with as many placeholders resolved as the
    standings and results allow: everything [generate_event_schedule]
    computes before it books slots. *)
Definition prepare_next_stage (eligible_registrations : list EventoInscripcion)
    (existing_matches : list EventoPartido)
  : result (string * list MatchDefinition) :=
  let teams := team_of_registration <$> eligible_registrations in
  match teams with
  | [] => Raise (ApplicationError
            "No hay inscripciones habilitadas para generar el calendario" 400)
  | _ :: _ =>
      structure ← determine_tournament_structure (Z.of_nat (length teams));
      match _resolve_next_stage structure existing_matches with
      | None => Raise phase_not_ready_error
      | Some next_stage =>
          assignments ← _build_series_assignments teams (series structure);
          let full_definitions := build_matches structure assignments in
          let stage_definitions :=
            List.filter
              (fun definition =>
                 let fase := PyStr.lower (MatchDefinition.fase definition) in
                 String.eqb fase next_stage
                 || (String.eqb next_stage "final" && String.eqb fase "third_place"))
              full_definitions in
          let team_lookup : gmap Z Team :=
            fold_left
              (fun lookup team =>
                 match team_id team with
                 | Some i => <[i := team]> lookup
                 | None => lookup
                 end)
              teams ∅ in
          let standings := compute_group_standings existing_matches team_lookup in
          let global_rankings := sort_standings (concat (snd <$> standings)) in
          stage_definitions ←
            match stage_definitions with
            | [] =>
                if String.eqb next_stage "final"
                then fallback_final teams team_lookup global_rankings
                else Ok stage_definitions
            | _ :: _ => Ok stage_definitions
            end;
          let winners_map := fold_left (record_winner team_lookup) existing_matches ∅ in
          prepared ←
            result_fold
              (prepare_definition next_stage winners_map standings global_rankings)
              stage_definitions ([], ∅);
          Ok (next_stage, prepared.1)
      end
  end.

(** The DTO [schedule_stage_matches] makes of a match and its slot. *)
Definition stage_dto (m : MatchDefinition) (slot : Slot) : PartidoDTO :=
  let local_id := real_id (MatchDefinition.local m) in
  let visitante_id := real_id (MatchDefinition.visitante m) in
  let local_name :=
    match MatchDefinition.local m with
    | Some t => nombre t
    | None => or_por_definir (MatchDefinition.placeholder_local m)
    end in
  let visitante_name :=
    match MatchDefinition.visitante m with
    | Some t => nombre t
    | None => or_por_definir (MatchDefinition.placeholder_visitante m)
    end in
  PartidoDTO.mk (Slot.fecha slot) (Slot.hora_inicio slot) (Slot.hora_fin slot)
    (venue_id (Slot.venue slot))
    (MatchDefinition.fase m) (MatchDefinition.serie m) (MatchDefinition.ronda m)
    (Some (MatchDefinition.code m))
    local_id local_name visitante_id visitante_name
    (if truthy (MatchDefinition.placeholder_local m)
        && bool_decide (local_id = None)
     then MatchDefinition.placeholder_local m else None)
    (if truthy (MatchDefinition.placeholder_visitante m)
        && bool_decide (visitante_id = None)
     then MatchDefinition.placeholder_visitante m else None)
    "programado".

(** A slot that an existing match occupies: same date, start time and
    venue. *)
Definition occupied (exclude_slots : list (date * time * option Z))
    (slot : Slot) : bool :=
  existsb
    (fun '(f, h, venue) =>
       (f =? Slot.fecha slot)
       && (hour h =? hour (Slot.hora_inicio slot))
       && (minute h =? minute (Slot.hora_inicio slot))
       && bool_decide (venue = Some (venue_id (Slot.venue slot))))
    exclude_slots.

Definition schedule_stage_matches (Solve : Solver) (event : Evento)
    (matches : list MatchDefinition) (config : ScheduleConfig)
    (start_date : option date) (exclude_slots : list (date * time * option Z))
  : result (list PartidoDTO) :=
  range_ ← _ensure_event_ready event;
  venues ← _map_venues (escenarios event);
  slots ← build_slots (default range_.1 start_date) range_.2 config venues;
  let slots :=
    match exclude_slots with
    | [] => slots
    | _ :: _ => List.filter (fun slot => negb (occupied exclude_slots slot)) slots
    end in
  solution ← solve_schedule Solve matches slots config;
  Ok (scheduled_dtos stage_dto matches solution).

Definition stage_gate_error : exn :=
  ApplicationError
    "Solo se puede generar el calendario durante la etapa de campeonato" 403.

(** [generate_event_schedule] from the stage test on: [stage] is the value
    of [_calculate_event_stage] for the current date.  The result is the
    next stage and the newly scheduled matches, which the function hands
    to the persistence layer before it reads the whole fixture back. *)
Definition generate_event_schedule (Solve : Solver) (stage : string)
    (event : Evento) (config : ScheduleConfig)
    (existing_matches : list EventoPartido)
  : result (string * list PartidoDTO) :=
  if negb (String.eqb stage "campeonato") then Raise stage_gate_error
  else
    stage_and_definitions ← prepare_next_stage (eligible event) existing_matches;
    let occupied_slots :=
      omap
        (fun m =>
           f ← EventoPartido.fecha m;
           h ← EventoPartido.hora m;
           Some (f, h, EventoPartido.escenario_evento_id m))
        existing_matches in
    let last_date :=
      fold_left
        (fun last m =>
           match EventoPartido.fecha m, last with
           | Some f, None => Some f
           | Some f, Some l => if f >? l then Some f else Some l
           | None, _ => last
           end)
        existing_matches None in
    stage_start ←
      match last_date, fecha_campeonato_inicio event with
      | Some l, Some inicio => Ok (Some (Z.max inicio (l + 1)))
      | Some _, None => Raise TypeError
      | None, inicio => Ok inicio
      end;
    matches ←
      schedule_stage_matches Solve event stage_and_definitions.2 config
        stage_start occupied_slots;
    Ok (stage_and_definitions.1, matches).

(** ** The worked event, stage by stage *)

(** [EventoPartido(evento_id=..., **dto.to_model_payload())] *)
Definition persist_dto (d : PartidoDTO) : EventoPartido :=
  EventoPartido.mk (Some (PartidoDTO.fecha d)) (Some (PartidoDTO.hora_inicio d))
    (Some (PartidoDTO.escenario_evento_id d))
    (PartidoDTO.equipo_local_id d) (PartidoDTO.equipo_visitante_id d)
    None None None
    (Some (PartidoDTO.fase d)) (PartidoDTO.serie d) (PartidoDTO.llave d)
    (Some (PartidoDTO.estado d)).

(** What [register_match_result] writes on a match row. *)
Definition register_result (local_score visitor_score : Z) (winner : option Z)
    (m : EventoPartido) : EventoPartido :=
  EventoPartido.mk (EventoPartido.fecha m) (EventoPartido.hora m)
    (EventoPartido.escenario_evento_id m)
    (EventoPartido.equipo_local_id m) (EventoPartido.equipo_visitante_id m)
    (Some local_score) (Some visitor_score) winner
    (EventoPartido.fase m) (EventoPartido.serie m) (EventoPartido.llave m)
    (Some "finalizado"%string).

(** The group stage of the worked event as [generate_event_schedule]
    schedules it on an empty fixture. *)
Definition example_group_definitions : list MatchDefinition :=
  List.filter is_group_definition example_matches.

Definition example_group_solver : Solver :=
  checking_solver
    (placement_valuation example_group_definitions example_slots example_placement).

Definition example_group_fixture : list EventoPartido :=
  match generate_event_schedule example_group_solver "campeonato"
          example_event example_config [] with
  | Ok (_, dtos) => persist_dto <$> dtos
  | Raise _ => []
  end.

(** Every group match finalized, the local team winning 1-0. *)
Definition example_finalized_fixture : list EventoPartido :=
  (fun m => register_result 1 0 (EventoPartido.equipo_local_id m) m)
  <$> example_group_fixture.

(** The same fixture with the result of its last match still missing. *)
Definition example_unfinished_fixture : list EventoPartido :=
  match reverse example_group_fixture with
  | last_match :: earlier =>
      reverse
        (last_match
         :: ((fun m => register_result 1 0 (EventoPartido.equipo_local_id m) m)
             <$> earlier))
  | [] => []
  end.

(** The semifinals on the first two slots of the only day left. *)
Definition example_semifinal_solver : Solver :=
  match prepare_next_stage (eligible example_event) example_finalized_fixture,
        build_slots 103 103 example_config example_venues with
  | Ok (_, definitions), Ok slots =>
      checking_solver (placement_valuation definitions slots [(12, 0); (13, 1)])
  | _, _ => fun _ => None
  end.

(** The two semifinal definitions as [build_matches] emits them. *)
Definition unresolved_semifinals : list MatchDefinition :=
  [ playoff_match 12 "SF1" "semifinal" "Semifinal 1" "1° Serie A" "2° Serie B";
    playoff_match 13 "SF2" "semifinal" "Semifinal 2" "1° Serie B" "2° Serie A" ].


(** ** Round-robin: the circle method in closed form *)

#[export] Instance team_eq_dec : EqDecision Team.
Proof. solve_decision. Defined.

#[export] Instance team_inhabited : Inhabited Team := populate BYE.

(** The position, in the list a round starts from, of the team that one
    rotation brings to position [p]. *)
Definition rot_src (n p : nat) : nat :=
  if (p =? 0)%nat then 0%nat
  else if (p =? 1)%nat then (n - 1)%nat
  else (p - 1)%nat.

(** The position, in the original list, of the team that sits at position
    [p] in round [r] (rounds are counted from 0): position 0 stays, the
    others go round a circle of [n - 1] places. *)
Definition src (n r p : nat) : nat :=
  if (p =? 0)%nat then 0%nat
  else if (r <? p)%nat then (p - r)%nat
  else (p + (n - 1) - r)%nat.

(** The match [(a, b)] or [(b, a)]. *)
Definition meets (a b : Team) (pairing : Team * Team) : bool :=
  bool_decide (pairing = (a, b) \/ pairing = (b, a)).

(** The number of emitted matches between [a] and [b]. *)
Definition times_paired (rounds : list (list (Team * Team))) (a b : Team) : nat :=
  length (List.filter (meets a b) (concat rounds)).

(* ================================================================== *)
(** * Further definitions: the rest of the engine *)

(** ** Standings engine: goals and ordering *)

(** The (goals for, goals against) of a team, both 0 when it has no row. *)
Definition goals_of (d : standings_dict) (k : Z) : Z * Z :=
  match dict_get Z.eqb k d with
  | Some s => (TeamStanding.goals_for s, TeamStanding.goals_against s)
  | None => (0, 0)
  end.

Definition goals_add (a b : Z * Z) : Z * Z := (a.1 + b.1, a.2 + b.2).

(** The goals a match is worth to team [k]: the scores entered on a
    group match, whatever its state. *)
Definition goal_delta (m : EventoPartido) (k : Z) : Z * Z :=
  if is_group m then
    let ls := or_zero (EventoPartido.puntaje_local m) in
    let vs := or_zero (EventoPartido.puntaje_visitante m) in
    goals_add
      (if bool_decide (EventoPartido.equipo_local_id m = Some k)
       then (ls, vs) else (0, 0))
      (if bool_decide (EventoPartido.equipo_visitante_id m = Some k)
       then (vs, ls) else (0, 0))
  else (0, 0).

Definition goals_total (matches : list EventoPartido) (k : Z) : Z * Z :=
  fold_left (fun acc m => goals_add acc (goal_delta m k)) matches (0, 0).

(** The team ids a group match mentions. *)
Definition group_team_ids (m : EventoPartido) : list Z :=
  if is_group m
  then omap id [EventoPartido.equipo_local_id m; EventoPartido.equipo_visitante_id m]
  else [].

(** No element is strictly below the one before it. *)
Fixpoint ordered {A} (lt : A -> A -> bool) (l : list A) : bool :=
  match l with
  | a :: (b :: _) as rest => negb (lt b a) && ordered lt rest
  | _ => true
  end.

(** The sort keys lower-case the team name with [str.lower], which acts on
    every cased letter of Unicode; [PyStr.lower] is its restriction to the
    letters A to Z.  What is proved about an order is proved for any
    lower-casing function: the definitions below are those of the source
    with [str.lower] as a parameter, and they are the ones above when the
    parameter is [PyStr.lower]. *)
Section NameKeys.
Variable str_lower : string -> string.

Definition _standing_sort_key_by (item : TeamStanding)
  : Z * Z * Z * Z * string :=
  (- TeamStanding.points item,
   - TeamStanding.goal_diff item,
   - TeamStanding.goals_for item,
   - TeamStanding.wins item,
   str_lower (nombre (TeamStanding.team item))).

Definition standing_lt_by (a b : TeamStanding) : bool :=
  standing_key_lt (_standing_sort_key_by a) (_standing_sort_key_by b).

(** [serie_standings.sort(key=_standing_sort_key)] *)
Definition sort_standings_by (l : list TeamStanding) : list TeamStanding :=
  stable_sort standing_lt_by l.

Definition compute_group_standings_by (matches : list EventoPartido)
    (team_lookup : gmap Z Team) : list (string * list TeamStanding) :=
  let standings := accumulate_standings matches team_lookup in
  let by_serie := fold_left group_by_serie (map snd standings) [] in
  map (fun '(sr, l) => (sr, sort_standings_by l)) by_serie.

(** No row is strictly better, by the sort key, than the row before it. *)
Definition ranked_by (rows : list TeamStanding) : bool :=
  ordered standing_lt_by rows.

End NameKeys.

(** The team a row for id [k] is created with. *)
Definition row_team (team_lookup : gmap Z Team) (k : Z) : Team :=
  default (mkTeam (Some k) "Equipo") (team_lookup !! k).

Definition rows_named (team_lookup : gmap Z Team) (d : standings_dict) : Prop :=
  forall k s, dict_get Z.eqb k d = Some s ->
              TeamStanding.team s = row_team team_lookup k.

(** The shape of the table by series: distinct labels, no empty list, every
    row under its own label. *)
Definition series_ok (by_serie : list (string * list TeamStanding)) : Prop :=
  NoDup (map fst by_serie) /\
  forall sr rows, (sr, rows) ∈ by_serie ->
    rows <> [] /\ forall s, s ∈ rows -> serie_label_of s = sr.

(** ** Seed resolver *)

(** The rows whose team is still free. *)
Definition unused_rows (global_rankings : list TeamStanding)
    (used_ids : gset (option Z)) : list TeamStanding :=
  List.filter
    (fun s => negb (bool_decide (team_id (TeamStanding.team s) ∈ used_ids)))
    global_rankings.

(** A team that some row of the standings or of the rankings carries. *)
Definition ranked_team (standings_by_serie : list (string * list TeamStanding))
    (global_rankings : list TeamStanding) (tm : Team) : Prop :=
  (exists sr rows s,
     (sr, rows) ∈ standings_by_serie /\ s ∈ rows /\ TeamStanding.team s = tm)
  \/ exists s, s ∈ global_rankings /\ TeamStanding.team s = tm.

(** ** Bracket builder *)

(** The loop state numbers the matches in order from 0. *)
Definition numbered (acc : match_acc) : Prop :=
  acc.2 = Z.of_nat (length acc.1)
  /\ MatchDefinition.internal_id <$> acc.1 = Z.of_nat <$> seq 0 (length acc.1).

(** The labels of the series winners, in series order. *)
Definition first_seeds (series_names : list string) : list string :=
  (fun serie => ("1° " ++ serie)%string) <$> series_names.

(** The seed labels in the order the three loops produce them. *)
Definition seed_pool (series_names : list string) (total_slots : Z)
  : list string :=
  ((fun serie => ("1° " ++ serie)%string) <$> series_names)
  ++ ((fun serie => ("2° " ++ serie)%string) <$> series_names)
  ++ ((fun k => ("Clasificado #" ++ pretty (Z.of_nat k))%string)
        <$> seq 1 (Z.to_nat total_slots - 2 * length series_names)).

(** ** Series assignment *)

(** The teams at the positions that leave remainder [j] modulo [c], in
    list order. *)
Definition dealt (c j : nat) (teams : list Team) : list Team :=
  snd <$> base.filter (fun p : nat * Team => (p.1 mod c)%nat = j) (imap pair teams).

(** ** Round-robin generator *)

(** What position [i] of round [r] contributes, read off the list the
    rounds start from: the pairing of the teams that the rotations have
    brought to positions [i] and [n - 1 - i], unless one is named BYE. *)
Definition cell (ordered : list Team) (n r i : nat) : list (Team * Team) :=
  let home := ordered !!! src n r i in
  let away := ordered !!! src n r (n - 1 - i) in
  if String.eqb (nombre home) "BYE" || String.eqb (nombre away) "BYE"
  then [] else [(home, away)].

(** The team [t] is one of the two of a pairing. *)
Definition plays_in (t : Team) (pairing : Team * Team) : bool :=
  bool_decide (pairing.1 = t \/ pairing.2 = t).

(** The number of matches of a round in which [t] plays. *)
Definition appearances (round : list (Team * Team)) (t : Team) : nat :=
  length (List.filter (plays_in t) round).

(** ** Slot builder *)

(** [max(available_minutes // duration_minutes, 1)] *)
Definition slots_per_day_of (config : ScheduleConfig) : Z :=
  Z.max
    ((minutes_of (ScheduleConfig.hora_fin config)
      - minutes_of (ScheduleConfig.hora_inicio config))
     / (ScheduleConfig.duracion_horas config * 60)) 1.

(** Where the slot at list position [i] sits: its index is its position,
    its date follows its day, its start time follows its time index, and
    the position counts days, then times of the day, then venues. *)
Definition slot_placed (start_date : date)
    (start_minutes duration_minutes slots_per_day : Z) (venues : list Venue)
    (i : nat) (s : Slot) : Prop :=
  Slot.index s = Z.of_nat i
  /\ Slot.fecha s = start_date + Slot.day_index s
  /\ 0 <= Slot.day_index s
  /\ 0 <= Slot.time_index s < slots_per_day
  /\ minutes_of (Slot.hora_inicio s)
     = start_minutes + Slot.time_index s * duration_minutes
  /\ exists j : nat,
       venues !! j = Some (Slot.venue s)
       /\ Z.of_nat i
          = (Slot.day_index s * slots_per_day + Slot.time_index s)
            * Z.of_nat (length venues) + Z.of_nat j.

(** The loop state after [next] slots. *)
Definition slots_placed (start_date : date)
    (start_minutes duration_minutes slots_per_day : Z) (venues : list Venue)
    (next : Z) (acc : slot_acc) : Prop :=
  acc.2 = next
  /\ Z.of_nat (length acc.1) = next
  /\ forall i s, acc.1 !! i = Some s ->
       slot_placed start_date start_minutes duration_minutes slots_per_day
         venues i s.

(** ** Event mapping and calendars *)

Definition too_few_teams_error : exn :=
  ApplicationError
    "Se requieren al menos dos instituciones habilitadas con equipos para generar el calendario"
    400.

(** [_map_teams] with the [str.lower] of its sort key as a parameter; it
    is [_map_teams] when the parameter is [PyStr.lower]. *)
Section TeamNameKey.
Variable str_lower : string -> string.

(** [team.nombre.lower()] of one team before that of another. *)
Definition name_lt_by (a b : Team) : bool :=
  String.ltb (str_lower (nombre a)) (str_lower (nombre b)).

Definition _map_teams_by (registrations : list EventoInscripcion)
  : result (list Team) :=
  let teams := team_of_registration <$> registrations in
  let teams := stable_sort name_lt_by teams in
  if (length teams <? 2)%nat then Raise too_few_teams_error else Ok teams.
End TeamNameKey.

(** What identifies a booking: date, start time and venue id. *)
Definition booking (d : PartidoDTO) : date * time * Z :=
  (PartidoDTO.fecha d, PartidoDTO.hora_inicio d, PartidoDTO.escenario_evento_id d).

Definition slot_booking (s : Slot) : date * time * Z :=
  (Slot.fecha s, Slot.hora_inicio s, venue_id (Slot.venue s)).

(** A team id that is the local or the visitor of a scheduled match. *)
Definition dto_plays (team : Z) (d : PartidoDTO) : Prop :=
  PartidoDTO.equipo_local_id d = Some team
  \/ PartidoDTO.equipo_visitante_id d = Some team.

(** A scheduled match on a booking that an existing match holds: the test
    [(slot.fecha, slot.hora_inicio, slot.venue.id) in exclude_slots] read
    on the match. *)
Definition collides (exclude_slots : list (date * time * option Z))
    (d : PartidoDTO) : bool :=
  existsb
    (fun '(f, h, venue) =>
       (f =? PartidoDTO.fecha d)
       && (hour h =? hour (PartidoDTO.hora_inicio d))
       && (minute h =? minute (PartidoDTO.hora_inicio d))
       && bool_decide (venue = Some (PartidoDTO.escenario_evento_id d)))
    exclude_slots.

(** At least a rest period between any two matches of one team. *)
Definition rested (config : ScheduleConfig) (dtos : list PartidoDTO) : Prop :=
  forall d d' team,
    d ∈ dtos -> d' ∈ dtos -> d <> d' ->
    dto_plays team d -> dto_plays team d' ->
    Z.max (ScheduleConfig.descanso_min_dias config) 0 + 1
      <= Z.abs (PartidoDTO.fecha d - PartidoDTO.fecha d').

(** One iteration of the loop that finds [last_date]. *)
Definition later_date (last : option date) (m : EventoPartido) : option date :=
  match EventoPartido.fecha m, last with
  | Some f, None => Some f
  | Some f, Some l => if f >? l then Some f else Some l
  | None, _ => last
  end.

(** ** Event dates and stage (data_service.py) *)

(** The six dates of an event, each possibly missing. *)
Module EventDates.
Record t := mk {
  registration_start : option date;
  registration_end : option date;
  audit_start : option date;
  audit_end : option date;
  championship_start : option date;
  championship_end : option date }.
End EventDates.
Abbreviation EventDates := EventDates.t.

Definition schedule_error (detail : string) : exn := ApplicationError detail 400.

Definition audit_end_error : exn :=
  schedule_error
    "La auditoría debe finalizar después del periodo de inscripciones".

(** A date is never falsy, so [not x or not y] tests for [None] only. *)
Definition _validate_event_schedule (dates : EventDates) : result unit :=
  match EventDates.registration_start dates,
        EventDates.registration_end dates with
  | Some registration_start, Some registration_end =>
      if registration_start >=? registration_end then
        Raise (schedule_error
          "La fecha de apertura de inscripciones debe ser anterior al cierre")
      else
        match EventDates.audit_start dates, EventDates.audit_end dates with
        | Some audit_start, Some audit_end =>
            if audit_start >=? audit_end then
              Raise (schedule_error
                "La fecha de inicio de auditoría debe ser anterior al fin de auditoría")
            else if audit_start <=? registration_end then
              Raise (schedule_error
                "La auditoría debe iniciar después de que finalicen las inscripciones")
            else if audit_end <=? registration_end then Raise audit_end_error
            else
              match EventDates.championship_start dates,
                    EventDates.championship_end dates with
              | Some championship_start, Some championship_end =>
                  if championship_start >=? championship_end then
                    Raise (schedule_error
                      "La fecha de inicio del campeonato debe ser anterior a la fecha de finalización")
                  else if audit_end >=? championship_start then
                    Raise (schedule_error
                      "El campeonato debe iniciar después de que termine la auditoría. Ajusta también la fecha del torneo si necesitas extender la auditoría")
                  else Ok tt
              | _, _ =>
                  Raise (schedule_error
                    "Debes especificar las fechas del campeonato")
              end
        | _, _ =>
            Raise (schedule_error
              "Debes especificar las fechas de auditoría del evento")
        end
  | _, _ =>
      Raise (schedule_error
        "Debes especificar tanto la fecha de apertura como la de cierre de inscripciones")
  end.

(** [(current_state or "").strip().lower()] *)
Definition normalized_state (current_state : option string) : string :=
  PyStr.lower (PyStr.strip (PyStr.or_empty current_state)).

(** [clock] is [date.today()], read when no reference date is passed. *)
Definition _calculate_event_stage (dates : EventDates)
    (reference_date : option date) (clock : date)
    (current_state : option string) : string :=
  let normalized_state := normalized_state current_state in
  if String.eqb normalized_state "archivado" then "archivado"
  else
    let today := default clock reference_date in
    match EventDates.registration_start dates,
          EventDates.registration_end dates,
          EventDates.audit_start dates,
          EventDates.audit_end dates,
          EventDates.championship_start dates,
          EventDates.championship_end dates with
    | Some registration_start, Some registration_end,
      Some audit_start, Some audit_end,
      Some championship_start, Some championship_end =>
        if today <? registration_start then "borrador"
        else if (registration_start <=? today) && (today <=? registration_end)
        then "inscripcion"
        else if (audit_start <=? today) && (today <=? audit_end)
        then "auditoria"
        else if (championship_start <=? today) && (today <=? championship_end)
        then "campeonato"
        else if today >? championship_end then "finalizado"
        else "borrador"
    | _, _, _, _, _, _ =>
        if String.eqb normalized_state "" then "borrador" else normalized_state
    end.

(** The six dates in strictly increasing order. *)
Definition dates_in_order (dates : EventDates)
    (rs re as_ ae cs ce : date) : Prop :=
  dates = EventDates.mk (Some rs) (Some re) (Some as_) (Some ae) (Some cs) (Some ce)
  /\ rs < re /\ re < as_ /\ as_ < ae /\ ae < cs /\ cs < ce.

(** The stage of a never-archived event with ordered dates, day by day. *)
Definition stage_by_day (rs re as_ ae cs ce today : date) : string :=
  if today <? rs then "borrador"
  else if today <=? re then "inscripcion"
  else if today <? as_ then "borrador"
  else if today <=? ae then "auditoria"
  else if today <? cs then "borrador"
  else if today <=? ce then "campeonato"
  else "finalizado".

(** ** Schedule summary (data_service.py) *)

(** The dictionary [_build_schedule_meta] returns. *)
Record ScheduleMeta := mkScheduleMeta {
  next_stage : option string;
  completed_phases : list string;
  has_results : bool }.

Definition _build_schedule_meta (structure : TournamentStructure)
    (matches : list EventoPartido) : ScheduleMeta :=
  mkScheduleMeta
    (_resolve_next_stage structure matches)
    (List.filter (_is_phase_complete matches)
       (resolve_stage_sequence (playoff_teams structure)))
    (existsb is_finalizado matches).

(** ** Eligible registrations (scheduling_service.py) *)

(** The columns of a registration and of an invited institution that
    [collect_eligible_registrations] reads. *)
Record InscripcionRow := mkInscripcionRow {
  row_id : option Z;
  row_aprobado : bool;
  row_nombre_equipo : string }.

Record Invitacion := mkInvitacion {
  habilitado_campeonato : bool;
  estado_auditoria : option string;
  invitacion_inscripciones : list InscripcionRow }.

(** [habilitado_campeonato or (estado_auditoria or "").lower() == "aprobada"] *)
Definition invitation_approved (invitation : Invitacion) : bool :=
  habilitado_campeonato invitation
  || String.eqb (PyStr.lower (PyStr.or_empty (estado_auditoria invitation)))
       "aprobada".

(** The loop state: [eligible] and [seen]. *)
Definition eligible_acc : Type := list InscripcionRow * gset Z.

(** The body of both loops over registrations, after the approval test. *)
Definition keep_registration (acc : eligible_acc) (registration : InscripcionRow)
  : eligible_acc :=
  match row_id registration with
  | None => acc
  | Some registration_id =>
      if bool_decide (registration_id ∈ acc.2) then acc
      else (acc.1 ++ [registration], {[ registration_id ]} ∪ acc.2)
  end.

Definition collect_invitation (acc : eligible_acc) (invitation : Invitacion)
  : eligible_acc :=
  fold_left
    (fun acc registration =>
       if negb (invitation_approved invitation)
          && negb (row_aprobado registration)
       then acc
       else keep_registration acc registration)
    (invitacion_inscripciones invitation) acc.

Definition collect_eligible_registrations
    (instituciones_invitadas : list Invitacion)
    (inscripciones : list InscripcionRow) : list InscripcionRow :=
  let acc := fold_left collect_invitation instituciones_invitadas ([], ∅) in
  let acc :=
    match acc.1 with
    | [] =>
        fold_left
          (fun acc registration =>
             if negb (row_aprobado registration) then acc
             else keep_registration acc registration)
          inscripciones acc
    | _ :: _ => acc
    end in
  acc.1.

(** A registration that the first loop accepts: it has an id and it, or
    the invitation it hangs from, is approved. *)
Definition invited_and_approved (instituciones_invitadas : list Invitacion)
    (registration : InscripcionRow) : Prop :=
  is_Some (row_id registration)
  /\ exists invitation,
       invitation ∈ instituciones_invitadas
       /\ registration ∈ invitacion_inscripciones invitation
       /\ (invitation_approved invitation = true
           \/ row_aprobado registration = true).

(** A registration that the second loop accepts. *)
Definition directly_approved (inscripciones : list InscripcionRow)
    (registration : InscripcionRow) : Prop :=
  is_Some (row_id registration)
  /\ registration ∈ inscripciones
  /\ row_aprobado registration = true.

(** The loop state is sound for a class of registrations: distinct ids,
    all recorded in [seen], every row of the class. *)
Definition eligible_ok (P : InscripcionRow -> Prop) (acc : eligible_acc) : Prop :=
  NoDup (row_id <$> acc.1)
  /\ Forall P acc.1
  /\ forall i, i ∈ acc.2 <-> Some i ∈ row_id <$> acc.1.
(* ================================================================== *)
(** * Theorems *)

(** ** Structure resolver *)

Ltac band_cases :=
  repeat match goal with
  | |- context [?a <=? ?b] => destruct (Z.leb_spec a b)
  end; simpl in *; try lia.

Lemma determine_in_band (n : Z) :
  2 <= n <= 25 ->
  determine_tournament_structure n = Ok (documented_band n).
Proof.
  intros Hn. unfold determine_tournament_structure, documented_band.
  band_cases; reflexivity.
Qed.

Lemma determine_out_of_band (n : Z) :
  n < 2 \/ 25 < n ->
  determine_tournament_structure n = Raise capacity_error.
Proof.
  intros Hn. unfold determine_tournament_structure.
  band_cases; reflexivity.
Qed.

Lemma band_covers (n : Z) :
  2 <= n <= 25 ->
  let st := documented_band n in
  (playoff_teams st = 0 \/ playoff_teams st = 4 \/ playoff_teams st = 8)
  /\ n <= series st * ceil_div n (series st).
Proof.
  intros Hn.
  assert (Hcases : n = 2 \/ n = 3 \/ n = 4 \/ n = 5 \/ n = 6 \/ n = 7 \/ n = 8
     \/ n = 9 \/ n = 10 \/ n = 11 \/ n = 12 \/ n = 13 \/ n = 14 \/ n = 15
     \/ n = 16 \/ n = 17 \/ n = 18 \/ n = 19 \/ n = 20 \/ n = 21 \/ n = 22
     \/ n = 23 \/ n = 24 \/ n = 25) by lia.
  repeat (destruct Hcases as [-> | Hcases]); try subst n;
    (split; [vm_compute; tauto | vm_compute; discriminate]).
Qed.

(** C3. For every team count N in [2,25], [determine_tournament_structure]
    returns exactly the structure of the documented bands ([2,7]: 1 series,
    no playoff; [8,11]: 2 and 4; [12,15]: 3 and 8; [16,19]: 4 and 8;
    [20,25]: 5 and 8), so the playoff size is 0, 4 or 8 and
    series * ceil(N / series) covers N; every N below 2 or above 25 raises
    the capacity error. *)
Theorem C3_structure_bands (n : Z) :
  (2 <= n <= 25 ->
     exists st, determine_tournament_structure n = Ok st
       /\ (2 <= n <= 7 -> st = mkStructure 1 0)
       /\ (8 <= n <= 11 -> st = mkStructure 2 4)
       /\ (12 <= n <= 15 -> st = mkStructure 3 8)
       /\ (16 <= n <= 19 -> st = mkStructure 4 8)
       /\ (20 <= n <= 25 -> st = mkStructure 5 8)
       /\ (playoff_teams st = 0 \/ playoff_teams st = 4 \/ playoff_teams st = 8)
       /\ n <= series st * ceil_div n (series st))
  /\ (n < 2 \/ 25 < n ->
     determine_tournament_structure n = Raise capacity_error).
Proof.
  split.
  - intros Hn. exists (documented_band n).
    split; [apply determine_in_band; exact Hn |].
    destruct (band_covers n Hn) as [Hp Hc].
    repeat split; try assumption;
      intros Hb; unfold documented_band; band_cases; reflexivity.
  - apply determine_out_of_band.
Qed.

Lemma C3_structure_bands_witness :
  (exists st, determine_tournament_structure 10 = Ok st
       /\ (2 <= 10 <= 7 -> st = mkStructure 1 0)
       /\ (8 <= 10 <= 11 -> st = mkStructure 2 4)
       /\ (12 <= 10 <= 15 -> st = mkStructure 3 8)
       /\ (16 <= 10 <= 19 -> st = mkStructure 4 8)
       /\ (20 <= 10 <= 25 -> st = mkStructure 5 8)
       /\ (playoff_teams st = 0 \/ playoff_teams st = 4 \/ playoff_teams st = 8)
       /\ 10 <= series st * ceil_div 10 (series st))
  /\ determine_tournament_structure 30 = Raise capacity_error.
Proof.
  split.
  - apply (proj1 (C3_structure_bands 10)). lia.
  - apply (proj2 (C3_structure_bands 30)). lia.
Defined.

(** ** Insertion-ordered dictionaries *)

Section DictFacts.
Context {K V : Type} (eqb : K -> K -> bool).
Hypothesis eqb_eq : forall a b, eqb a b = true <-> a = b.
Implicit Types (d : list (K * V)) (k : K).

Lemma eqb_reflect a b : reflect (a = b) (eqb a b).
Proof. apply iff_reflect. symmetry. apply eqb_eq. Qed.

Lemma dict_get_update k k' (f : V -> V) d :
  dict_get eqb k (dict_update eqb k' f d)
  = if eqb k k' then f <$> dict_get eqb k d else dict_get eqb k d.
Proof.
  induction d as [| [k0 v] r IH]; simpl.
  - destruct (eqb k k'); reflexivity.
  - destruct (eqb_reflect k' k0) as [-> | Hne]; simpl.
    + destruct (eqb_reflect k k0); reflexivity.
    + rewrite IH. destruct (eqb_reflect k k0) as [-> | Hne'].
      * destruct (eqb_reflect k0 k'); [congruence | reflexivity].
      * reflexivity.
Qed.

Lemma dict_get_app_fresh k k' (v : V) d :
  dict_get eqb k (d ++ [(k', v)])
  = match dict_get eqb k d with
    | Some x => Some x
    | None => if eqb k k' then Some v else None
    end.
Proof.
  induction d as [| [k0 v0] r IH]; simpl; [reflexivity |].
  destruct (eqb k k0); [reflexivity | exact IH].
Qed.

Lemma dict_get_setdefault k k' (v : V) d :
  dict_get eqb k (dict_setdefault eqb k' v d)
  = if eqb k k' then Some (default v (dict_get eqb k' d))
    else dict_get eqb k d.
Proof.
  unfold dict_setdefault.
  destruct (eqb_reflect k k') as [-> | Hne].
  - destruct (dict_get eqb k' d) eqn:E; simpl; [exact E |].
    rewrite dict_get_app_fresh, E.
    destruct (eqb_reflect k' k'); [reflexivity | congruence].
  - destruct (dict_get eqb k' d) eqn:E; [reflexivity |].
    rewrite dict_get_app_fresh.
    destruct (dict_get eqb k d); [reflexivity |].
    destruct (eqb_reflect k k'); [contradiction | reflexivity].
Qed.

Lemma dict_update_keys k (f : V -> V) d :
  map fst (dict_update eqb k f d) = map fst d.
Proof.
  induction d as [| [k0 v] r IH]; simpl; [reflexivity |].
  destruct (eqb k k0); simpl; [reflexivity | now rewrite IH].
Qed.

Lemma dict_get_None_notin k d :
  dict_get eqb k d = None -> k ∉ map fst d.
Proof.
  induction d as [| [k0 v] r IH]; simpl; [intros _; apply not_elem_of_nil |].
  destruct (eqb_reflect k k0); [discriminate |].
  intros E [H | H]%elem_of_cons; [congruence | exact (IH E H)].
Qed.

Lemma dict_get_Some_in k v d :
  dict_get eqb k d = Some v -> (k, v) ∈ d.
Proof.
  induction d as [| [k0 v0] r IH]; simpl; [discriminate |].
  destruct (eqb_reflect k k0) as [-> | Hne].
  - intros [= ->]. left.
  - intros E. right. now apply IH.
Qed.

Lemma dict_setdefault_keys k (v : V) d :
  NoDup (map fst d) -> NoDup (map fst (dict_setdefault eqb k v d)).
Proof.
  intros Hd. unfold dict_setdefault.
  destruct (dict_get eqb k d) eqn:E; [exact Hd |].
  rewrite map_app. simpl.
  apply NoDup_app. repeat split.
  - exact Hd.
  - intros x Hx Hk%list_elem_of_singleton. subst x.
    exact (dict_get_None_notin _ _ E Hx).
  - apply NoDup_singleton.
Qed.

Lemma dict_get_of_in k (v : V) d :
  NoDup (map fst d) -> (k, v) ∈ d -> dict_get eqb k d = Some v.
Proof.
  induction d as [| [k0 v0] r IH]; simpl; [intros _ H; inversion H |].
  intros Hnd [H | H]%elem_of_cons.
  - injection H as -> ->. destruct (eqb_reflect k0 k0); [reflexivity | congruence].
  - apply NoDup_cons in Hnd as [Hn Hr].
    destruct (eqb_reflect k k0) as [-> | Hne]; [| now apply IH].
    exfalso. apply Hn. apply list_elem_of_fmap. now exists (k0, v).
Qed.
End DictFacts.

(** ** Standings engine *)

Lemma dict_get_ensure team_lookup sr tid d k :
  dict_get Z.eqb k (ensure_standing team_lookup sr tid d)
  = if k =? tid
    then Some (default
           (TeamStanding.new
              (default (mkTeam (Some tid) "Equipo") (team_lookup !! tid)) sr)
           (dict_get Z.eqb tid d))
    else dict_get Z.eqb k d.
Proof. unfold ensure_standing. apply (dict_get_setdefault Z.eqb Z.eqb_eq). Qed.

Lemma ensure_keys team_lookup sr tid d :
  NoDup (map fst d) -> NoDup (map fst (ensure_standing team_lookup sr tid d)).
Proof. apply (dict_setdefault_keys Z.eqb Z.eqb_eq). Qed.

Ltac dict_get_simpl :=
  repeat (rewrite (dict_get_update Z.eqb Z.eqb_eq) || rewrite dict_get_ensure).

Ltac key_cases :=
  repeat match goal with
  | |- context [Z.eqb ?a ?b] => destruct (Z.eqb_spec a b); subst
  | H : context [Z.eqb ?a ?b] |- _ => destruct (Z.eqb_spec a b); subst
  end.

Ltac row_cases H :=
  repeat match goal with
  | |- context [dict_get Z.eqb ?k ?d] =>
      let E := fresh "E" in
      destruct (dict_get Z.eqb k d) eqn:E; [apply H in E |]
  end.

Ltac tuple_eq :=
  repeat match goal with |- (_, _) = (_, _) => f_equal end; lia.

Section Invariants.
Variable team_lookup : gmap Z Team.

Lemma tally_goals_wdl sr d triple :
  dict_all wdl_ok d -> dict_all wdl_ok (tally_goals team_lookup sr d triple).
Proof.
  intros H k s. destruct triple as [[[tid |] sc] co]; simpl; [| apply H].
  dict_get_simpl. key_cases; [| apply H].
  row_cases H; simpl; intros [= <-]; unfold wdl_ok in *; simpl; lia.
Qed.

Lemma tally_result_wdl m d :
  dict_all wdl_ok d -> dict_all wdl_ok (tally_result team_lookup m d).
Proof.
  intros H k s. unfold tally_result.
  destruct (EventoPartido.equipo_local_id m) as [l |]; [| apply H].
  destruct (EventoPartido.equipo_visitante_id m) as [v |]; [| apply H].
  destruct (EventoPartido.puntaje_local m) as [ls |],
           (EventoPartido.puntaje_visitante m) as [vs |];
    [ destruct (ls =? vs); [| destruct (ls >? vs)] | | | ];
    dict_get_simpl; key_cases; try contradiction;
    row_cases H; simpl; try (intros [= <-]); try discriminate;
    try apply H;
    unfold wdl_ok in *; simpl; try lia.
Qed.

Lemma tally_goals_goals sr d tid sc co :
  0 <= or_zero sc -> 0 <= or_zero co ->
  dict_all goals_ok d ->
  dict_all goals_ok (tally_goals team_lookup sr d (tid, sc, co)).
Proof.
  intros Hs Hc H k s. destruct tid as [tid |]; simpl; [| apply H].
  dict_get_simpl. key_cases; [| apply H].
  row_cases H; simpl; intros [= <-]; unfold goals_ok in *; simpl; lia.
Qed.

Lemma tally_result_goals m d :
  dict_all goals_ok d -> dict_all goals_ok (tally_result team_lookup m d).
Proof.
  intros H k s. unfold tally_result.
  destruct (EventoPartido.equipo_local_id m) as [l |]; [| apply H].
  destruct (EventoPartido.equipo_visitante_id m) as [v |]; [| apply H].
  destruct (EventoPartido.puntaje_local m) as [ls |],
           (EventoPartido.puntaje_visitante m) as [vs |];
    [ destruct (ls =? vs); [| destruct (ls >? vs)] | | | ];
    dict_get_simpl; key_cases; try contradiction;
    row_cases H; simpl; try (intros [= <-]); try discriminate;
    try apply H;
    unfold goals_ok in *; simpl; try lia.
Qed.

Lemma tally_goals_keys sr d triple :
  NoDup (map fst d) -> NoDup (map fst (tally_goals team_lookup sr d triple)).
Proof.
  intros H. destruct triple as [[[tid |] sc] co]; simpl; [| exact H].
  rewrite dict_update_keys. now apply ensure_keys.
Qed.

Lemma tally_result_keys m d :
  NoDup (map fst d) -> NoDup (map fst (tally_result team_lookup m d)).
Proof.
  intros H. unfold tally_result.
  destruct (EventoPartido.equipo_local_id m) as [l |]; [| exact H].
  destruct (EventoPartido.equipo_visitante_id m) as [v |]; [| exact H].
  assert (NoDup (map fst (ensure_standing team_lookup (EventoPartido.serie m) v
            (ensure_standing team_lookup (EventoPartido.serie m) l d))))
    by now do 2 apply ensure_keys.
  destruct (EventoPartido.puntaje_local m) as [ls |],
           (EventoPartido.puntaje_visitante m) as [vs |]; try assumption.
  destruct (ls =? vs); [| destruct (ls >? vs)];
    now rewrite !dict_update_keys.
Qed.

Lemma process_match_wdl d m :
  dict_all wdl_ok d -> dict_all wdl_ok (process_match team_lookup d m).
Proof.
  intros H. unfold process_match.
  destruct (is_group m); cbn [negb fold_left]; [| exact H].
  destruct (is_finalizado m); cbn [negb];
    [apply tally_result_wdl |]; now do 2 apply tally_goals_wdl.
Qed.

Lemma process_match_goals d m :
  (is_group m = true -> scores_nonneg m) ->
  dict_all goals_ok d -> dict_all goals_ok (process_match team_lookup d m).
Proof.
  intros Hm H. unfold process_match.
  destruct (is_group m); cbn [negb fold_left]; [| exact H].
  destruct (Hm eq_refl) as [Hl Hv].
  destruct (is_finalizado m); cbn [negb];
    [apply tally_result_goals |];
    (apply tally_goals_goals; [assumption | assumption |]);
    (apply tally_goals_goals; [assumption | assumption | exact H]).
Qed.

Lemma process_match_keys d m :
  NoDup (map fst d) -> NoDup (map fst (process_match team_lookup d m)).
Proof.
  intros H. unfold process_match.
  destruct (is_group m); cbn [negb fold_left]; [| exact H].
  destruct (is_finalizado m); cbn [negb];
    [apply tally_result_keys |]; now do 2 apply tally_goals_keys.
Qed.

Lemma fold_process_inv (P : standings_dict -> Prop) matches :
  (forall d m, m ∈ matches -> P d -> P (process_match team_lookup d m)) ->
  forall d, P d -> P (fold_left (process_match team_lookup) matches d).
Proof.
  induction matches as [| m r IH]; simpl; intros Hstep d Hd; [exact Hd |].
  apply IH.
  - intros d' m' Hm'. apply Hstep. now apply elem_of_cons; right.
  - apply Hstep; [apply elem_of_cons; now left | exact Hd].
Qed.

Lemma wdl_of_tally_goals sr d triple k :
  wdl_of (tally_goals team_lookup sr d triple) k = wdl_of d k.
Proof.
  unfold wdl_of. destruct triple as [[[tid |] sc] co]; simpl; [| reflexivity].
  dict_get_simpl. key_cases; [| reflexivity].
  destruct (dict_get Z.eqb tid d); reflexivity.
Qed.

Lemma wdl_of_tally_result m d k :
  wdl_of (tally_result team_lookup m d) k
  = wdl_add (wdl_of d k)
      match EventoPartido.equipo_local_id m, EventoPartido.equipo_visitante_id m,
            EventoPartido.puntaje_local m, EventoPartido.puntaje_visitante m with
      | Some l, Some v, Some ls, Some vs => result_delta l v ls vs k
      | _, _, _, _ => (0, 0, 0, 0)
      end.
Proof.
  assert (Hz : forall x, wdl_add x (0, 0, 0, 0) = x).
  { intros [[[p w] dr] l]. simpl. tuple_eq. }
  unfold tally_result.
  destruct (EventoPartido.equipo_local_id m) as [l |]; [| now rewrite Hz].
  destruct (EventoPartido.equipo_visitante_id m) as [v |]; [| now rewrite Hz].
  unfold wdl_of, result_delta.
  destruct (EventoPartido.puntaje_local m) as [ls |],
           (EventoPartido.puntaje_visitante m) as [vs |];
    [ destruct (ls =? vs); [| destruct (ls >? vs)] | | | ];
    dict_get_simpl; key_cases; try contradiction;
    repeat match goal with
    | |- context [dict_get Z.eqb ?k ?d] => destruct (dict_get Z.eqb k d)
    end; simpl; tuple_eq.
Qed.

Lemma wdl_of_process_match d m k :
  wdl_of (process_match team_lookup d m) k
  = wdl_add (wdl_of d k) (match_delta m k).
Proof.
  assert (Hz : forall x, wdl_add x (0, 0, 0, 0) = x).
  { intros [[[p w] dr] l]. simpl. tuple_eq. }
  unfold process_match, match_delta.
  destruct (is_group m); cbn [negb fold_left andb]; [| now rewrite Hz].
  destruct (is_finalizado m); cbn [negb].
  - rewrite wdl_of_tally_result. now rewrite !wdl_of_tally_goals.
  - now rewrite !wdl_of_tally_goals, Hz.
Qed.
End Invariants.

Section GenericDict.
Context {K V : Type} (eqb : K -> K -> bool).

Lemma elem_of_dict_update k0 (f : V -> V) (d : list (K * V)) k v :
  (k, v) ∈ dict_update eqb k0 f d ->
  (k, v) ∈ d \/ exists v0, (k, v0) ∈ d /\ v = f v0.
Proof.
  induction d as [| [k1 v1] r IH]; simpl; [intros H; inversion H |].
  destruct (eqb k0 k1).
  - intros [H | H]%elem_of_cons.
    + injection H as -> ->. right. exists v1. split; [left | reflexivity].
    + left. now right.
  - intros [H | H]%elem_of_cons.
    + left. rewrite H. left.
    + destruct (IH H) as [H1 | (v0 & H1 & ->)].
      * left. now right.
      * right. exists v0. split; [now right | reflexivity].
Qed.

Lemma elem_of_dict_setdefault k0 v0 (d : list (K * V)) k v :
  (k, v) ∈ dict_setdefault eqb k0 v0 d -> (k, v) ∈ d \/ v = v0.
Proof.
  unfold dict_setdefault. destruct (dict_get eqb k0 d); [now left |].
  intros [H | H]%elem_of_app; [now left |].
  apply list_elem_of_singleton in H. injection H as -> ->. now right.
Qed.
End GenericDict.

(** ** Sorting and grouping keep the rows *)

Lemma elem_of_insert_sorted {A} (lt : A -> A -> bool) x a l :
  x ∈ insert_sorted lt a l <-> x = a \/ x ∈ l.
Proof.
  induction l as [| y r IH]; simpl.
  - rewrite list_elem_of_singleton, elem_of_nil. tauto.
  - destruct (lt a y); rewrite !elem_of_cons; [tauto |].
    rewrite IH. tauto.
Qed.

Lemma elem_of_fold_insert {A} (lt : A -> A -> bool) x l acc :
  x ∈ fold_left (fun acc x => insert_sorted lt x acc) l acc
  <-> x ∈ l \/ x ∈ acc.
Proof.
  revert acc. induction l as [| y r IH]; intros acc; simpl.
  - rewrite elem_of_nil. tauto.
  - rewrite IH, elem_of_insert_sorted, elem_of_cons. tauto.
Qed.

Lemma elem_of_stable_sort {A} (lt : A -> A -> bool) x l :
  x ∈ stable_sort lt l <-> x ∈ l.
Proof.
  unfold stable_sort. rewrite elem_of_fold_insert, elem_of_nil. tauto.
Qed.

Lemma group_by_serie_rows P by_serie s :
  P s -> all_rows P by_serie -> all_rows P (group_by_serie by_serie s).
Proof.
  intros Hs H sr rows x Hin Hx. unfold group_by_serie in Hin.
  apply elem_of_dict_update in Hin as [Hin | (rows0 & Hin & ->)].
  - apply elem_of_dict_setdefault in Hin as [Hin | ->].
    + exact (H _ _ _ Hin Hx).
    + inversion Hx.
  - apply elem_of_app in Hx as [Hx | Hx].
    + apply elem_of_dict_setdefault in Hin as [Hin | ->].
      * exact (H _ _ _ Hin Hx).
      * inversion Hx.
    + apply list_elem_of_singleton in Hx. now subst.
Qed.

Lemma fold_group_rows P l acc :
  (forall s, s ∈ l -> P s) -> all_rows P acc ->
  all_rows P (fold_left group_by_serie l acc).
Proof.
  revert acc. induction l as [| s r IH]; intros acc Hl Hacc; simpl; [exact Hacc |].
  apply IH.
  - intros x Hx. apply Hl. now right.
  - apply group_by_serie_rows; [apply Hl; left | exact Hacc].
Qed.

(** Every row of the result is a row of the accumulated dictionary. *)
Lemma compute_rows P matches team_lookup :
  (forall k s, (k, s) ∈ accumulate_standings matches team_lookup -> P s) ->
  all_rows P (compute_group_standings matches team_lookup).
Proof.
  intros H sr rows s Hin Hs. unfold compute_group_standings in Hin.
  apply list_elem_of_fmap in Hin as ([sr0 rows0] & Heq & Hin).
  injection Heq as -> ->.
  apply elem_of_stable_sort in Hs.
  refine (fold_group_rows P _ [] _ _ sr0 rows0 s Hin Hs).
  - intros x Hx. apply list_elem_of_fmap in Hx as ([k x'] & -> & Hx). eauto.
  - intros ? ? ? Hnil. inversion Hnil.
Qed.

Lemma accumulate_keys matches team_lookup :
  NoDup (map fst (accumulate_standings matches team_lookup)).
Proof.
  unfold accumulate_standings.
  apply (fold_process_inv team_lookup (fun d => NoDup (map fst d))).
  - intros d m _. apply process_match_keys.
  - apply NoDup_nil_2.
Qed.

Lemma accumulate_wdl matches team_lookup :
  dict_all wdl_ok (accumulate_standings matches team_lookup).
Proof.
  unfold accumulate_standings.
  apply (fold_process_inv team_lookup (dict_all wdl_ok)).
  - intros d m _. apply process_match_wdl.
  - intros k s [=].
Qed.

Lemma accumulate_goals matches team_lookup :
  (forall m, m ∈ matches -> is_group m = true -> scores_nonneg m) ->
  dict_all goals_ok (accumulate_standings matches team_lookup).
Proof.
  intros Hm. unfold accumulate_standings.
  apply (fold_process_inv team_lookup (dict_all goals_ok)).
  - intros d m Hin. apply process_match_goals. now apply Hm.
  - intros k s [=].
Qed.

(** C10 (amended). Every row of [compute_group_standings], for every match
    list and team lookup, has points = 3 * wins + draws and non-negative
    wins, draws and losses; its goals for and against are non-negative
    when no group match carries a negative score. *)
Theorem C10_standings_rows matches team_lookup sr rows s :
  (sr, rows) ∈ compute_group_standings matches team_lookup ->
  s ∈ rows ->
  wdl_ok s
  /\ ((forall m, m ∈ matches -> is_group m = true -> scores_nonneg m) ->
      goals_ok s).
Proof.
  intros Hin Hs. split.
  - refine (compute_rows wdl_ok matches team_lookup _ sr rows s Hin Hs).
    intros k x Hx. apply (accumulate_wdl matches team_lookup k).
    apply (dict_get_of_in Z.eqb Z.eqb_eq); [apply accumulate_keys | exact Hx].
  - intros Hm.
    refine (compute_rows goals_ok matches team_lookup _ sr rows s Hin Hs).
    intros k x Hx. apply (accumulate_goals matches team_lookup Hm k).
    apply (dict_get_of_in Z.eqb Z.eqb_eq); [apply accumulate_keys | exact Hx].
Qed.

Lemma C10_standings_rows_witness :
  let m := finalized_group_match 1 2 2 1 (Some "Serie A"%string) in
  let s := TeamStanding.mk (mkTeam (Some 1) "Equipo") (Some "Serie A"%string)
             3 2 1 1 0 0 in
  wdl_ok s /\ goals_ok s.
Proof.
  intros m s.
  destruct (C10_standings_rows [m] ∅ "Serie A"
              [s; TeamStanding.mk (mkTeam (Some 2) "Equipo")
                    (Some "Serie A"%string) 0 1 2 0 0 1] s) as [Hw Hg].
  - vm_compute. left.
  - left.
  - split; [exact Hw |]. apply Hg.
    intros m' Hm' _. apply list_elem_of_singleton in Hm'. subst m'.
    vm_compute. split; discriminate.
Defined.

(** C10, as stated, fails: a negative recorded score gives a row with
    negative goals. *)
Lemma C10_counterexample :
  exists sr rows s,
    (sr, rows) ∈ compute_group_standings [negative_score_match] ∅
    /\ s ∈ rows
    /\ TeamStanding.goals_for s = -1
    /\ ~ goals_ok s.
Proof.
  exists "Serie A"%string.
  eexists. eexists. split; [vm_compute; left |].
  split; [right; left |].
  split; [reflexivity |]. intros [H _]. vm_compute in H. apply H. reflexivity.
Qed.

(** ** The documented example and the accumulation rule *)

Lemma wdl_of_fold team_lookup matches d k :
  wdl_of (fold_left (process_match team_lookup) matches d) k
  = fold_left (fun acc m => wdl_add acc (match_delta m k)) matches (wdl_of d k).
Proof.
  revert d. induction matches as [| m r IH]; intros d; simpl; [reflexivity |].
  now rewrite IH, wdl_of_process_match.
Qed.

Lemma wdl_of_accumulate team_lookup matches k :
  wdl_of (accumulate_standings matches team_lookup) k = wdl_total matches k.
Proof. unfold accumulate_standings, wdl_total. now rewrite wdl_of_fold. Qed.

Lemma single_match_table team_lookup sr (a b ls vs : Z) :
  a <> b -> ls <> vs ->
  compute_group_standings [finalized_group_match a b ls vs sr] team_lookup
  = let ra := TeamStanding.mk (team_of team_lookup a) sr
                (if ls >? vs then 3 else 0) ls vs
                (if ls >? vs then 1 else 0) 0 (if ls >? vs then 0 else 1) in
    let rb := TeamStanding.mk (team_of team_lookup b) sr
                (if ls >? vs then 0 else 3) vs ls
                (if ls >? vs then 0 else 1) 0 (if ls >? vs then 1 else 0) in
    [(serie_key sr, if ls >? vs then [ra; rb] else [rb; ra])].
Proof.
  intros Hab Hs.
  assert (Eab : (a =? b) = false) by now apply Z.eqb_neq.
  assert (Eba : (b =? a) = false) by (apply Z.eqb_neq; congruence).
  assert (Es : (ls =? vs) = false) by now apply Z.eqb_neq.
  set (m := finalized_group_match a b ls vs sr).
  assert (Hg : is_group m = true) by reflexivity.
  assert (Hf : is_finalizado m = true) by reflexivity.
  unfold compute_group_standings, accumulate_standings.
  cbn [fold_left]. unfold process_match. rewrite Hg, Hf. subst m.
  unfold tally_result, tally_goals, ensure_standing, dict_setdefault,
    finalized_group_match, group_by_serie, serie_label_of, dict_setdefault,
    sort_standings, stable_sort, team_of.
  destruct (ls >? vs) eqn:Egt;
    repeat (progress (cbn;
      rewrite ?Z.eqb_refl, ?Eab, ?Eba, ?Es, ?Egt, ?String.eqb_refl));
    reflexivity.
Qed.

Lemma match_delta_not_finalized m k :
  is_finalizado m = false -> match_delta m k = (0, 0, 0, 0).
Proof. intros H. unfold match_delta. rewrite H, andb_false_r. reflexivity. Qed.

Lemma match_delta_finalized l v ls vs sr k :
  l <> v ->
  match_delta (finalized_group_match l v ls vs sr) k
  = if k =? l then
      if ls =? vs then (1, 0, 1, 0)
      else if ls >? vs then (3, 1, 0, 0) else (0, 0, 0, 1)
    else if k =? v then
      if ls =? vs then (1, 0, 1, 0)
      else if ls >? vs then (0, 0, 0, 1) else (3, 1, 0, 0)
    else (0, 0, 0, 0).
Proof.
  intros Hlv. unfold match_delta.
  change (is_group (finalized_group_match l v ls vs sr)) with true.
  change (is_finalizado (finalized_group_match l v ls vs sr)) with true.
  cbn. unfold result_delta.
  destruct (Z.eqb_spec k l), (Z.eqb_spec k v); try congruence;
    destruct (ls =? vs), (ls >? vs); reflexivity.
Qed.

(** *** Rows and team ids *)

Section RowTeams.
Variable team_lookup : gmap Z Team.

Lemma tally_goals_named sr d triple :
  rows_named team_lookup d ->
  rows_named team_lookup (tally_goals team_lookup sr d triple).
Proof.
  intros H k s. destruct triple as [[[tid |] sc] co]; simpl; [| apply H].
  dict_get_simpl. key_cases; [| apply H].
  row_cases H; simpl; intros [= <-]; simpl; [exact E | reflexivity].
Qed.

Lemma tally_result_named m d :
  rows_named team_lookup d ->
  rows_named team_lookup (tally_result team_lookup m d).
Proof.
  intros H k s. unfold tally_result.
  destruct (EventoPartido.equipo_local_id m) as [l |]; [| apply H].
  destruct (EventoPartido.equipo_visitante_id m) as [v |]; [| apply H].
  destruct (EventoPartido.puntaje_local m) as [ls |],
           (EventoPartido.puntaje_visitante m) as [vs |];
    [ destruct (ls =? vs); [| destruct (ls >? vs)] | | | ];
    dict_get_simpl; key_cases; try contradiction; try exact (H k s);
    row_cases H; simpl; try (intros [= <-]); try discriminate;
    simpl; try assumption; try reflexivity.
Qed.

Lemma process_match_named d m :
  rows_named team_lookup d ->
  rows_named team_lookup (process_match team_lookup d m).
Proof.
  intros H. unfold process_match.
  destruct (is_group m); cbn [negb fold_left]; [| exact H].
  destruct (is_finalizado m); cbn [negb];
    [apply tally_result_named |]; now do 2 apply tally_goals_named.
Qed.

Lemma accumulate_named matches :
  rows_named team_lookup (accumulate_standings matches team_lookup).
Proof.
  unfold accumulate_standings.
  apply (fold_process_inv team_lookup (rows_named team_lookup)).
  - intros d m _. apply process_match_named.
  - intros k s [=].
Qed.
End RowTeams.

Lemma dict_key_is_Some (d : standings_dict) k :
  k ∈ map fst d <-> is_Some (dict_get Z.eqb k d).
Proof.
  split.
  - intros Hk. destruct (dict_get Z.eqb k d) eqn:E; [eauto |].
    now apply (dict_get_None_notin Z.eqb Z.eqb_eq) in E.
  - intros [s Hs]. apply (dict_get_Some_in Z.eqb Z.eqb_eq) in Hs.
    apply list_elem_of_fmap. now exists (k, s).
Qed.

Section Keys.
Variable team_lookup : gmap Z Team.

Lemma tally_goals_key sr d tid sc co k :
  is_Some (dict_get Z.eqb k (tally_goals team_lookup sr d (tid, sc, co)))
  <-> is_Some (dict_get Z.eqb k d) \/ tid = Some k.
Proof.
  destruct tid as [tid |]; simpl.
  - dict_get_simpl. destruct (Z.eqb_spec k tid) as [-> | Hne].
    + split; [now right |]. intros _.
      destruct (dict_get Z.eqb tid d); simpl; eauto.
    + split; [now left |]. intros [H | [= ->]]; [exact H | contradiction].
  - split; [now left |]. now intros [H | [=]].
Qed.

Lemma tally_result_key m d k :
  is_Some (dict_get Z.eqb k d) ->
  is_Some (dict_get Z.eqb k (tally_result team_lookup m d)).
Proof.
  intros [s Hs]. unfold tally_result.
  destruct (EventoPartido.equipo_local_id m) as [l |]; [| eauto].
  destruct (EventoPartido.equipo_visitante_id m) as [v |]; [| eauto].
  destruct (EventoPartido.puntaje_local m) as [ls |],
           (EventoPartido.puntaje_visitante m) as [vs |];
    [ destruct (ls =? vs); [| destruct (ls >? vs)] | | | ];
    dict_get_simpl; key_cases; try contradiction;
    rewrite ?Hs; simpl; eauto.
Qed.

Lemma tally_result_key_inv m d k :
  is_Some (dict_get Z.eqb k (tally_result team_lookup m d)) ->
  is_Some (dict_get Z.eqb k d)
  \/ EventoPartido.equipo_local_id m = Some k
  \/ EventoPartido.equipo_visitante_id m = Some k.
Proof.
  unfold tally_result.
  destruct (EventoPartido.equipo_local_id m) as [l |]; [| eauto].
  destruct (EventoPartido.equipo_visitante_id m) as [v |]; [| eauto].
  destruct (EventoPartido.puntaje_local m) as [ls |],
           (EventoPartido.puntaje_visitante m) as [vs |];
    [ destruct (ls =? vs); [| destruct (ls >? vs)] | | | ];
    dict_get_simpl; key_cases; try contradiction; eauto.
Qed.

Lemma elem_of_group_team_ids m k :
  k ∈ group_team_ids m
  <-> is_group m = true
      /\ (EventoPartido.equipo_local_id m = Some k
          \/ EventoPartido.equipo_visitante_id m = Some k).
Proof.
  unfold group_team_ids. destruct (is_group m).
  - rewrite list_elem_of_omap. split.
    + intros (x & Hx & Hk). simpl in Hk. subst x. split; [reflexivity |].
      apply elem_of_cons in Hx as [-> | Hx]; [now left |].
      apply list_elem_of_singleton in Hx. now right.
    + intros [_ [H | H]]; exists (Some k); (split; [| reflexivity]);
        rewrite <- H; [left | right; left].
  - rewrite elem_of_nil. split; [tauto | now intros [[=] _]].
Qed.

Lemma process_match_key d m k :
  is_Some (dict_get Z.eqb k (process_match team_lookup d m))
  <-> is_Some (dict_get Z.eqb k d) \/ k ∈ group_team_ids m.
Proof.
  rewrite elem_of_group_team_ids. unfold process_match.
  destruct (is_group m); cbn [negb fold_left].
  2: { split; [now left | now intros [H | [[=] _]]]. }
  set (d2 := tally_goals team_lookup _ (tally_goals team_lookup _ d _) _).
  assert (E2 : is_Some (dict_get Z.eqb k d2)
     <-> is_Some (dict_get Z.eqb k d)
         \/ EventoPartido.equipo_local_id m = Some k
         \/ EventoPartido.equipo_visitante_id m = Some k).
  { subst d2. rewrite !tally_goals_key. tauto. }
  destruct (is_finalizado m); cbn [negb]; [| rewrite E2; tauto].
  split.
  - intros H. apply tally_result_key_inv in H. rewrite E2 in H. tauto.
  - intros H. apply tally_result_key, E2. tauto.
Qed.

Lemma accumulate_key matches k :
  k ∈ map fst (accumulate_standings matches team_lookup)
  <-> k ∈ flat_map group_team_ids matches.
Proof.
  rewrite dict_key_is_Some. unfold accumulate_standings.
  enough (H : forall d,
    is_Some (dict_get Z.eqb k (fold_left (process_match team_lookup) matches d))
    <-> is_Some (dict_get Z.eqb k d) \/ k ∈ flat_map group_team_ids matches).
  { rewrite H. simpl. split; [| tauto]. intros [[s [=]] | H']; exact H'. }
  induction matches as [| m r IH]; intros d; simpl.
  - rewrite elem_of_nil. tauto.
  - rewrite IH, process_match_key, elem_of_app. tauto.
Qed.

Lemma named_rows_of_keys (d : standings_dict) :
  NoDup (map fst d) -> rows_named team_lookup d ->
  TeamStanding.team <$> map snd d = row_team team_lookup <$> map fst d.
Proof.
  intros Hnd Hn.
  assert (H : forall k s, (k, s) ∈ d ->
                TeamStanding.team s = row_team team_lookup k).
  { intros k s Hin. apply Hn. now apply (dict_get_of_in Z.eqb Z.eqb_eq). }
  clear Hnd Hn. induction d as [| [k s] r IH]; [reflexivity |].
  cbn. f_equal.
  - apply H. left.
  - apply IH. intros k' s' Hin. apply H. now right.
Qed.
End Keys.

(** Every row of the table is the row that the accumulation loop files
    under one team id: the id of a team of some group match, with that
    id's team and that id's counters. *)
Lemma row_of_key matches team_lookup :
  all_rows
    (fun s => exists k,
       k ∈ flat_map group_team_ids matches
       /\ dict_get Z.eqb k (accumulate_standings matches team_lookup) = Some s
       /\ TeamStanding.team s = team_of team_lookup k
       /\ (TeamStanding.points s, TeamStanding.wins s,
           TeamStanding.draws s, TeamStanding.losses s) = wdl_total matches k)
    (compute_group_standings matches team_lookup).
Proof.
  apply compute_rows. intros k s Hin. exists k.
  pose proof (dict_get_of_in Z.eqb Z.eqb_eq k s _
                (accumulate_keys matches team_lookup) Hin) as Hget.
  split; [| split; [exact Hget | split]].
  - apply (accumulate_key team_lookup). apply list_elem_of_fmap.
    now exists (k, s).
  - now apply (accumulate_named team_lookup matches).
  - rewrite <- (wdl_of_accumulate team_lookup). unfold wdl_of.
    now rewrite Hget.
Qed.

(** In a lookup keyed by team id, the team of the row of [k] has id [k]. *)
Lemma team_of_id team_lookup k :
  (forall i t, team_lookup !! i = Some t -> team_id t = Some i) ->
  team_id (team_of team_lookup k) = Some k.
Proof.
  intros Hkeyed. unfold team_of.
  destruct (team_lookup !! k) as [t |] eqn:E; [exact (Hkeyed k t E) | reflexivity].
Qed.

(** C7. A 2-team series with one finalized group match won 2-1 yields the
    winner first with 3 points, 1 win, 0 draws, 0 losses and goal
    difference +1, then the loser with 0 points, 0 wins, 0 draws, 1 loss
    and goal difference -1, whichever side was local.  In general every
    row of the table is the row filed under the id of one team of a group
    match, carries that id's team, and its points, wins, draws and losses
    are the sum, over the match list, of what each match is worth to that
    id; with a lookup keyed by team id this is the id of the row's own
    team.  A match is worth nothing when it is not finalized and 3/1/0
    points for a win, draw or loss when it is a finalized group match. *)
Theorem C7_standings_example_and_rule :
  (forall team_lookup sr (w l : Z), w <> l ->
     let winner := TeamStanding.mk (team_of team_lookup w) sr 3 2 1 1 0 0 in
     let loser := TeamStanding.mk (team_of team_lookup l) sr 0 1 2 0 0 1 in
     compute_group_standings [finalized_group_match w l 2 1 sr] team_lookup
       = [(serie_key sr, [winner; loser])]
     /\ compute_group_standings [finalized_group_match l w 1 2 sr] team_lookup
       = [(serie_key sr, [winner; loser])]
     /\ TeamStanding.goal_diff winner = 1
     /\ TeamStanding.goal_diff loser = -1)
  /\ (forall matches team_lookup sr rows s,
        (sr, rows) ∈ compute_group_standings matches team_lookup ->
        s ∈ rows ->
        (exists k,
           k ∈ flat_map group_team_ids matches
           /\ dict_get Z.eqb k (accumulate_standings matches team_lookup)
              = Some s
           /\ TeamStanding.team s = team_of team_lookup k
           /\ (TeamStanding.points s, TeamStanding.wins s,
               TeamStanding.draws s, TeamStanding.losses s)
              = wdl_total matches k)
        /\ ((forall i t, team_lookup !! i = Some t -> team_id t = Some i) ->
            forall k, team_id (TeamStanding.team s) = Some k ->
              (TeamStanding.points s, TeamStanding.wins s,
               TeamStanding.draws s, TeamStanding.losses s)
              = wdl_total matches k))
  /\ (forall m k, is_finalizado m = false -> match_delta m k = (0, 0, 0, 0))
  /\ (forall l v ls vs sr k, l <> v ->
        match_delta (finalized_group_match l v ls vs sr) k
        = if k =? l then
            if ls =? vs then (1, 0, 1, 0)
            else if ls >? vs then (3, 1, 0, 0) else (0, 0, 0, 1)
          else if k =? v then
            if ls =? vs then (1, 0, 1, 0)
            else if ls >? vs then (0, 0, 0, 1) else (3, 1, 0, 0)
          else (0, 0, 0, 0)).
Proof.
  split; [| split; [| split]].
  - intros team_lookup sr w l Hwl winner loser.
    repeat split.
    + now rewrite single_match_table by (congruence || lia).
    + now rewrite single_match_table by (congruence || lia).
  - intros matches team_lookup sr rows s Hin Hs.
    destruct (row_of_key matches team_lookup sr rows s Hin Hs)
      as (k & Hk & Hget & Hteam & Hwdl).
    split; [now exists k |].
    intros Hkeyed k' Hk'. rewrite Hteam, (team_of_id _ _ Hkeyed) in Hk'.
    injection Hk' as <-. exact Hwdl.
  - apply match_delta_not_finalized.
  - apply match_delta_finalized.
Qed.

Lemma C7_standings_example_and_rule_witness :
  compute_group_standings
    [finalized_group_match 10 20 2 1 (Some "Serie A"%string)] ∅
  = [("Serie A"%string,
      [TeamStanding.mk (mkTeam (Some 10) "Equipo") (Some "Serie A"%string)
         3 2 1 1 0 0;
       TeamStanding.mk (mkTeam (Some 20) "Equipo") (Some "Serie A"%string)
         0 1 2 0 0 1])]
  /\ wdl_total [finalized_group_match 10 20 2 1 (Some "Serie A"%string)] 10
     = (3, 1, 0, 0)
  /\ match_delta negative_score_match 1 = (0, 0, 0, 0)
  /\ match_delta (finalized_group_match 10 20 2 1 None) 10 = (3, 1, 0, 0).
Proof.
  destruct C7_standings_example_and_rule as (Hex & Hrule & Hnf & Hfin).
  destruct (Hex ∅ (Some "Serie A"%string) 10 20) as [H1 _]; [lia |].
  split; [exact H1 |]. split; [| split].
  - symmetry.
    refine (proj2 (Hrule [finalized_group_match 10 20 2 1 (Some "Serie A"%string)]
                     ∅ "Serie A"%string _
                     (TeamStanding.mk (mkTeam (Some 10) "Equipo")
                        (Some "Serie A"%string) 3 2 1 1 0 0) _ _) _ 10 eq_refl).
    + rewrite H1. left.
    + left.
    + intros i t Hi. rewrite lookup_empty in Hi. discriminate.
  - apply Hnf. reflexivity.
  - apply (Hfin 10 20 2 1 None 10). lia.
Defined.

(** ** Seed resolver *)

Lemma take_if_unused_spec standing used tm used' :
  take_if_unused standing used = Some (tm, used') ->
  team_id tm ∉ used /\ used' = {[ team_id tm ]} ∪ used.
Proof.
  unfold take_if_unused. case_bool_decide; [discriminate |].
  intros [= <- <-]. split; [assumption | reflexivity].
Qed.

Lemma pick_unused_spec index rankings used tm used' :
  pick_unused index rankings used = Some (tm, used') ->
  team_id tm ∉ used /\ used' = {[ team_id tm ]} ∪ used.
Proof.
  revert index. induction rankings as [| st rest IH]; intros index; simpl;
    [discriminate |].
  case_bool_decide; [apply IH |].
  destruct (index =? 0); [| apply IH].
  intros [= <- <-]. split; [assumption | reflexivity].
Qed.

(** One call: a returned team was not in [used_ids] before the call and is
    in it afterwards; a call that returns nothing leaves the set alone. *)
Lemma resolve_seed_team_spec label st gr used :
  match resolve_seed_team label st gr used with
  | (Some tm, used') => team_id tm ∉ used /\ used' = {[ team_id tm ]} ∪ used
  | (None, used') => used' = used
  end.
Proof.
  unfold resolve_seed_team.
  destruct (_ || _); [reflexivity |].
  destruct (seed_first _ _ _) as [[tm u] |] eqn:E1.
  { unfold seed_first in E1. destruct (PyStr.startswith _ _); [| discriminate].
    destruct (take 1 _); [discriminate |].
    now apply take_if_unused_spec in E1. }
  destruct (seed_second _ _ _) as [[tm u] |] eqn:E2.
  { unfold seed_second in E2. destruct (PyStr.startswith _ _); [| discriminate].
    destruct (_ !! _); [| discriminate].
    now apply take_if_unused_spec in E2. }
  destruct (seed_wildcard _ _ _) as [[tm u] |] eqn:E3; [| reflexivity].
  unfold seed_wildcard in E3. destruct (PyStr.startswith _ _); [| discriminate].
  destruct (PyStr.int _); [| discriminate].
  now apply pick_unused_spec in E3.
Qed.

Lemma resolve_pass_spec calls used :
  let rs := (resolve_pass calls used).1 in
  let used' := (resolve_pass calls used).2 in
  NoDup (team_id <$> returned_teams rs)
  /\ (forall tm, tm ∈ returned_teams rs -> team_id tm ∉ used)
  /\ used' = list_to_set (team_id <$> returned_teams rs) ∪ used.
Proof.
  revert used. induction calls as [| c rest IH]; intros used; simpl.
  - split; [apply NoDup_nil_2 |]. split; [intros tm H; inversion H |].
    set_solver.
  - pose proof (resolve_seed_team_spec (call_label c) (call_standings c)
                  (call_rankings c) used) as Hc.
    destruct (resolve_seed_team _ _ _ used) as [r u].
    specialize (IH u). destruct (resolve_pass rest u) as [rs u'].
    simpl in *. destruct IH as (Hnd & Hfresh & Hu').
    destruct r as [tm |]; simpl.
    + destruct Hc as [Hnew ->]. split; [| split].
      * apply NoDup_cons. split; [| exact Hnd].
        intros Hin. apply list_elem_of_fmap in Hin as (tm' & Heq & Hin).
        apply (Hfresh tm' Hin). rewrite <- Heq. set_solver.
      * intros tm' [-> | Hin]%elem_of_cons; [exact Hnew |].
        intros Hu. apply (Hfresh tm' Hin). set_solver.
      * rewrite Hu'. set_solver.
    + subst u. split; [exact Hnd |]. split; [exact Hfresh | exact Hu'].
Qed.

(** C8. Across any sequence of [resolve_seed_team] calls that share one
    [used_ids] set, no team is returned twice: a returned team's id was
    not in [used_ids] when the call was made, it is added on return, and
    so the ids (and the teams) handed out in one pass are pairwise
    distinct and disjoint from the ids that were consumed before. *)
Theorem C8_seed_uniqueness :
  (forall label st gr used,
     match resolve_seed_team label st gr used with
     | (Some tm, used') =>
         team_id tm ∉ used /\ team_id tm ∈ used'
         /\ used' = {[ team_id tm ]} ∪ used
     | (None, used') => used' = used
     end)
  /\ (forall calls used,
        let rs := (resolve_pass calls used).1 in
        let used' := (resolve_pass calls used).2 in
        NoDup (returned_teams rs)
        /\ NoDup (team_id <$> returned_teams rs)
        /\ (forall tm, tm ∈ returned_teams rs ->
              team_id tm ∉ used /\ team_id tm ∈ used')).
Proof.
  split.
  - intros label st gr used.
    pose proof (resolve_seed_team_spec label st gr used) as H.
    destruct (resolve_seed_team label st gr used) as [[tm |] used']; [| exact H].
    destruct H as [Hn ->]. repeat split; [exact Hn | set_solver].
  - intros calls used rs used'.
    destruct (resolve_pass_spec calls used) as (Hnd & Hfresh & Hu).
    fold rs in Hnd, Hfresh, Hu. fold used' in Hu.
    split; [exact (NoDup_fmap_1 team_id _ Hnd) |].
    split; [exact Hnd |].
    intros tm Hin. split; [exact (Hfresh tm Hin) |].
    rewrite Hu. apply elem_of_union_l, elem_of_list_to_set.
    apply list_elem_of_fmap. now exists tm.
Qed.

(** ** Slot builder *)

Lemma elem_of_range n i : i ∈ range n <-> 0 <= i < n.
Proof.
  unfold range. rewrite list_elem_of_fmap. split.
  - intros (k & -> & Hk). apply elem_of_seq in Hk. lia.
  - intros Hi. exists (Z.to_nat i). split; [lia |]. apply elem_of_seq. lia.
Qed.

(** A loop whose body cannot raise on the elements it visits and keeps an
    invariant ends normally, with the invariant. *)
Lemma result_fold_ok {A S} (f : S -> A -> result S) (I : S -> Prop) l :
  (forall s a, a ∈ l -> I s -> exists s', f s a = Ok s' /\ I s') ->
  forall s, I s -> exists s', result_fold f l s = Ok s' /\ I s'.
Proof.
  induction l as [| a r IH]; intros Hf s Hs; simpl.
  - now exists s.
  - destruct (Hf s a) as (s1 & E & Hs1); [left | exact Hs |].
    rewrite E. simpl. apply IH; [| exact Hs1].
    intros s2 b Hb. apply Hf. now right.
Qed.

Lemma make_time_ok (t : Z) :
  0 <= t < 24 * 60 ->
  make_time (t / 60) (t mod 60) = Ok (mkTime (t / 60) (t mod 60)).
Proof.
  intros Ht. unfold make_time.
  assert (0 <= t / 60 <= 23).
  { split; [apply Z.div_pos; lia |].
    assert (t / 60 < 24) by (apply Z.div_lt_upper_bound; lia). lia. }
  assert (0 <= t mod 60 < 60) by (apply Z.mod_pos_bound; lia).
  repeat match goal with
  | |- context [?a <=? ?b] => destruct (Z.leb_spec a b); try lia
  end. reflexivity.
Qed.

Lemma minutes_of_make (t : Z) : minutes_of (mkTime (t / 60) (t mod 60)) = t.
Proof.
  unfold minutes_of. simpl. pose proof (Z.div_mod t 60). lia.
Qed.

Lemma slot_window_ok start_minutes duration_minutes time_index :
  0 <= start_minutes + time_index * duration_minutes ->
  0 <= duration_minutes ->
  start_minutes + (time_index + 1) * duration_minutes < 24 * 60 ->
  exists hi hf,
    slot_window start_minutes duration_minutes time_index = Ok (hi, hf)
    /\ minutes_of hi = start_minutes + time_index * duration_minutes
    /\ minutes_of hf = start_minutes + (time_index + 1) * duration_minutes.
Proof.
  intros H0 Hd H1. unfold slot_window.
  set (st := start_minutes + time_index * duration_minutes) in *.
  assert (Hend : st + duration_minutes
                 = start_minutes + (time_index + 1) * duration_minutes)
    by (subst st; lia).
  rewrite make_time_ok by lia. simpl.
  destruct (Z.gtb_spec (st + duration_minutes) (24 * 60)); [lia |].
  rewrite make_time_ok by lia. simpl.
  eexists _, _. split; [reflexivity |].
  rewrite !minutes_of_make. lia.
Qed.

Lemma add_venue_slots_within lo hi dur d ti cd h1 h2 venues acc :
  lo <= minutes_of h1 -> minutes_of h2 = minutes_of h1 + dur ->
  minutes_of h2 <= hi ->
  slots_within lo hi dur acc ->
  slots_within lo hi dur (add_venue_slots d ti cd h1 h2 venues acc).
Proof.
  intros Ha Hb Hc. unfold add_venue_slots. revert acc.
  induction venues as [| v r IH]; intros [slots index] Hacc; simpl;
    [exact Hacc |].
  apply IH. intros s [Hs | Hs]%elem_of_app; [now apply Hacc |].
  apply list_elem_of_singleton in Hs. subst s. simpl. lia.
Qed.

Lemma build_slots_ok start_date end_date config venues :
  time_ok (ScheduleConfig.hora_inicio config) ->
  time_ok (ScheduleConfig.hora_fin config) ->
  1 <= ScheduleConfig.duracion_horas config ->
  start_date <= end_date ->
  60 * ScheduleConfig.duracion_horas config
    <= minutes_of (ScheduleConfig.hora_fin config)
       - minutes_of (ScheduleConfig.hora_inicio config) ->
  exists slots,
    build_slots start_date end_date config venues = Ok slots
    /\ slots_within (minutes_of (ScheduleConfig.hora_inicio config))
         (minutes_of (ScheduleConfig.hora_fin config))
         (60 * ScheduleConfig.duracion_horas config) (slots, 0).
Proof.
  intros [Hh1 Hm1] [Hh2 Hm2] Hdur Hdates Havail. unfold build_slots.
  set (sm := minutes_of (ScheduleConfig.hora_inicio config)) in *.
  set (em := minutes_of (ScheduleConfig.hora_fin config)) in *.
  set (dm := ScheduleConfig.duracion_horas config * 60).
  assert (Hsm : 0 <= sm) by (subst sm; unfold minutes_of; lia).
  assert (Hem : em < 24 * 60) by (subst em; unfold minutes_of; lia).
  destruct (Z.gtb_spec start_date end_date); [lia |].
  destruct (Z.ltb_spec (em - sm) dm); [lia |].
  destruct (Z.eqb_spec dm 0); [lia |].
  set (spd := Z.max ((em - sm) / dm) 1).
  assert (Hspd : spd * dm <= em - sm).
  { assert (1 <= (em - sm) / dm) by (apply Z.div_le_lower_bound; lia).
    subst spd. rewrite Z.max_l by lia.
    pose proof (Z.mul_div_le (em - sm) dm). lia. }
  destruct (result_fold_ok
              (day_loop start_date sm dm spd venues)
              (slots_within sm em (60 * ScheduleConfig.duracion_horas config))
              (range (end_date - start_date + 1))) with (s := ([] : list Slot, 0))
    as ([slots index] & E & Hin).
  - intros acc d _ Hacc. unfold day_loop.
    apply result_fold_ok; [| exact Hacc].
    intros acc' ti Hti%elem_of_range Hacc'. unfold time_loop.
    destruct (slot_window_ok sm dm ti) as (hi & hf & -> & Ehi & Ehf);
      [nia | lia | nia |].
    simpl. eexists. split; [reflexivity |].
    apply add_venue_slots_within; try assumption; nia.
  - intros s Hs. inversion Hs.
  - rewrite E. simpl. exists slots. split; [reflexivity | exact Hin].
Qed.

(** C9. With a positive match duration, well-formed start and end times,
    a start date not after the end date and a daily window that holds at
    least one match, [build_slots] returns its slots: no slot window
    raises, in particular never the 24-hour-limit error, and every slot
    begins at or after the daily start and ends at or before the daily
    end, one match duration after it begins. *)
Theorem C9_build_slots_within_window start_date end_date config venues :
  time_ok (ScheduleConfig.hora_inicio config) ->
  time_ok (ScheduleConfig.hora_fin config) ->
  1 <= ScheduleConfig.duracion_horas config ->
  start_date <= end_date ->
  60 * ScheduleConfig.duracion_horas config
    <= minutes_of (ScheduleConfig.hora_fin config)
       - minutes_of (ScheduleConfig.hora_inicio config) ->
  build_slots start_date end_date config venues <> Raise day_limit_error
  /\ exists slots,
       build_slots start_date end_date config venues = Ok slots
       /\ forall s, s ∈ slots ->
            minutes_of (ScheduleConfig.hora_inicio config)
              <= minutes_of (Slot.hora_inicio s)
            /\ minutes_of (Slot.hora_fin s)
               = minutes_of (Slot.hora_inicio s)
                 + 60 * ScheduleConfig.duracion_horas config
            /\ minutes_of (Slot.hora_fin s)
               <= minutes_of (ScheduleConfig.hora_fin config)
            /\ minutes_of (Slot.hora_fin s) < 24 * 60.
Proof.
  intros H1 H2 Hdur Hdates Havail.
  destruct (build_slots_ok start_date end_date config venues)
    as (slots & E & Hin); try assumption.
  split; [rewrite E; discriminate |].
  exists slots. split; [exact E |].
  intros s Hs. destruct (Hin s Hs) as (Ha & Hb & Hc).
  repeat split; try assumption.
  destruct H2 as [? ?]. unfold minutes_of in *. lia.
Qed.

Lemma C9_build_slots_within_window_witness :
  let config := ScheduleConfig.mk (mkTime 8 0) (mkTime 12 0) 2 0 in
  let venues := [mkVenue 1 "Cancha Principal"] in
  build_slots 100 101 config venues <> Raise day_limit_error
  /\ exists slots,
       build_slots 100 101 config venues = Ok slots
       /\ forall s, s ∈ slots ->
            minutes_of (ScheduleConfig.hora_inicio config)
              <= minutes_of (Slot.hora_inicio s)
            /\ minutes_of (Slot.hora_fin s)
               = minutes_of (Slot.hora_inicio s)
                 + 60 * ScheduleConfig.duracion_horas config
            /\ minutes_of (Slot.hora_fin s)
               <= minutes_of (ScheduleConfig.hora_fin config)
            /\ minutes_of (Slot.hora_fin s) < 24 * 60.
Proof.
  intros config venues.
  apply (C9_build_slots_within_window 100 101 config venues);
    unfold time_ok, minutes_of; simpl; lia.
Defined.

(** ** Constraint solver *)

Section LitSum.
Variable v : Valuation.

Lemma lit_sum_nonneg lits : 0 <= lit_sum v lits.
Proof. induction lits as [| l r IH]; simpl; [lia |]. destruct (bool_value v l); lia. Qed.

Lemma lit_sum_app l1 l2 : lit_sum v (l1 ++ l2) = lit_sum v l1 + lit_sum v l2.
Proof. induction l1 as [| l r IH]; simpl; [reflexivity |]. rewrite IH. lia. Qed.

Lemma lit_sum_elem lits l :
  l ∈ lits -> bool_value v l = true -> 1 <= lit_sum v lits.
Proof.
  induction lits as [| l0 r IH]; intros Hin Hl; [inversion Hin |].
  simpl. apply elem_of_cons in Hin as [<- | Hin].
  - rewrite Hl. pose proof (lit_sum_nonneg r). lia.
  - specialize (IH Hin Hl). destruct (bool_value v l0); lia.
Qed.

Lemma lit_sum_pos lits :
  1 <= lit_sum v lits -> exists l, l ∈ lits /\ bool_value v l = true.
Proof.
  induction lits as [| l0 r IH]; simpl; [lia |].
  destruct (bool_value v l0) eqn:E.
  - intros _. exists l0. split; [left | exact E].
  - intros H. destruct IH as (l & Hin & Hl); [lia |].
    exists l. split; [now right | exact Hl].
Qed.

(** The sum over a comprehension is at least the share of any one of its
    generators, and of any two generators at different positions. *)
Lemma lit_sum_bind_one {A} (g : A -> list BoolVar) xs i a :
  xs !! i = Some a -> lit_sum v (g a) <= lit_sum v (flat_map g xs).
Proof.
  revert i. induction xs as [| x r IH]; intros i Hi; [discriminate |].
  simpl. rewrite lit_sum_app. destruct i as [| i]; simpl in Hi.
  - injection Hi as ->. pose proof (lit_sum_nonneg (flat_map g r)). lia.
  - specialize (IH i Hi). pose proof (lit_sum_nonneg (g x)). lia.
Qed.

Lemma lit_sum_bind_two {A} (g : A -> list BoolVar) xs i j a b :
  i <> j -> xs !! i = Some a -> xs !! j = Some b ->
  lit_sum v (g a) + lit_sum v (g b) <= lit_sum v (flat_map g xs).
Proof.
  revert i j. induction xs as [| x r IH]; intros i j Hij Hi Hj; [discriminate |].
  simpl. rewrite lit_sum_app.
  destruct i as [| i], j as [| j]; simpl in Hi, Hj; try congruence.
  - injection Hi as ->. pose proof (lit_sum_bind_one g r j b Hj). lia.
  - injection Hj as ->. pose proof (lit_sum_bind_one g r i a Hi). lia.
  - assert (i <> j) by congruence.
    specialize (IH i j H Hi Hj). pose proof (lit_sum_nonneg (g x)). lia.
Qed.

Lemma lit_sum_map_two {A} (f : A -> BoolVar) xs i j a b :
  i <> j -> xs !! i = Some a -> xs !! j = Some b ->
  bool_value v (f a) = true -> bool_value v (f b) = true ->
  2 <= lit_sum v (f <$> xs).
Proof.
  intros Hij Hi Hj Ha Hb.
  pose proof (lit_sum_bind_two (fun x => [f x]) xs i j a b Hij Hi Hj) as H.
  simpl in H. rewrite Ha, Hb in H.
  assert (E : flat_map (fun x => [f x]) xs = f <$> xs).
  { clear. induction xs as [| x r IH]; simpl; [reflexivity | now rewrite IH]. }
  rewrite E in H. lia.
Qed.
End LitSum.

Lemma feasible_holds v model c :
  feasible v model = true -> c ∈ model -> holds v c = true.
Proof.
  unfold feasible. rewrite forallb_forall. intros H Hc.
  apply H. now apply list_elem_of_In.
Qed.

Lemma assigned_slot_Some v slots mid s :
  assigned_slot v slots mid = Some s ->
  s ∈ slots /\ bool_value v (Assign mid (Slot.index s)) = true.
Proof.
  unfold assigned_slot. intros H. apply find_some in H as [Hin Hv].
  split; [now apply list_elem_of_In | exact Hv].
Qed.

Lemma assigned_slot_None v slots mid s :
  assigned_slot v slots mid = None -> s ∈ slots ->
  bool_value v (Assign mid (Slot.index s)) = false.
Proof.
  unfold assigned_slot. intros H Hin.
  apply (find_none _ _ H). now apply list_elem_of_In.
Qed.

Lemma extract_fold_lookup v slots (matches : list MatchDefinition)
    (sol0 : gmap Z Slot) mid :
  fold_left
    (fun solution m =>
       match assigned_slot v slots (MatchDefinition.internal_id m) with
       | Some slot => <[MatchDefinition.internal_id m := slot]> solution
       | None => solution
       end)
    matches sol0 !! mid
  = if bool_decide (mid ∈ MatchDefinition.internal_id <$> matches)
    then match assigned_slot v slots mid with
         | Some s => Some s
         | None => sol0 !! mid
         end
    else sol0 !! mid.
Proof.
  revert sol0. induction matches as [| m r IH]; intros sol0.
  - reflexivity.
  - cbn [fold_left]. rewrite IH, fmap_cons.
    destruct (decide (mid = MatchDefinition.internal_id m)) as [-> | Hne].
    + rewrite (bool_decide_eq_true_2 (_ ∈ _ :: _)) by left.
      destruct (assigned_slot v slots (MatchDefinition.internal_id m)) eqn:E.
      * rewrite lookup_insert_eq. now destruct (bool_decide _).
      * now destruct (bool_decide _).
    + assert (Hiff : mid ∈ MatchDefinition.internal_id m
                        :: (MatchDefinition.internal_id <$> r)
                     <-> mid ∈ MatchDefinition.internal_id <$> r).
      { rewrite elem_of_cons. tauto. }
      rewrite (bool_decide_ext _ _ Hiff).
      destruct (bool_decide _); [destruct (assigned_slot v slots mid) |];
        destruct (assigned_slot v slots (MatchDefinition.internal_id m));
        try reflexivity; now rewrite lookup_insert_ne by congruence.
Qed.

Lemma extract_solution_lookup v (matches : list MatchDefinition) slots mid s :
  extract_solution v matches slots !! mid = Some s ->
  mid ∈ MatchDefinition.internal_id <$> matches
  /\ assigned_slot v slots mid = Some s.
Proof.
  unfold extract_solution. rewrite extract_fold_lookup.
  case_bool_decide; [| now rewrite lookup_empty].
  destruct (assigned_slot v slots mid); [| now rewrite lookup_empty].
  intros [= ->]. now split.
Qed.

Lemma extract_solution_of_match v (matches : list MatchDefinition) slots m :
  m ∈ matches ->
  extract_solution v matches slots !! MatchDefinition.internal_id m
  = assigned_slot v slots (MatchDefinition.internal_id m).
Proof.
  intros Hm. unfold extract_solution. rewrite extract_fold_lookup.
  rewrite bool_decide_eq_true_2 by (apply list_elem_of_fmap; now exists m).
  destruct (assigned_slot _ _ _); [reflexivity | apply lookup_empty].
Qed.

Lemma key_eqb_eq (a b : Z * Z) : key_eqb a b = true <-> a = b.
Proof.
  destruct a as [a1 a2], b as [b1 b2]. unfold key_eqb. simpl.
  rewrite andb_true_iff, !Z.eqb_eq. split; [intros [-> ->] | intros [= -> ->]]; auto.
Qed.

(** Every slot's index is filed under its (day, time) key. *)
Lemma slots_by_day_time_fold slots d0 :
  let step := fun d slot =>
       let key := (Slot.day_index slot, Slot.time_index slot) in
       dict_update key_eqb key (fun l => l ++ [Slot.index slot])
         (dict_setdefault key_eqb key [] d) in
  forall s,
    (s ∈ slots
     \/ exists g, dict_get key_eqb (Slot.day_index s, Slot.time_index s) d0 = Some g
                  /\ Slot.index s ∈ g) ->
    exists g,
      dict_get key_eqb (Slot.day_index s, Slot.time_index s)
        (fold_left step slots d0) = Some g
      /\ Slot.index s ∈ g.
Proof.
  intros step. revert d0. induction slots as [| s0 r IH]; intros d0 s H.
  - destruct H as [H | H]; [inversion H | exact H].
  - cbn [fold_left]. apply IH.
    destruct H as [[-> | H]%elem_of_cons | (g & Hg & Hin)].
    + right. unfold step.
      rewrite (dict_get_update key_eqb key_eqb_eq),
              (dict_get_setdefault key_eqb key_eqb_eq).
      rewrite (proj2 (key_eqb_eq _ _) eq_refl). simpl.
      eexists. split; [reflexivity |]. apply elem_of_app. right. left.
    + now left.
    + right. unfold step.
      rewrite (dict_get_update key_eqb key_eqb_eq),
              (dict_get_setdefault key_eqb key_eqb_eq).
      destruct (key_eqb _ _) eqn:E.
      * apply key_eqb_eq in E. rewrite <- E, Hg. simpl.
        eexists. split; [reflexivity |]. apply elem_of_app. now left.
      * now exists g.
Qed.

Lemma slots_by_day_time_group slots s :
  s ∈ slots ->
  exists g,
    dict_get key_eqb (Slot.day_index s, Slot.time_index s)
      (slots_by_day_time slots) = Some g
    /\ Slot.index s ∈ g.
Proof.
  intros H. unfold slots_by_day_time.
  apply (slots_by_day_time_fold slots [] s). now left.
Qed.

(** Two matches at different positions that both involve a team keep
    their order in [team_matches]. *)
Lemma filter_lookup_two {A} (P : A -> bool) l i j x y :
  (i < j)%nat -> l !! i = Some x -> l !! j = Some y ->
  P x = true -> P y = true ->
  exists a b, (a < b)%nat
    /\ List.filter P l !! a = Some x /\ List.filter P l !! b = Some y.
Proof.
  assert (Hone : forall l j y, l !! j = Some y -> P y = true ->
            exists b, List.filter P l !! b = Some y).
  { clear. induction l as [| z r IH]; intros j y Hj Hy; [discriminate |].
    simpl. destruct j as [| j]; simpl in Hj.
    - injection Hj as ->. rewrite Hy. now exists 0%nat.
    - destruct (IH j y Hj Hy) as (b & Hb).
      destruct (P z); [now exists (S b) | now exists b]. }
  revert i j. induction l as [| z r IH]; intros i j Hij Hi Hj Hx Hy;
    [discriminate |].
  simpl. destruct i as [| i], j as [| j]; simpl in Hi, Hj; try lia.
  - injection Hi as ->. rewrite Hx.
    destruct (Hone r j y Hj Hy) as (b & Hb).
    exists 0%nat, (S b). repeat split; [lia | exact Hb].
  - destruct (IH i j) as (a & b & Hab & Ha & Hb); try assumption; [lia |].
    destruct (P z).
    + exists (S a), (S b). repeat split; [lia | exact Ha | exact Hb].
    + now exists a, b.
Qed.

Lemma real_team_ids_plays matches team m :
  m ∈ matches -> plays team m = true -> team ∈ real_team_ids matches.
Proof.
  intros Hm Hp. unfold real_team_ids. apply elem_of_list_to_set.
  apply list_elem_of_In, in_flat_map. exists m.
  split; [now apply list_elem_of_In |].
  apply list_elem_of_In. unfold plays in Hp.
  apply orb_true_iff in Hp as [Hp | Hp]; apply bool_decide_eq_true in Hp;
    simpl; rewrite Hp.
  - left.
  - destruct (real_id (MatchDefinition.local m)); [right |]; left.
Qed.

(** What a valuation that satisfies the model guarantees. *)
Section Feasible.
Variables (v : Valuation) (matches : list MatchDefinition) (slots : list Slot)
  (config : ScheduleConfig) (max_day : Z).
Hypothesis Hfeas : feasible v (cp_model matches slots config max_day) = true.

Ltac from_model part :=
  apply (feasible_holds _ _ _ Hfeas); unfold cp_model;
  rewrite !elem_of_app; part.

Lemma sat_exactly_one m :
  m ∈ matches ->
  exists s, assigned_slot v slots (MatchDefinition.internal_id m) = Some s.
Proof.
  intros Hm.
  assert (H : holds v (AddExactlyOne
            ((fun s => Assign (MatchDefinition.internal_id m) (Slot.index s))
             <$> slots)) = true).
  { from_model ltac:(left). unfold exactly_one_constraints.
    apply list_elem_of_fmap. now exists m. }
  simpl in H. apply Z.eqb_eq in H.
  destruct (lit_sum_pos v _ (proj2 (Z.le_lteq _ _) (or_intror (eq_sym H))))
    as (l & Hl & Hv).
  apply list_elem_of_fmap in Hl as (s & -> & Hs).
  destruct (assigned_slot v slots (MatchDefinition.internal_id m)) eqn:E;
    [now eexists |].
  rewrite (assigned_slot_None _ _ _ _ E Hs) in Hv. discriminate.
Qed.

Lemma sat_capacity i j mi mj s :
  i <> j -> matches !! i = Some mi -> matches !! j = Some mj -> s ∈ slots ->
  bool_value v (Assign (MatchDefinition.internal_id mi) (Slot.index s)) = true ->
  bool_value v (Assign (MatchDefinition.internal_id mj) (Slot.index s)) = true ->
  False.
Proof.
  intros Hij Hi Hj Hs Hvi Hvj.
  assert (H : holds v (AddSumLe1
            ((fun m => Assign (MatchDefinition.internal_id m) (Slot.index s))
             <$> matches)) = true).
  { from_model ltac:(right; left). unfold slot_capacity_constraints.
    apply list_elem_of_fmap. now exists s. }
  simpl in H. apply Z.leb_le in H.
  pose proof (lit_sum_map_two v
    (fun m => Assign (MatchDefinition.internal_id m) (Slot.index s))
    matches i j mi mj Hij Hi Hj Hvi Hvj). lia.
Qed.

Lemma sat_match_day m s :
  m ∈ matches ->
  assigned_slot v slots (MatchDefinition.internal_id m) = Some s ->
  int_value v (MatchDay (MatchDefinition.internal_id m)) = Slot.day_index s.
Proof.
  intros Hm Hs. apply assigned_slot_Some in Hs as [Hin Hv].
  assert (H : holds v (AddEqOnlyIf (MatchDay (MatchDefinition.internal_id m))
            (Slot.day_index s)
            (Assign (MatchDefinition.internal_id m) (Slot.index s))) = true).
  { from_model ltac:(do 2 right; left). unfold match_day_constraints.
    apply list_elem_of_In, in_flat_map. exists m.
    split; [now apply list_elem_of_In |]. right.
    apply list_elem_of_In, list_elem_of_fmap. now exists s. }
  simpl in H. rewrite Hv in H. simpl in H. now apply Z.eqb_eq.
Qed.

Lemma sat_team_time team i j mi mj si sj :
  i <> j -> matches !! i = Some mi -> matches !! j = Some mj ->
  plays team mi = true -> plays team mj = true ->
  assigned_slot v slots (MatchDefinition.internal_id mi) = Some si ->
  assigned_slot v slots (MatchDefinition.internal_id mj) = Some sj ->
  (Slot.day_index si, Slot.time_index si)
    = (Slot.day_index sj, Slot.time_index sj) ->
  False.
Proof.
  intros Hij Hi Hj Hpi Hpj Hsi Hsj Hkey.
  apply assigned_slot_Some in Hsi as [Hini Hvi].
  apply assigned_slot_Some in Hsj as [Hinj Hvj].
  destruct (slots_by_day_time_group slots si Hini) as (g & Hg & Hgi).
  destruct (slots_by_day_time_group slots sj Hinj) as (g' & Hg' & Hgj).
  rewrite <- Hkey, Hg in Hg'. injection Hg' as <-.
  set (part := fun other : MatchDefinition =>
         if plays team other
         then Assign (MatchDefinition.internal_id other) <$> g else []).
  assert (H1 : 1 <= lit_sum v (part mi)).
  { unfold part. rewrite Hpi. eapply lit_sum_elem; [| exact Hvi].
    apply list_elem_of_fmap. now eexists. }
  assert (H2 : 1 <= lit_sum v (part mj)).
  { unfold part. rewrite Hpj. eapply lit_sum_elem; [| exact Hvj].
    apply list_elem_of_fmap. now eexists. }
  pose proof (lit_sum_bind_two v part matches i j mi mj Hij Hi Hj) as Hsum.
  change (flat_map part matches) with (relevant_vars matches team g) in Hsum.
  destruct (relevant_vars matches team g) as [| l0 r0] eqn:Erel;
    [simpl in Hsum; lia |].
  assert (H : holds v (AddSumLe1 (l0 :: r0)) = true).
  { from_model ltac:(do 3 right; left). unfold team_time_constraints.
    apply list_elem_of_In, in_flat_map. exists team. split.
    - apply list_elem_of_In, elem_of_elements.
      apply (real_team_ids_plays matches team mi);
        [eapply list_elem_of_lookup_2; exact Hi | exact Hpi].
    - apply in_flat_map.
      exists ((Slot.day_index si, Slot.time_index si), g). split.
      + apply list_elem_of_In.
        now apply (dict_get_Some_in key_eqb key_eqb_eq).
      + simpl. rewrite Erel. now left. }
  cbn [holds] in H. apply Z.leb_le in H. lia.
Qed.

Lemma sat_rest team i j mi mj si sj :
  i <> j -> matches !! i = Some mi -> matches !! j = Some mj ->
  plays team mi = true -> plays team mj = true ->
  assigned_slot v slots (MatchDefinition.internal_id mi) = Some si ->
  assigned_slot v slots (MatchDefinition.internal_id mj) = Some sj ->
  Z.max (ScheduleConfig.descanso_min_dias config) 0 + 1
    <= Z.abs (Slot.day_index si - Slot.day_index sj).
Proof.
  assert (Hlt : forall i j mi mj si sj,
    (i < j)%nat -> matches !! i = Some mi -> matches !! j = Some mj ->
    plays team mi = true -> plays team mj = true ->
    assigned_slot v slots (MatchDefinition.internal_id mi) = Some si ->
    assigned_slot v slots (MatchDefinition.internal_id mj) = Some sj ->
    Z.max (ScheduleConfig.descanso_min_dias config) 0 + 1
      <= Z.abs (Slot.day_index si - Slot.day_index sj)).
  { clear i j mi mj si sj. intros i j mi mj si sj Hij Hi Hj Hpi Hpj Hsi Hsj.
    destruct (filter_lookup_two (plays team) matches i j mi mj Hij Hi Hj Hpi Hpj)
      as (a & b & Hab & Ha & Hb).
    set (tm := List.filter (plays team) matches) in *.
    assert (Hlen : (b < length tm)%nat) by (eapply lookup_lt_Some; exact Hb).
    assert (Hin : forall c,
      c ∈ [ NewIntVar (RestDiff team a b) 0 max_day;
            AddAbsEquality (RestDiff team a b)
              (MatchDay (MatchDefinition.internal_id mi))
              (MatchDay (MatchDefinition.internal_id mj));
            AddGeConst (RestDiff team a b)
              (Z.max (ScheduleConfig.descanso_min_dias config) 0 + 1) ] ->
      holds v c = true).
    { intros c Hc. from_model ltac:(do 4 right; left). unfold rest_constraints.
      apply list_elem_of_In, in_flat_map. exists team. split.
      - apply list_elem_of_In, elem_of_elements.
        apply (real_team_ids_plays matches team mi);
          [eapply list_elem_of_lookup_2; exact Hi | exact Hpi].
      - fold tm. apply in_flat_map. exists a. split; [apply in_seq; lia |].
        apply in_flat_map. exists b. split; [apply in_seq; lia |].
        rewrite Ha, Hb. now apply list_elem_of_In. }
    pose proof (Hin _ ltac:(right; left)) as Habs.
    pose proof (Hin _ ltac:(right; right; left)) as Hge.
    simpl in Habs, Hge. apply Z.eqb_eq in Habs. apply Z.geb_le in Hge.
    rewrite (sat_match_day mi si), (sat_match_day mj sj) in Habs;
      try assumption; try (eapply list_elem_of_lookup_2; eassumption).
    lia. }
  intros Hij Hi Hj Hpi Hpj Hsi Hsj.
  destruct (Nat.lt_total i j) as [H | [H | H]]; [| contradiction |].
  - now apply (Hlt i j mi mj).
  - rewrite <- Z.abs_opp.
    replace (- (Slot.day_index si - Slot.day_index sj))
      with (Slot.day_index sj - Slot.day_index si) by lia.
    now apply (Hlt j i mj mi).
Qed.

Lemma sat_stage_order g p sg sp :
  g ∈ matches -> p ∈ matches ->
  is_group_definition g = true -> MatchDefinition.is_playoff p = true ->
  assigned_slot v slots (MatchDefinition.internal_id g) = Some sg ->
  assigned_slot v slots (MatchDefinition.internal_id p) = Some sp ->
  Slot.day_index sg < Slot.day_index sp.
Proof.
  intros Hg Hp Hgg Hpp Hsg Hsp.
  assert (Hgin : g ∈ List.filter is_group_definition matches).
  { apply list_elem_of_In, filter_In. split; [now apply list_elem_of_In | exact Hgg]. }
  assert (Hpin : p ∈ List.filter MatchDefinition.is_playoff matches).
  { apply list_elem_of_In, filter_In. split; [now apply list_elem_of_In | exact Hpp]. }
  assert (Hc : forall c,
    c ∈ ((fun m => AddGe LastGroupDay (MatchDay (MatchDefinition.internal_id m)))
          <$> List.filter is_group_definition matches)
        ++ ((fun m => AddGt (MatchDay (MatchDefinition.internal_id m)) LastGroupDay)
          <$> List.filter MatchDefinition.is_playoff matches) ->
    holds v c = true).
  { intros c Hc. from_model ltac:(do 5 right; left).
    unfold stage_order_constraints.
    destruct (List.filter is_group_definition matches); [inversion Hgin |].
    destruct (List.filter MatchDefinition.is_playoff matches); [inversion Hpin |].
    right. exact Hc. }
  assert (H1 : holds v (AddGe LastGroupDay
                 (MatchDay (MatchDefinition.internal_id g))) = true).
  { apply Hc, elem_of_app. left. apply list_elem_of_fmap. now exists g. }
  assert (H2 : holds v (AddGt (MatchDay (MatchDefinition.internal_id p))
                 LastGroupDay) = true).
  { apply Hc, elem_of_app. right. apply list_elem_of_fmap. now exists p. }
  simpl in H1, H2. apply Z.geb_le in H1. apply Z.gtb_lt in H2.
  rewrite (sat_match_day g sg Hg Hsg) in H1.
  rewrite (sat_match_day p sp Hp Hsp) in H2. lia.
Qed.
End Feasible.

Lemma checking_solver_sound candidate : solver_sound (checking_solver candidate).
Proof.
  intros model v. unfold checking_solver.
  destruct (feasible candidate model) eqn:E; [| discriminate].
  now intros [= <-].
Qed.

(** A returned solution comes from a valuation that satisfies the model. *)
Lemma solve_schedule_Ok Solve matches slots config solution :
  solver_sound Solve ->
  solve_schedule Solve matches slots config = Ok solution ->
  (matches = [] /\ solution = ∅)
  \/ exists v max_day,
       feasible v (cp_model matches slots config max_day) = true
       /\ solution = extract_solution v matches slots.
Proof.
  intros Hsound. unfold solve_schedule.
  destruct matches as [| m r]; [intros [= <-]; now left |].
  destruct slots as [| s0 sr]; [discriminate |].
  destruct (Solve _) as [v |] eqn:E; [| discriminate].
  intros [= <-]. right. exists v, (max_day_of s0 sr).
  split; [exact (Hsound _ _ E) | reflexivity].
Qed.

(** C1. In every solution that [solve_schedule] returns, for any match
    list, slot list and configuration: every match is placed on a slot of
    the list; two matches (two positions of the match list) are never
    placed on the same slot; and two matches of one real team are never
    placed on slots with the same (day_index, time_index), and their
    day indices are at least descanso_min_dias + 1 apart. *)
Theorem C1_solution_exclusive_and_rested
    (Solve : Solver) matches slots config solution :
  solver_sound Solve ->
  solve_schedule Solve matches slots config = Ok solution ->
  (forall m, m ∈ matches ->
     exists s, s ∈ slots /\ solution !! MatchDefinition.internal_id m = Some s)
  /\ forall i j mi mj si sj,
       i <> j ->
       matches !! i = Some mi -> matches !! j = Some mj ->
       solution !! MatchDefinition.internal_id mi = Some si ->
       solution !! MatchDefinition.internal_id mj = Some sj ->
       Slot.index si <> Slot.index sj
       /\ si <> sj
       /\ forall team,
            plays team mi = true -> plays team mj = true ->
            (Slot.day_index si, Slot.time_index si)
              <> (Slot.day_index sj, Slot.time_index sj)
            /\ ScheduleConfig.descanso_min_dias config + 1
               <= Z.abs (Slot.day_index si - Slot.day_index sj).
Proof.
  intros Hsound Hsol.
  destruct (solve_schedule_Ok _ _ _ _ _ Hsound Hsol)
    as [[-> ->] | (v & max_day & Hfeas & ->)].
  - split; [intros m Hm; inversion Hm | intros i j mi mj si sj _ Hi; discriminate].
  - split.
    + intros m Hm.
      destruct (sat_exactly_one v matches slots config max_day Hfeas m Hm)
        as (s & Hs).
      exists s. split; [now apply assigned_slot_Some in Hs |].
      now rewrite extract_solution_of_match.
    + intros i j mi mj si sj Hij Hi Hj Hsi Hsj.
      rewrite extract_solution_of_match in Hsi, Hsj
        by (eapply list_elem_of_lookup_2; eassumption).
      assert (Hidx : Slot.index si <> Slot.index sj).
      { intros Heq.
        destruct (assigned_slot_Some _ _ _ _ Hsi) as [Hin Hvi].
        destruct (assigned_slot_Some _ _ _ _ Hsj) as [_ Hvj].
        rewrite <- Heq in Hvj.
        exact (sat_capacity v matches slots config max_day Hfeas
                 i j mi mj si Hij Hi Hj Hin Hvi Hvj). }
      split; [exact Hidx |]. split; [congruence |].
      intros team Hpi Hpj. split.
      * exact (sat_team_time v matches slots config max_day Hfeas
                 team i j mi mj si sj Hij Hi Hj Hpi Hpj Hsi Hsj).
      * pose proof (sat_rest v matches slots config max_day Hfeas
                 team i j mi mj si sj Hij Hi Hj Hpi Hpj Hsi Hsj). lia.
Qed.

Lemma C1_solution_exclusive_and_rested_witness :
  let solution :=
    extract_solution example_valuation example_matches example_slots in
  (forall m, m ∈ example_matches ->
     exists s, s ∈ example_slots
               /\ solution !! MatchDefinition.internal_id m = Some s)
  /\ forall i j mi mj si sj,
       i <> j ->
       example_matches !! i = Some mi -> example_matches !! j = Some mj ->
       solution !! MatchDefinition.internal_id mi = Some si ->
       solution !! MatchDefinition.internal_id mj = Some sj ->
       Slot.index si <> Slot.index sj
       /\ si <> sj
       /\ forall team,
            plays team mi = true -> plays team mj = true ->
            (Slot.day_index si, Slot.time_index si)
              <> (Slot.day_index sj, Slot.time_index sj)
            /\ ScheduleConfig.descanso_min_dias example_config + 1
               <= Z.abs (Slot.day_index si - Slot.day_index sj).
Proof.
  intros solution.
  apply (C1_solution_exclusive_and_rested (checking_solver example_valuation)
           example_matches example_slots example_config solution).
  - apply checking_solver_sound.
  - vm_compute. reflexivity.
Defined.

(** C2. When the match list holds both group-phase matches and playoff
    matches, every returned solution places every playoff match on a day
    index strictly greater than that of every group match. *)
Theorem C2_playoffs_after_groups
    (Solve : Solver) matches slots config solution :
  solver_sound Solve ->
  solve_schedule Solve matches slots config = Ok solution ->
  forall g p sg sp,
    g ∈ matches -> p ∈ matches ->
    MatchDefinition.fase g = "group"%string ->
    MatchDefinition.is_playoff p = true ->
    solution !! MatchDefinition.internal_id g = Some sg ->
    solution !! MatchDefinition.internal_id p = Some sp ->
    Slot.day_index sg < Slot.day_index sp.
Proof.
  intros Hsound Hsol g p sg sp Hg Hp Hfase Hplay Hsg Hsp.
  destruct (solve_schedule_Ok _ _ _ _ _ Hsound Hsol)
    as [[-> ->] | (v & max_day & Hfeas & ->)]; [inversion Hg |].
  rewrite extract_solution_of_match in Hsg, Hsp by assumption.
  apply (sat_stage_order v matches slots config max_day Hfeas g p sg sp);
    try assumption.
  unfold is_group_definition. rewrite Hfase. reflexivity.
Qed.

Lemma C2_playoffs_after_groups_witness :
  let solution :=
    extract_solution example_valuation example_matches example_slots in
  exists g p sg sp,
    example_matches !! 0%nat = Some g
    /\ example_matches !! 12%nat = Some p
    /\ MatchDefinition.fase g = "group"%string
    /\ MatchDefinition.is_playoff p = true
    /\ solution !! MatchDefinition.internal_id g = Some sg
    /\ solution !! MatchDefinition.internal_id p = Some sp
    /\ Slot.day_index sg < Slot.day_index sp.
Proof.
  intros solution.
  destruct (example_matches !! 0%nat) as [g |] eqn:Eg;
    [| vm_compute in Eg; discriminate].
  destruct (example_matches !! 12%nat) as [p |] eqn:Ep;
    [| vm_compute in Ep; discriminate].
  assert (Hg : MatchDefinition.fase g = "group"%string
               /\ MatchDefinition.internal_id g = 0).
  { vm_compute in Eg. injection Eg as <-. split; reflexivity. }
  assert (Hp : MatchDefinition.is_playoff p = true
               /\ MatchDefinition.internal_id p = 12).
  { vm_compute in Ep. injection Ep as <-. split; reflexivity. }
  destruct Hg as [Hfase Hgid], Hp as [Hplay Hpid].
  destruct (solution !! MatchDefinition.internal_id g) as [sg |] eqn:Esg;
    [| rewrite Hgid in Esg; vm_compute in Esg; discriminate].
  destruct (solution !! MatchDefinition.internal_id p) as [sp |] eqn:Esp;
    [| rewrite Hpid in Esp; vm_compute in Esp; discriminate].
  exists g, p, sg, sp. repeat (split; [reflexivity || assumption |]).
  apply (C2_playoffs_after_groups (checking_solver example_valuation)
           example_matches example_slots example_config solution) with g p;
    try assumption.
  - apply checking_solver_sound.
  - vm_compute. reflexivity.
  - eapply list_elem_of_lookup_2. exact Eg.
  - eapply list_elem_of_lookup_2. exact Ep.
Defined.

(** ** Full-schedule operation *)

Lemma length_insert_sorted {A} (lt : A -> A -> bool) x l :
  length (insert_sorted lt x l) = S (length l).
Proof.
  induction l as [| y r IH]; simpl; [reflexivity |].
  destruct (lt x y); simpl; [reflexivity | now rewrite IH].
Qed.

Lemma filter_insert_sorted {A} (lt : A -> A -> bool) (P : A -> bool) x l :
  length (List.filter P (insert_sorted lt x l))
  = length (List.filter P (x :: l)).
Proof.
  induction l as [| y r IH]; [reflexivity |].
  cbn [insert_sorted]. destruct (lt x y); [reflexivity |].
  cbn [List.filter] in *. destruct (P y), (P x); simpl in *; lia.
Qed.

Lemma filter_stable_sort {A} (lt : A -> A -> bool) (P : A -> bool) l :
  length (List.filter P (stable_sort lt l)) = length (List.filter P l).
Proof.
  unfold stable_sort.
  assert (H : forall acc,
    length (List.filter P
      (fold_left (fun acc x => insert_sorted lt x acc) l acc))
    = (length (List.filter P l) + length (List.filter P acc))%nat).
  { induction l as [| x r IH]; intros acc; [reflexivity |].
    cbn [fold_left]. rewrite IH, filter_insert_sorted.
    cbn [List.filter]. destruct (P x); simpl; lia. }
  rewrite H. simpl. lia.
Qed.

Lemma length_stable_sort {A} (lt : A -> A -> bool) l :
  length (stable_sort lt l) = length l.
Proof.
  pose proof (filter_stable_sort lt (fun _ => true) l) as H.
  assert (E : forall l : list A, List.filter (fun _ => true) l = l).
  { clear. induction l; simpl; congruence. }
  now rewrite !E in H.
Qed.

Lemma add_round_group serie_name acc round :
  Forall group_shaped acc.1 ->
  Forall group_shaped (add_round serie_name acc round).1.
Proof.
  destruct round as [round_index pairings]. unfold add_round.
  revert acc. induction pairings as [| [l v] r IH]; intros [ms k] H;
    [exact H |].
  cbn [fold_left]. apply IH. simpl. apply Forall_app. split; [exact H |].
  apply Forall_singleton. now split.
Qed.

Lemma add_serie_group acc assignment :
  Forall group_shaped acc.1 -> Forall group_shaped (add_serie acc assignment).1.
Proof.
  destruct assignment as [serie_name serie_teams]. unfold add_serie.
  generalize (enumerate 1 (_round_robin_pairs serie_teams)).
  intros rounds. revert acc.
  induction rounds as [| rd r IH]; intros acc H; [exact H |].
  cbn [fold_left]. apply IH. now apply add_round_group.
Qed.

Lemma group_stage_group assignments acc :
  Forall group_shaped acc.1 ->
  Forall group_shaped (fold_left add_serie assignments acc).1.
Proof.
  revert acc. induction assignments as [| a r IH]; intros acc H; [exact H |].
  cbn [fold_left]. apply IH. now apply add_serie_group.
Qed.

Lemma build_matches_shape structure assignments :
  playoff_teams structure = 4 \/ playoff_teams structure = 8 ->
  exists groups bracket,
    build_matches structure assignments = groups ++ bracket
    /\ Forall group_shaped groups
    /\ Forall bracket_shaped bracket
    /\ Z.of_nat (length bracket) = playoff_teams structure.
Proof.
  intros Hp. unfold build_matches.
  pose proof (group_stage_group assignments ([], 0) (Forall_nil_2 _)) as HG.
  destruct (fold_left add_serie assignments ([], 0)) as [groups k].
  simpl in HG.
  destruct Hp as [-> | ->]; cbn -[_seed_labels seed_at];
    rewrite <- ?app_assoc; eexists groups, _;
    (split; [reflexivity |]); (split; [exact HG |]);
    (split; [| reflexivity]);
    repeat (apply Forall_cons; split;
            [split; [discriminate | split; reflexivity] |]);
    apply Forall_nil_2.
Qed.

(** Every match of the list is placed on a slot of the list. *)
Lemma solve_schedule_places Solve matches slots config solution :
  solver_sound Solve ->
  solve_schedule Solve matches slots config = Ok solution ->
  forall m, m ∈ matches ->
    exists s, s ∈ slots /\ solution !! MatchDefinition.internal_id m = Some s.
Proof.
  intros Hsound Hsol.
  destruct (solve_schedule_Ok _ _ _ _ _ Hsound Hsol)
    as [[-> ->] | (v & max_day & Hfeas & ->)]; intros m Hm; [inversion Hm |].
  destruct (sat_exactly_one v matches slots config max_day Hfeas m Hm)
    as (s & Hs).
  exists s. split; [now apply assigned_slot_Some in Hs |].
  now rewrite extract_solution_of_match.
Qed.

Lemma full_schedule_dto_fase m slot :
  PartidoDTO.fase (full_schedule_dto m slot) = MatchDefinition.fase m.
Proof. reflexivity. Qed.

Lemma full_schedule_dto_unresolved m slot :
  MatchDefinition.local m = None -> MatchDefinition.visitante m = None ->
  unresolved_dto (full_schedule_dto m slot).
Proof.
  intros Hl Hv. unfold unresolved_dto, full_schedule_dto. simpl.
  rewrite Hl, Hv. simpl. repeat split;
    match goal with
    | |- is_Some (if truthy ?p then _ else _) =>
        destruct p as [s |]; simpl; [destruct (String.eqb s ""); simpl |];
        eauto
    end.
Qed.

(** When every match has a slot, the DTO list mirrors the match list. *)
Lemma scheduled_dtos_mirror (dto : MatchDefinition -> Slot -> PartidoDTO)
    (matches : list MatchDefinition) (solution : gmap Z Slot) :
  (forall m slot, PartidoDTO.fase (dto m slot) = MatchDefinition.fase m) ->
  (forall m, m ∈ matches ->
     exists s, solution !! MatchDefinition.internal_id m = Some s) ->
  length (scheduled_dtos dto matches solution) = length matches
  /\ length (List.filter is_playoff_dto (scheduled_dtos dto matches solution))
     = length (List.filter
         (fun m => negb (String.eqb (MatchDefinition.fase m) "group")) matches)
  /\ forall d, d ∈ scheduled_dtos dto matches solution ->
       exists m slot, m ∈ matches /\ d = dto m slot.
Proof.
  intros Hfase Hall. unfold scheduled_dtos.
  rewrite length_stable_sort, filter_stable_sort.
  split; [| split].
  - induction matches as [| m r IH]; [reflexivity |].
    cbn [omap list_omap]. destruct (Hall m) as (s & ->); [left |].
    cbn [fmap option_fmap option_map length].
    rewrite IH; [reflexivity |]. intros m' Hm'. apply Hall. now right.
  - induction matches as [| m r IH]; [reflexivity |].
    cbn [omap list_omap]. destruct (Hall m) as (s & ->); [left |].
    cbn [fmap option_fmap option_map List.filter].
    unfold is_playoff_dto at 1. rewrite Hfase.
    destruct (negb _); cbn [length]; rewrite IH; try reflexivity;
      intros m' Hm'; apply Hall; now right.
  - intros d Hd. apply elem_of_stable_sort in Hd.
    apply list_elem_of_omap in Hd as (m & Hm & Hdm).
    destruct (solution !! MatchDefinition.internal_id m) as [s |];
      [| discriminate].
    injection Hdm as <-. now exists m, s.
Qed.

Lemma filter_app_length {A} (P : A -> bool) l1 l2 :
  length (List.filter P (l1 ++ l2))
  = (length (List.filter P l1) + length (List.filter P l2))%nat.
Proof. now rewrite List.filter_app, length_app. Qed.

Lemma filter_none_length {A} (P : A -> bool) l :
  Forall (fun x => P x = false) l -> length (List.filter P l) = 0%nat.
Proof.
  induction 1 as [| x r Hx _ IH]; [reflexivity |]. simpl. now rewrite Hx.
Qed.

Lemma filter_all_length {A} (P : A -> bool) l :
  Forall (fun x => P x = true) l -> length (List.filter P l) = length l.
Proof.
  induction 1 as [| x r Hx _ IH]; [reflexivity |]. simpl. rewrite Hx. simpl.
  now rewrite IH.
Qed.

Lemma map_teams_length registrations teams :
  _map_teams registrations = Ok teams -> length teams = length registrations.
Proof.
  unfold _map_teams. destruct (_ <? _)%nat; [discriminate |].
  intros [= <-]. now rewrite length_stable_sort, length_fmap.
Qed.

(** C5 (amended). [build_event_schedule] builds every match of
    [build_matches] at once, the playoff bracket included: for an event
    whose team count implies a playoff (8 or more teams, so playoff_teams
    is 4 or 8) every successful run returns one scheduled match per match
    definition, among them exactly playoff_teams matches of playoff
    phases, and each of these has both participants unresolved (no team
    id, a placeholder label). *)
Theorem C5_full_schedule_with_bracket
    (Solve : Solver) event config dtos :
  solver_sound Solve ->
  8 <= Z.of_nat (length (eligible event)) ->
  build_event_schedule Solve event config = Ok dtos ->
  exists structure teams assignments,
    determine_tournament_structure (Z.of_nat (length (eligible event)))
      = Ok structure
    /\ (playoff_teams structure = 4 \/ playoff_teams structure = 8)
    /\ _map_teams (eligible event) = Ok teams
    /\ _build_series_assignments teams (series structure) = Ok assignments
    /\ length dtos = length (build_matches structure assignments)
    /\ Z.of_nat (length (List.filter is_playoff_dto dtos))
       = playoff_teams structure
    /\ (forall d, d ∈ dtos -> is_playoff_dto d = true -> unresolved_dto d).
Proof.
  intros Hsound Hn. unfold build_event_schedule.
  destruct (_ensure_event_ready event) as [[inicio fin] | e]; [| discriminate].
  cbn [mbind result_bind].
  destruct (_map_teams (eligible event)) as [teams | e] eqn:Eteams;
    [| discriminate].
  cbn [mbind result_bind].
  rewrite (map_teams_length _ _ Eteams).
  destruct (determine_tournament_structure _) as [structure | e] eqn:Est;
    [| discriminate].
  cbn [mbind result_bind].
  assert (Hp : playoff_teams structure = 4 \/ playoff_teams structure = 8).
  { revert Est. unfold determine_tournament_structure.
    repeat match goal with
    | |- context [?a <=? ?b] => destruct (Z.leb_spec a b); try lia
    end; simpl; intros [= <-]; simpl; auto. }
  destruct (_build_series_assignments teams (series structure))
    as [assignments | e] eqn:Eassign; [| discriminate].
  cbn [mbind result_bind].
  destruct (_map_venues (escenarios event)) as [venues | e]; [| discriminate].
  cbn [mbind result_bind].
  destruct (build_slots _ _ config venues) as [slots | e]; [| discriminate].
  cbn [mbind result_bind].
  destruct (_ <? _)%nat; [discriminate |].
  destruct (solve_schedule Solve _ slots config) as [solution | e] eqn:Esol;
    [| discriminate].
  cbn [mbind result_bind].
  destruct (build_matches_shape structure assignments Hp)
    as (groups & bracket & Ematches & HG & HB & Hlen).
  pose proof (solve_schedule_places Solve _ _ _ _ Hsound Esol) as Hall.
  rewrite Ematches in *.
  assert (Hne : solution <> ∅).
  { destruct bracket as [| b0 br]; [simpl in Hlen; lia |].
    destruct (Hall b0) as (s & _ & Hs); [apply elem_of_app; right; left |].
    intros ->. now rewrite lookup_empty in Hs. }
  rewrite bool_decide_eq_false_2 by exact Hne.
  intros [= <-]. exists structure, teams, assignments.
  split; [reflexivity |]. split; [exact Hp |].
  split; [reflexivity |]. split; [exact Eassign |].
  destruct (scheduled_dtos_mirror full_schedule_dto (groups ++ bracket) solution
              full_schedule_dto_fase) as (Hsame & Hcount & Hfrom).
  { intros m Hm. destruct (Hall m Hm) as (s & _ & Hs). now exists s. }
  split; [rewrite Ematches; exact Hsame |]. split.
  - rewrite Hcount, filter_app_length.
    rewrite filter_none_length, filter_all_length; [exact Hlen | |].
    + eapply Forall_impl; [exact HB |]. intros m (Hf & _ & _).
      destruct (String.eqb_spec (MatchDefinition.fase m) "group");
        [contradiction | reflexivity].
    + eapply Forall_impl; [exact HG |]. intros m (Hf & _).
      now rewrite Hf.
  - intros d Hd Hplay. destruct (Hfrom d Hd) as (m & slot & Hm & ->).
    unfold is_playoff_dto in Hplay. rewrite full_schedule_dto_fase in Hplay.
    apply elem_of_app in Hm as [Hm | Hm].
    + rewrite Forall_forall in HG. destruct (HG m Hm) as [Hf _].
      rewrite Hf in Hplay. discriminate.
    + rewrite Forall_forall in HB. destruct (HB m Hm) as (_ & Hl & Hv).
      now apply full_schedule_dto_unresolved.
Qed.

Lemma C5_full_schedule_with_bracket_witness :
  exists dtos,
    build_event_schedule (checking_solver example_valuation)
      example_event example_config = Ok dtos
    /\ length dtos = 16%nat
    /\ Z.of_nat (length (List.filter is_playoff_dto dtos)) = 4
    /\ (forall d, d ∈ dtos -> is_playoff_dto d = true -> unresolved_dto d).
Proof.
  destruct (build_event_schedule (checking_solver example_valuation)
              example_event example_config) as [dtos | e] eqn:E;
    [| vm_compute in E; discriminate].
  exists dtos. split; [reflexivity |].
  destruct (C5_full_schedule_with_bracket (checking_solver example_valuation)
              example_event example_config dtos)
    as (st & teams & assignments & Hst & _ & Ht & Ha & Hlen & Hcount & Hun).
  - apply checking_solver_sound.
  - vm_compute. discriminate.
  - exact E.
  - vm_compute in Hst. injection Hst as <-.
    vm_compute in Ht. injection Ht as <-.
    vm_compute in Ha. injection Ha as <-.
    split; [rewrite Hlen; vm_compute; reflexivity |].
    split; [exact Hcount | exact Hun].
Defined.

(** C5, as stated, fails: for the eight-team event (playoff_teams = 4) the
    full-schedule operation succeeds and its output holds the four
    bracket matches SF1, SF2, FINAL and THIRD. *)
Lemma C5_counterexample :
  determine_tournament_structure (Z.of_nat (length (eligible example_event)))
    = Ok (mkStructure 2 4)
  /\ exists dtos,
       build_event_schedule (checking_solver example_valuation)
         example_event example_config = Ok dtos
       /\ PartidoDTO.llave <$> List.filter is_playoff_dto dtos
          = [Some "SF1"; Some "SF2"; Some "FINAL"; Some "THIRD"]%string.
Proof.
  split; [reflexivity |].
  eexists. split; [vm_compute; reflexivity |].
  vm_compute. reflexivity.
Qed.

(** ** Stage orchestrator *)

Lemma stage_dto_fase m slot :
  PartidoDTO.fase (stage_dto m slot) = MatchDefinition.fase m.
Proof. reflexivity. Qed.

Lemma stage_dto_unresolved m slot :
  MatchDefinition.local m = None -> MatchDefinition.visitante m = None ->
  truthy (MatchDefinition.placeholder_local m) = true ->
  truthy (MatchDefinition.placeholder_visitante m) = true ->
  unresolved_dto (stage_dto m slot).
Proof.
  intros Hl Hv Hpl Hpv. unfold unresolved_dto, stage_dto. simpl.
  rewrite Hl, Hv, Hpl, Hpv. simpl.
  destruct (MatchDefinition.placeholder_local m),
           (MatchDefinition.placeholder_visitante m); try discriminate.
  repeat split; eauto.
Qed.

Lemma semifinals_unresolved_for_any_solver Solve stage dtos :
  solver_sound Solve ->
  generate_event_schedule Solve "campeonato" example_event example_config
    example_finalized_fixture = Ok (stage, dtos) ->
  stage = "semifinal"%string
  /\ length dtos = 2%nat
  /\ forall d, d ∈ dtos -> unresolved_dto d.
Proof.
  assert (Hprep : prepare_next_stage (eligible example_event)
                    example_finalized_fixture
                  = Ok ("semifinal"%string, unresolved_semifinals))
    by (vm_compute; reflexivity).
  intros Hsound. unfold generate_event_schedule.
  rewrite Hprep. cbn [negb String.eqb mbind result_bind fst snd].
  change (String.eqb "campeonato" "campeonato") with true. cbn [negb].
  set (occupied_slots := omap _ example_finalized_fixture).
  set (last_date := fold_left _ example_finalized_fixture None).
  assert (Elast : last_date = Some 102) by (vm_compute; reflexivity).
  rewrite Elast. cbn [fecha_campeonato_inicio example_event mbind result_bind].
  unfold schedule_stage_matches.
  destruct (_ensure_event_ready example_event) as [[inicio fin] | e];
    [| discriminate].
  cbn [mbind result_bind].
  destruct (_map_venues _) as [venues | e]; [| discriminate].
  cbn [mbind result_bind].
  destruct (build_slots _ _ _ _) as [slots | e]; [| discriminate].
  cbn [mbind result_bind].
  match goal with
  | |- context [solve_schedule Solve ?ms ?sl ?cf] =>
      destruct (solve_schedule Solve ms sl cf) as [solution | e] eqn:Esol;
        [| discriminate]
  end.
  cbn [mbind result_bind]. intros [= <- <-].
  split; [reflexivity |].
  pose proof (solve_schedule_places Solve _ _ _ _ Hsound Esol) as Hall.
  destruct (scheduled_dtos_mirror stage_dto unresolved_semifinals solution
              stage_dto_fase) as (Hsame & _ & Hfrom).
  { intros m Hm. destruct (Hall m Hm) as (s & _ & Hs). now exists s. }
  split; [exact Hsame |].
  intros d Hd. destruct (Hfrom d Hd) as (m & slot & Hm & ->).
  unfold unresolved_semifinals in Hm.
  repeat (apply elem_of_cons in Hm as [-> | Hm]);
    [| | inversion Hm]; now apply stage_dto_unresolved.
Qed.

(** C6 (failing input). Eight teams, two series, every group match
    finalized: the next stage is the semifinals and two matches are
    scheduled, but both keep their seed placeholders and have no team:
    the seed "1° Serie A" is looked up in the standings under "A" while
    the standings are filed under "Serie A".  With a group match
    unfinished the operation raises the phase-not-ready error instead of
    returning an empty list. *)
Theorem C6_semifinal_seeds_unresolved :
  _resolve_next_stage (mkStructure 2 4) example_finalized_fixture
    = Some "semifinal"%string
  /\ (fst <$> compute_group_standings example_finalized_fixture ∅)
     = ["Serie A"; "Serie B"]%string
  /\ (forall standings_rows,
        resolve_seed_team "1° Serie A"
          [("Serie A"%string, standings_rows)] [] ∅ = (None, ∅))
  /\ prepare_next_stage (eligible example_event) example_finalized_fixture
     = Ok ("semifinal"%string, unresolved_semifinals)
  /\ (exists dtos,
        generate_event_schedule example_semifinal_solver "campeonato"
          example_event example_config example_finalized_fixture
        = Ok ("semifinal"%string, dtos)
        /\ PartidoDTO.llave <$> dtos = [Some "SF1"; Some "SF2"]%string
        /\ PartidoDTO.equipo_local_id <$> dtos = [None; None]
        /\ PartidoDTO.equipo_visitante_id <$> dtos = [None; None]
        /\ PartidoDTO.placeholder_local <$> dtos
           = [Some "1° Serie A"; Some "1° Serie B"]%string
        /\ PartidoDTO.placeholder_visitante <$> dtos
           = [Some "2° Serie B"; Some "2° Serie A"]%string)
  /\ (forall Solve,
        generate_event_schedule Solve "campeonato" example_event example_config
          example_unfinished_fixture = Raise phase_not_ready_error).
Proof.
  split; [vm_compute; reflexivity |].
  split; [vm_compute; reflexivity |].
  split; [intros rows; reflexivity |].
  split; [vm_compute; reflexivity |].
  split.
  - eexists. split; [vm_compute; reflexivity |].
    repeat split; vm_compute; reflexivity.
  - intros Solve. unfold generate_event_schedule.
    assert (E : prepare_next_stage (eligible example_event)
                  example_unfinished_fixture = Raise phase_not_ready_error)
      by (vm_compute; reflexivity).
    rewrite E. reflexivity.
Qed.

(** ** Round-robin generator *)

Section CircleArithmetic.
Local Open Scope nat_scope.

Ltac src_cases :=
  unfold src, rot_src in *;
  repeat match goal with
  | |- context [?a =? ?b] => destruct (Nat.eqb_spec a b)
  | |- context [?a <? ?b] => destruct (Nat.ltb_spec a b)
  | H : context [?a =? ?b] |- _ => destruct (Nat.eqb_spec a b)
  | H : context [?a <? ?b] |- _ => destruct (Nat.ltb_spec a b)
  end; try lia.

Lemma src_bound n r p : 2 <= n -> r < n - 1 -> p < n -> src n r p < n.
Proof. intros. src_cases. Qed.

Lemma src_zero n p : src n 0 p = p.
Proof. src_cases. Qed.

Lemma src_step n r p :
  2 <= n -> S r < n - 1 -> p < n ->
  src n (S r) p = src n r (rot_src n p).
Proof. intros. src_cases. Qed.

Lemma rot_src_bound n p : 2 <= n -> p < n -> rot_src n p < n.
Proof. intros. src_cases. Qed.

(** Two matches of the schedule with the same two teams are the same
    match. *)
Lemma src_pair_inj h r i r' i' :
  1 <= h -> r < 2 * h - 1 -> r' < 2 * h - 1 -> i < h -> i' < h ->
  (src (2 * h) r i = src (2 * h) r' i'
   /\ src (2 * h) r (2 * h - 1 - i) = src (2 * h) r' (2 * h - 1 - i'))
  \/ (src (2 * h) r i = src (2 * h) r' (2 * h - 1 - i')
      /\ src (2 * h) r (2 * h - 1 - i) = src (2 * h) r' i') ->
  r = r' /\ i = i'.
Proof. intros Hh Hr Hr' Hi Hi' H. src_cases. Qed.

(** Any two positions of the original list meet in some round. *)
Lemma src_pair_exists h x y :
  1 <= h -> x < y -> y < 2 * h ->
  exists r i, r < 2 * h - 1 /\ i < h
    /\ ((src (2 * h) r i = x /\ src (2 * h) r (2 * h - 1 - i) = y)
        \/ (src (2 * h) r i = y /\ src (2 * h) r (2 * h - 1 - i) = x)).
Proof.
  intros Hh Hxy Hy.
  destruct (Nat.eq_dec x 0) as [-> | Hx].
  { exists (2 * h - 1 - y), 0. split; [lia |]. split; [lia |]. left. src_cases. }
  destruct (Nat.Even_or_Odd (x + y)) as [[k Hk] | [k Hk]].
  - exists (2 * h - 1 - k), (k - x). split; [lia |]. split; [lia |].
    right. src_cases.
  - destruct (le_lt_dec (x + y) (2 * h - 1)).
    + exists (h - 1 - k), (x + (h - 1 - k)). split; [lia |]. split; [lia |].
      left. src_cases.
    + exists (3 * h - 2 - k), (h + x - 1 - k). split; [lia |]. split; [lia |].
      left. src_cases.
Qed.
End CircleArithmetic.

Section Rotation.
Local Open Scope nat_scope.

Lemma rotate_length (l : list Team) : 2 <= length l -> length (rotate l) = length l.
Proof.
  intros Hn. unfold rotate.
  destruct (l !! 0) as [first |] eqn:E0;
    [| apply lookup_ge_None in E0; lia].
  destruct (last l) as [final |] eqn:El;
    [| apply last_None in El; subst; simpl in Hn; lia].
  simpl. rewrite length_drop, length_take. lia.
Qed.

Lemma rotate_lookup (l : list Team) p :
  2 <= length l -> p < length l ->
  rotate l !! p = l !! rot_src (length l) p.
Proof.
  intros Hn Hp. unfold rotate, rot_src.
  destruct (l !! 0) as [first |] eqn:E0;
    [| apply lookup_ge_None in E0; lia].
  destruct (last l) as [final |] eqn:El;
    [| apply last_None in El; subst; simpl in Hn; lia].
  rewrite last_lookup in El.
  destruct p as [| [| p]]; simpl.
  - now rewrite E0.
  - rewrite <- El. f_equal. lia.
  - rewrite lookup_drop, lookup_take_lt by lia. f_equal. 
Qed.

Lemma iter_rotate_length (l : list Team) r :
  2 <= length l -> length (Nat.iter r rotate l) = length l.
Proof.
  intros Hn. induction r as [| r IH]; [reflexivity |].
  simpl. rewrite rotate_length; lia.
Qed.

Lemma iter_rotate_lookup (l : list Team) r p :
  2 <= length l -> r < length l - 1 -> p < length l ->
  Nat.iter r rotate l !! p = l !! src (length l) r p.
Proof.
  intros Hn. revert p. induction r as [| r IH]; intros p Hr Hp.
  - now rewrite src_zero.
  - simpl. rewrite rotate_lookup by (rewrite iter_rotate_length; lia).
    rewrite iter_rotate_length by lia.
    rewrite IH by (try apply rot_src_bound; lia).
    now rewrite src_step by lia.
Qed.

Lemma round_loop_rounds k n half (ordered : list Team) :
  round_loop k n half ordered
  = (fun r => round_pairs n half (Nat.iter r rotate ordered)) <$> seq 0 k.
Proof.
  revert ordered. induction k as [| k IH]; intros ordered; [reflexivity |].
  simpl. f_equal. rewrite IH, <- fmap_S_seq, <- list_fmap_compose.
  apply list_fmap_ext. intros _ r _. simpl.
  now rewrite <- Nat.iter_succ_r.
Qed.

Lemma round_loop_length k n half (ordered : list Team) :
  length (round_loop k n half ordered) = k.
Proof. now rewrite round_loop_rounds, length_fmap, length_seq. Qed.


End Rotation.

Section Counting.
Local Open Scope nat_scope.
Context {X Y : Type}.



Lemma count_concat_unique (Q : Y -> bool) (G : X -> list Y) (xs : list X) x0 :
  NoDup xs -> x0 ∈ xs ->
  length (List.filter Q (G x0)) = 1 ->
  (forall x, x ∈ xs -> x <> x0 -> length (List.filter Q (G x)) = 0) ->
  length (List.filter Q (concat (G <$> xs))) = 1.
Proof.
  assert (Hzero : forall ys, (forall x, x ∈ ys -> length (List.filter Q (G x)) = 0) ->
            length (List.filter Q (concat (G <$> ys))) = 0).
  { induction ys as [| y r IH]; intros H; [reflexivity |].
    rewrite fmap_cons. cbn [concat].
    rewrite List.filter_app, length_app, (H y) by left.
    apply IH. intros z Hz. apply H. now right. }
  induction xs as [| x r IH]; intros Hnd Hin H1 H0; [inversion Hin |].
  apply NoDup_cons in Hnd as [Hx Hnd].
  rewrite fmap_cons. cbn [concat].
  rewrite List.filter_app, length_app.
  apply elem_of_cons in Hin as [<- | Hin].
  - rewrite H1, Hzero; [reflexivity |].
    intros y Hy. apply H0; [now right | congruence].
  - rewrite (H0 x) by (try left; congruence).
    rewrite IH; try assumption; [reflexivity |].
    intros y Hy. apply H0. now right.
Qed.
End Counting.

Section RoundRobin.
Local Open Scope nat_scope.
Variables (teams : list Team) (h : nat).
Hypothesis Hdistinct : NoDup teams.
Hypothesis Hlen : length teams = 2 * h.
Hypothesis Hh : 1 <= h.
Hypothesis Hnames : Forall (fun t => nombre t <> "BYE"%string) teams.

Lemma even_unpadded :
  _round_robin_pairs teams = round_loop (2 * h - 1) (2 * h) h teams.
Proof.
  unfold _round_robin_pairs. rewrite Hlen.
  replace (2 * h mod 2) with 0 by (rewrite Nat.mul_comm, Nat.Div0.mod_mul; reflexivity).
  cbn [Nat.eqb].
  replace (2 * h / 2) with h by (rewrite Nat.mul_comm, Nat.div_mul; lia).
  reflexivity.
Qed.


Lemma meets_index ia ib u v :
  ia < 2 * h -> ib < 2 * h -> u < 2 * h -> v < 2 * h ->
  meets (teams !!! ia) (teams !!! ib) (teams !!! u, teams !!! v) = true
  <-> (u = ia /\ v = ib) \/ (u = ib /\ v = ia).
Proof.
  intros Hia Hib Hu Hv.
  assert (Hinj : forall i j, i < 2 * h -> j < 2 * h ->
            teams !!! i = teams !!! j -> i = j).
  { intros i j Hi Hj E.
    apply (NoDup_lookup teams i j (teams !!! i) Hdistinct).
    - apply list_lookup_lookup_total_lt. lia.
    - rewrite E. apply list_lookup_lookup_total_lt. lia. }
  unfold meets. rewrite bool_decide_eq_true. split.
  - intros [[= E1 E2] | [= E1 E2]]; [left | right];
      split; apply Hinj; assumption.
  - intros [[-> ->] | [-> ->]]; [left | right]; reflexivity.
Qed.



End RoundRobin.






(** A pass of three calls on the standings of the one-match example: the
    top of the series, the same seed again, then the first wildcard. *)
Lemma C8_seed_uniqueness_witness :
  let standings :=
    compute_group_standings
      [finalized_group_match 10 20 2 1 (Some "A"%string)] ∅ in
  let rankings := concat (snd <$> standings) in
  let calls :=
    [ mkSeedCall "1° Serie A" standings rankings;
      mkSeedCall "1° Serie A" standings rankings;
      mkSeedCall "Clasificado #1" standings rankings ] in
  (team_id <$> returned_teams (resolve_pass calls ∅).1) = [Some 10; Some 20]
  /\ NoDup (returned_teams (resolve_pass calls ∅).1)
  /\ forall tm, tm ∈ returned_teams (resolve_pass calls ∅).1 ->
       team_id tm ∉ (∅ : gset (option Z))
       /\ team_id tm ∈ (resolve_pass calls ∅).2.
Proof.
  intros standings rankings calls.
  split; [vm_compute; reflexivity |].
  destruct (proj2 C8_seed_uniqueness calls ∅) as (Hnd & _ & Hfresh).
  split; [exact Hnd | exact Hfresh].
Defined.

(* ================================================================== *)
(** * Further properties of the engine *)

(** ** Standings engine: phases, goals and ordering *)

Lemma process_match_other_phase team_lookup d m :
  is_group m = false -> process_match team_lookup d m = d.
Proof. intros H. unfold process_match. now rewrite H. Qed.

Lemma accumulate_group_only matches team_lookup d :
  fold_left (process_match team_lookup) (List.filter is_group matches) d
  = fold_left (process_match team_lookup) matches d.
Proof.
  revert d. induction matches as [| m r IH]; intros d; [reflexivity |].
  simpl. destruct (is_group m) eqn:E; simpl.
  - apply IH.
  - rewrite IH. now rewrite process_match_other_phase.
Qed.

(** X1. Matches of any phase other than the group phase do not touch the
    standings: the table computed from the whole fixture is the table
    computed from its group matches alone. *)
Theorem standings_ignore_other_phases matches team_lookup :
  compute_group_standings matches team_lookup
  = compute_group_standings (List.filter is_group matches) team_lookup.
Proof.
  unfold compute_group_standings, accumulate_standings.
  now rewrite accumulate_group_only.
Qed.

Ltac goals_eq :=
  unfold goals_add; simpl;
  repeat match goal with |- (_, _) = (_, _) => f_equal end; lia.

Section Goals.
Variable team_lookup : gmap Z Team.

Lemma goals_of_tally_goals sr d tid sc co k :
  goals_of (tally_goals team_lookup sr d (tid, sc, co)) k
  = goals_add (goals_of d k)
      (if bool_decide (tid = Some k) then (or_zero sc, or_zero co) else (0, 0)).
Proof.
  unfold goals_of. destruct tid as [tid |]; simpl.
  - dict_get_simpl. case_bool_decide as Hk.
    + injection Hk as ->. rewrite Z.eqb_refl.
      destruct (dict_get Z.eqb k d); goals_eq.
    + destruct (Z.eqb_spec k tid); [congruence |].
      destruct (dict_get Z.eqb k d); goals_eq.
  - destruct (dict_get Z.eqb k d); goals_eq.
Qed.

Lemma goals_of_tally_result m d k :
  (exists s, dict_get Z.eqb k d = Some s) \/
  (EventoPartido.equipo_local_id m <> Some k
   /\ EventoPartido.equipo_visitante_id m <> Some k) ->
  goals_of (tally_result team_lookup m d) k = goals_of d k.
Proof.
  intros Hrow. unfold tally_result, goals_of.
  destruct (EventoPartido.equipo_local_id m) as [l |]; [| reflexivity].
  destruct (EventoPartido.equipo_visitante_id m) as [v |]; [| reflexivity].
  destruct (EventoPartido.puntaje_local m) as [ls |],
           (EventoPartido.puntaje_visitante m) as [vs |];
    [ destruct (ls =? vs); [| destruct (ls >? vs)] | | | ];
    dict_get_simpl; key_cases; try contradiction;
    destruct Hrow as [[s Hs] | [H1 H2]]; try congruence;
    rewrite ?Hs; reflexivity.
Qed.

Lemma goals_of_process_match d m k :
  goals_of (process_match team_lookup d m) k
  = goals_add (goals_of d k) (goal_delta m k).
Proof.
  assert (Hz : forall x, goals_add x (0, 0) = x) by (intros [a b]; goals_eq).
  assert (Ha : forall x y z, goals_add (goals_add x y) z
                             = goals_add x (goals_add y z))
    by (intros [a b] [c e] [f g]; goals_eq).
  unfold process_match, goal_delta.
  destruct (is_group m); cbn [negb fold_left]; [| now rewrite Hz].
  set (d2 := tally_goals team_lookup _ (tally_goals team_lookup _ d _) _).
  assert (E2 : goals_of d2 k
    = goals_add (goals_of d k)
        (goals_add
           (if bool_decide (EventoPartido.equipo_local_id m = Some k)
            then (or_zero (EventoPartido.puntaje_local m),
                  or_zero (EventoPartido.puntaje_visitante m)) else (0, 0))
           (if bool_decide (EventoPartido.equipo_visitante_id m = Some k)
            then (or_zero (EventoPartido.puntaje_visitante m),
                  or_zero (EventoPartido.puntaje_local m)) else (0, 0)))).
  { subst d2. now rewrite !goals_of_tally_goals, Ha. }
  destruct (is_finalizado m); cbn [negb]; [| exact E2].
  rewrite goals_of_tally_result; [exact E2 |].
  destruct (decide (EventoPartido.equipo_visitante_id m = Some k)) as [Hv | Hv].
  { left. subst d2. unfold tally_goals at 1. rewrite Hv.
    dict_get_simpl. rewrite Z.eqb_refl. simpl. eauto. }
  destruct (decide (EventoPartido.equipo_local_id m = Some k)) as [Hl | Hl];
    [| now right].
  left. subst d2.
  destruct (EventoPartido.equipo_visitante_id m) as [v |]; simpl.
  - dict_get_simpl. destruct (Z.eqb_spec k v); [congruence |].
    unfold tally_goals. rewrite Hl. dict_get_simpl. rewrite Z.eqb_refl.
    simpl. eauto.
  - unfold tally_goals. rewrite Hl. dict_get_simpl. rewrite Z.eqb_refl.
    simpl. eauto.
Qed.

Lemma goals_of_fold matches d k :
  goals_of (fold_left (process_match team_lookup) matches d) k
  = fold_left (fun acc m => goals_add acc (goal_delta m k)) matches (goals_of d k).
Proof.
  revert d. induction matches as [| m r IH]; intros d; simpl; [reflexivity |].
  now rewrite IH, goals_of_process_match.
Qed.
End Goals.

(** X2. Every row of the table belongs to one team id: it carries the team
    registered under that id (or the stand-in named Equipo), and its goals
    for and against are the sums of the scores entered on the group matches
    of that id, whatever the state of the match: a match that is not
    finalized still counts its goals. *)
Theorem standings_goals_from_every_group_match matches team_lookup :
  all_rows
    (fun s => exists k,
       TeamStanding.team s = row_team team_lookup k /\
       (TeamStanding.goals_for s, TeamStanding.goals_against s)
       = goals_total matches k)
    (compute_group_standings matches team_lookup).
Proof.
  apply compute_rows. intros k s Hin. exists k.
  pose proof (dict_get_of_in Z.eqb Z.eqb_eq k s _
                (accumulate_keys matches team_lookup) Hin) as Hget.
  split; [now apply (accumulate_named team_lookup matches) |].
  unfold goals_total.
  change (0, 0) with (goals_of [] k).
  rewrite <- (goals_of_fold team_lookup).
  fold (accumulate_standings matches team_lookup). unfold goals_of.
  now rewrite Hget.
Qed.

(** ** Sorting: a stable insertion sort orders and permutes *)

Section Sorting.
Context {A : Type} (lt : A -> A -> bool).

Lemma insert_sorted_perm x (l : list A) : insert_sorted lt x l ≡ₚ x :: l.
Proof.
  induction l as [| y r IH]; simpl; [reflexivity |].
  destruct (lt x y); [reflexivity |].
  rewrite IH. apply Permutation_swap.
Qed.

Lemma stable_sort_perm (l : list A) : stable_sort lt l ≡ₚ l.
Proof.
  unfold stable_sort.
  enough (H : forall acc,
             fold_left (fun acc x => insert_sorted lt x acc) l acc ≡ₚ acc ++ l).
  { now rewrite H. }
  induction l as [| x r IH]; intros acc; simpl.
  - now rewrite app_nil_r.
  - rewrite IH, insert_sorted_perm.
    change (x :: r) with ([x] ++ r). rewrite (assoc_L (++)).
    apply Permutation_app_tail. apply Permutation_cons_append.
Qed.

Hypothesis lt_asym : forall a b, lt a b = true -> lt b a = false.

Lemma ordered_insert x (l : list A) :
  ordered lt l = true -> ordered lt (insert_sorted lt x l) = true.
Proof.
  induction l as [| y r IH]; [reflexivity |].
  intros Hl. cbn [insert_sorted].
  destruct (lt x y) eqn:Exy.
  - cbn [ordered]. rewrite (lt_asym _ _ Exy). exact Hl.
  - destruct r as [| z r'].
    + cbn. now rewrite Exy.
    + cbn [ordered] in Hl. apply andb_prop in Hl as [Hzy Hr].
      specialize (IH Hr). cbn [insert_sorted] in IH |- *.
      destruct (lt x z) eqn:Exz.
      * cbn [ordered] in IH |- *. rewrite Exy. exact IH.
      * cbn [ordered]. cbn [ordered] in IH. now rewrite Hzy.
Qed.

Lemma ordered_stable_sort (l : list A) : ordered lt (stable_sort lt l) = true.
Proof.
  unfold stable_sort.
  enough (H : forall acc, ordered lt acc = true ->
     ordered lt (fold_left (fun acc x => insert_sorted lt x acc) l acc) = true)
    by now apply H.
  induction l as [| x r IH]; intros acc Hacc; simpl; [exact Hacc |].
  apply IH. now apply ordered_insert.
Qed.
End Sorting.

Lemma string_ltb_asym a b : String.ltb a b = true -> String.ltb b a = false.
Proof.
  unfold String.ltb. rewrite (String.compare_antisym a b).
  destruct (String.compare b a); simpl; congruence.
Qed.

Lemma standing_key_lt_asym a b :
  standing_key_lt a b = true -> standing_key_lt b a = false.
Proof.
  destruct a as [[[[a1 a2] a3] a4] a5], b as [[[[b1 b2] b3] b4] b5].
  unfold standing_key_lt.
  rewrite (Z.eqb_sym b1 a1), (Z.eqb_sym b2 a2), (Z.eqb_sym b3 a3),
    (Z.eqb_sym b4 a4).
  destruct (Z.eqb_spec a1 b1); simpl; [| intros H; lia].
  destruct (Z.eqb_spec a2 b2); simpl; [| intros H; lia].
  destruct (Z.eqb_spec a3 b3); simpl; [| intros H; lia].
  destruct (Z.eqb_spec a4 b4); simpl; [| intros H; lia].
  apply string_ltb_asym.
Qed.

Section RankedRows.
Variable str_lower : string -> string.

Lemma standing_lt_by_asym a b :
  standing_lt_by str_lower a b = true -> standing_lt_by str_lower b a = false.
Proof. apply standing_key_lt_asym. Qed.

Lemma standing_lt_by_points a b :
  standing_lt_by str_lower b a = false ->
  TeamStanding.points b <= TeamStanding.points a.
Proof.
  unfold standing_lt_by, standing_key_lt, _standing_sort_key_by.
  destruct (Z.eqb_spec (- TeamStanding.points b) (- TeamStanding.points a));
    simpl; [lia |]. intros H. lia.
Qed.

Lemma ranked_by_points rows :
  ranked_by str_lower rows = true ->
  forall i j a b, (i < j)%nat -> rows !! i = Some a -> rows !! j = Some b ->
                  TeamStanding.points b <= TeamStanding.points a.
Proof.
  unfold ranked_by.
  induction rows as [| x r IH]; intros Hr i j a b Hij Ha Hb; [discriminate |].
  assert (Hhead : forall j b, r !! j = Some b ->
                    TeamStanding.points b <= TeamStanding.points x).
  { clear i j a b Hij Ha Hb IH. revert x Hr.
    induction r as [| y r' IHr]; intros x Hr j b Hb; [discriminate |].
    cbn [ordered] in Hr. apply andb_prop in Hr as [Hyx Hr].
    apply negb_true_iff in Hyx. apply standing_lt_by_points in Hyx.
    destruct j as [| j]; simpl in Hb.
    - injection Hb as <-. exact Hyx.
    - specialize (IHr y Hr j b Hb). lia. }
  assert (Hr' : ordered (standing_lt_by str_lower) r = true).
  { destruct r; [reflexivity |]. cbn [ordered] in Hr.
    now apply andb_prop in Hr as [_ Hr]. }
  destruct i as [| i], j as [| j]; try lia; simpl in Ha, Hb.
  - injection Ha as <-. eapply Hhead; eauto.
  - eapply (IH Hr' i j); eauto. lia.
Qed.
End RankedRows.

(** With [PyStr.lower] for the name key, the parametric engine is the
    engine of the other statements. *)
Lemma compute_group_standings_by_lower matches team_lookup :
  compute_group_standings_by PyStr.lower matches team_lookup
  = compute_group_standings matches team_lookup.
Proof. reflexivity. Qed.

(** X3. Inside every series the rows come out ranked, whatever
    lower-casing [str.lower] applies to the team names of the sort key: no
    row beats, by the key (points, goal difference, goals for, wins, then
    lower-cased name), the row listed before it; in particular points
    never increase down the list. *)
Theorem standings_rows_ranked (str_lower : string -> string) matches
    team_lookup :
  Forall
    (fun '(sr, rows) =>
       ranked_by str_lower rows = true /\
       forall i j a b, (i < j)%nat -> rows !! i = Some a -> rows !! j = Some b ->
                       TeamStanding.points b <= TeamStanding.points a)
    (compute_group_standings_by str_lower matches team_lookup).
Proof.
  unfold compute_group_standings_by.
  apply Forall_forall. intros [sr rows] Hin.
  apply list_elem_of_fmap in Hin as ([sr0 rows0] & [= -> ->] & _).
  assert (Hr : ranked_by str_lower (sort_standings_by str_lower rows0) = true).
  { unfold ranked_by, sort_standings_by. apply ordered_stable_sort.
    apply standing_lt_by_asym. }
  split; [exact Hr | now apply (ranked_by_points str_lower)].
Qed.

(** ** Standings engine: one row per team, one list per series *)

Lemma concat_dict_setdefault {V} k (d : list (string * list V)) :
  concat (map snd (dict_setdefault String.eqb k [] d)) = concat (map snd d).
Proof.
  unfold dict_setdefault. destruct (dict_get String.eqb k d); [reflexivity |].
  rewrite map_app, concat_app. simpl. now rewrite app_nil_r.
Qed.

Lemma concat_dict_append {V} k (s : V) (d : list (string * list V)) :
  is_Some (dict_get String.eqb k d) ->
  concat (map snd (dict_update String.eqb k (fun l => l ++ [s]) d))
  ≡ₚ s :: concat (map snd d).
Proof.
  induction d as [| [k0 v] r IH]; simpl; [now intros [? [=]] |].
  destruct (String.eqb k k0); simpl.
  - intros _. rewrite <- (assoc_L (++)). simpl.
    symmetry. apply Permutation_middle.
  - intros H. rewrite (IH H). symmetry. apply Permutation_middle.
Qed.

Lemma group_by_serie_perm by_serie s :
  concat (map snd (group_by_serie by_serie s))
  ≡ₚ s :: concat (map snd by_serie).
Proof.
  unfold group_by_serie. rewrite concat_dict_append.
  - now rewrite concat_dict_setdefault.
  - rewrite (dict_get_setdefault String.eqb String.eqb_eq), String.eqb_refl.
    eauto.
Qed.

Lemma fold_group_perm l acc :
  concat (map snd (fold_left group_by_serie l acc))
  ≡ₚ concat (map snd acc) ++ l.
Proof.
  revert acc. induction l as [| s r IH]; intros acc; simpl.
  - now rewrite app_nil_r.
  - rewrite IH, group_by_serie_perm. simpl. apply Permutation_middle.
Qed.

Lemma concat_sorted_perm (by_serie : list (string * list TeamStanding)) :
  concat (map snd (map (fun '(sr, l) => (sr, sort_standings l)) by_serie))
  ≡ₚ concat (map snd by_serie).
Proof.
  induction by_serie as [| [sr l] r IH]; simpl; [reflexivity |].
  rewrite IH. apply Permutation_app_tail. apply stable_sort_perm.
Qed.

Lemma compute_rows_perm matches team_lookup :
  concat (map snd (compute_group_standings matches team_lookup))
  ≡ₚ map snd (accumulate_standings matches team_lookup).
Proof.
  unfold compute_group_standings.
  now rewrite concat_sorted_perm, fold_group_perm.
Qed.

(** X4. The table has exactly one row for each team id that a group match
    names as local or visitor: listed over all series, the teams of the
    rows are, up to order, the teams of those ids without repetition. *)
Theorem standings_one_row_per_team matches team_lookup :
  TeamStanding.team
    <$> concat (map snd (compute_group_standings matches team_lookup))
  ≡ₚ row_team team_lookup
    <$> remove_dups (flat_map group_team_ids matches).
Proof.
  rewrite compute_rows_perm.
  rewrite (named_rows_of_keys team_lookup _
             (accumulate_keys matches team_lookup)
             (accumulate_named team_lookup matches)).
  apply fmap_Permutation. apply NoDup_Permutation.
  - apply accumulate_keys.
  - apply NoDup_remove_dups.
  - intros k. rewrite elem_of_remove_dups. apply accumulate_key.
Qed.

Lemma group_by_serie_ok by_serie s :
  series_ok by_serie -> series_ok (group_by_serie by_serie s).
Proof.
  intros [Hnd Hrows]. unfold group_by_serie.
  assert (Hnd' : NoDup (map fst
            (dict_update String.eqb (serie_label_of s) (fun l => l ++ [s])
               (dict_setdefault String.eqb (serie_label_of s) [] by_serie)))).
  { rewrite (dict_update_keys String.eqb).
    now apply (dict_setdefault_keys String.eqb String.eqb_eq). }
  split; [exact Hnd' |].
  intros sr rows Hin.
  apply (dict_get_of_in String.eqb String.eqb_eq _ _ _ Hnd') in Hin.
  rewrite (dict_get_update String.eqb String.eqb_eq),
    (dict_get_setdefault String.eqb String.eqb_eq) in Hin.
  destruct (String.eqb_spec sr (serie_label_of s)) as [-> | Hne].
  - simpl in Hin. injection Hin as <-. split; [now destruct (default _ _) |].
    intros x [Hx | Hx]%elem_of_app.
    + destruct (dict_get String.eqb (serie_label_of s) by_serie) eqn:E;
        simpl in Hx; [| inversion Hx].
      apply (dict_get_Some_in String.eqb String.eqb_eq) in E.
      now apply (Hrows _ _ E).
    + apply list_elem_of_singleton in Hx. now subst.
  - apply (dict_get_Some_in String.eqb String.eqb_eq) in Hin.
    now apply Hrows.
Qed.

(** X5. The table is a partition by series: the series labels are pairwise
    different, no series is listed without rows, and every row stands under
    the label of its own series (the word Serie when it has none). *)
Theorem standings_series_partition matches team_lookup :
  NoDup (map fst (compute_group_standings matches team_lookup)) /\
  Forall
    (fun '(sr, rows) =>
       rows <> [] /\ Forall (fun s => serie_label_of s = sr) rows)
    (compute_group_standings matches team_lookup).
Proof.
  unfold compute_group_standings.
  set (by_serie := fold_left group_by_serie _ []).
  assert (Hok : series_ok by_serie).
  { subst by_serie. generalize (map snd (accumulate_standings matches team_lookup)).
    intros l.
    enough (H : forall acc, series_ok acc ->
                            series_ok (fold_left group_by_serie l acc)).
    { apply H. split; [apply NoDup_nil_2 | intros ? ? Hin; inversion Hin]. }
    induction l as [| s r IH]; intros acc Hacc; simpl; [exact Hacc |].
    apply IH. now apply group_by_serie_ok. }
  destruct Hok as [Hnd Hrows]. split.
  - rewrite map_map.
    erewrite map_ext; [exact Hnd |]. now intros [sr l].
  - apply Forall_forall. intros [sr rows] Hin.
    apply list_elem_of_fmap in Hin as ([sr0 rows0] & [= -> ->] & Hin).
    destruct (Hrows _ _ Hin) as [Hne Hlab]. split.
    + intros Hnil. apply Hne.
      apply Permutation_nil_r. rewrite <- Hnil. unfold sort_standings.
      symmetry. apply stable_sort_perm.
    + apply Forall_forall. intros s Hs. apply Hlab.
      now apply elem_of_stable_sort in Hs.
Qed.

(** ** Seed resolver: what a label resolves to *)

(** X6. The wildcard loop hands out the team of the row at position
    [index] among the rows whose team is still free, in ranking order, and
    marks it used; a negative index, or one past the free rows, finds
    nothing. *)
Theorem pick_unused_nth index global_rankings used_ids :
  pick_unused index global_rankings used_ids
  = if index <? 0 then None
    else (fun s => (TeamStanding.team s,
                    {[ team_id (TeamStanding.team s) ]} ∪ used_ids))
         <$> unused_rows global_rankings used_ids !! Z.to_nat index.
Proof.
  revert index. unfold unused_rows.
  induction global_rankings as [| s rest IH]; intros index; simpl.
  - now destruct (index <? 0).
  - case_bool_decide as Hu; simpl; [apply IH |].
    destruct (Z.eqb_spec index 0) as [-> | Hne]; [reflexivity |].
    rewrite IH. destruct (Z.ltb_spec index 0) as [Hneg | Hpos].
    + destruct (Z.ltb_spec (index - 1) 0); [reflexivity | lia].
    + destruct (Z.ltb_spec (index - 1) 0); [lia |].
      replace (Z.to_nat index) with (S (Z.to_nat (index - 1))) by lia.
      reflexivity.
Qed.

Lemma pick_unused_from index global_rankings used_ids tm used' :
  pick_unused index global_rankings used_ids = Some (tm, used') ->
  exists s, s ∈ global_rankings /\ TeamStanding.team s = tm.
Proof.
  revert index. induction global_rankings as [| s rest IH]; intros index; simpl;
    [discriminate |].
  assert (Hrest : forall i, pick_unused i rest used_ids = Some (tm, used') ->
            exists s0, s0 ∈ s :: rest /\ TeamStanding.team s0 = tm).
  { intros i Hi. destruct (IH _ Hi) as (s0 & Hs0 & Ht).
    exists s0. split; [now right | exact Ht]. }
  case_bool_decide; [apply Hrest |].
  destruct (index =? 0); [| apply Hrest].
  intros [= <- <-]. exists s. split; [left | reflexivity].
Qed.

Lemma take_if_unused_from standing used_ids tm used' :
  take_if_unused standing used_ids = Some (tm, used') ->
  TeamStanding.team standing = tm.
Proof.
  unfold take_if_unused. case_bool_decide; [discriminate |]. now intros [= <- _].
Qed.

(** X7. A label never resolves to a team out of thin air: whatever
    [resolve_seed_team] returns is the team of a row of the standings or of
    the rankings it was given; and a label that starts with Ganador or
    Perdedor, in any letter case, resolves to nothing and uses no id. *)
Theorem resolve_seed_team_from_rows seed_label standings_by_serie
    global_rankings used_ids :
  (forall tm,
     (resolve_seed_team seed_label standings_by_serie global_rankings
        used_ids).1 = Some tm ->
     ranked_team standings_by_serie global_rankings tm)
  /\ (PyStr.startswith (PyStr.lower seed_label) "ganador" = true
      \/ PyStr.startswith (PyStr.lower seed_label) "perdedor" = true ->
      resolve_seed_team seed_label standings_by_serie global_rankings used_ids
      = (None, used_ids)).
Proof.
  split.
  - intros tm. unfold resolve_seed_team.
    destruct (_ || _); [discriminate |].
    destruct (seed_first _ _ _) as [[tm1 u] |] eqn:E1.
    { simpl. intros [= ->]. left.
      unfold seed_first in E1. destruct (PyStr.startswith _ _); [| discriminate].
      destruct (dict_get String.eqb _ standings_by_serie) as [rows |] eqn:Eg;
        simpl in E1; [| discriminate].
      destruct rows as [| s rows]; simpl in E1; [discriminate |].
      apply take_if_unused_from in E1.
      apply (dict_get_Some_in String.eqb String.eqb_eq) in Eg.
      do 3 eexists. split; [exact Eg |]. split; [left | exact E1]. }
    destruct (seed_second _ _ _) as [[tm2 u] |] eqn:E2.
    { simpl. intros [= ->]. left.
      unfold seed_second in E2. destruct (PyStr.startswith _ _); [| discriminate].
      destruct (dict_get String.eqb _ standings_by_serie) as [rows |] eqn:Eg;
        simpl in E2; [| discriminate].
      destruct (rows !! 1%nat) as [s |] eqn:Es; [| discriminate].
      apply take_if_unused_from in E2.
      apply (dict_get_Some_in String.eqb String.eqb_eq) in Eg.
      do 3 eexists. split; [exact Eg |].
      split; [eapply list_elem_of_lookup_2; exact Es | exact E2]. }
    destruct (seed_wildcard _ _ _) as [[tm3 u] |] eqn:E3; [| discriminate].
    simpl. intros [= ->]. right.
    unfold seed_wildcard in E3. destruct (PyStr.startswith _ _); [| discriminate].
    destruct (PyStr.int _); [| discriminate].
    now apply pick_unused_from in E3.
  - intros H. unfold resolve_seed_team.
    destruct H as [-> | ->]; [reflexivity | now rewrite orb_true_r].
Qed.

(** ** Solver: a feasible model needs a slot per match *)

Lemma feasible_match_count v (matches : list MatchDefinition)
    (slots : list Slot) config max_day :
  feasible v (cp_model matches slots config max_day) = true ->
  (length matches <= length slots)%nat.
Proof.
  intros Hfeas.
  set (placed := fun m : MatchDefinition =>
         Slot.index <$> assigned_slot v slots (MatchDefinition.internal_id m)).
  assert (Hlen : length (placed <$> matches) = length matches)
    by apply length_fmap.
  assert (Hslots : length ((fun s => Some (Slot.index s)) <$> slots)
                   = length slots) by apply length_fmap.
  rewrite <- Hlen, <- Hslots. apply submseteq_length, NoDup_submseteq.
  - apply NoDup_alt. intros i j x Hi Hj.
    apply list_lookup_fmap_Some in Hi as (mi & -> & Hi).
    apply list_lookup_fmap_Some in Hj as (mj & Hx & Hj).
    destruct (decide (i = j)) as [-> | Hne]; [reflexivity | exfalso].
    destruct (sat_exactly_one v matches slots config max_day Hfeas mi)
      as (si & Hsi); [eapply list_elem_of_lookup_2; eassumption |].
    destruct (sat_exactly_one v matches slots config max_day Hfeas mj)
      as (sj & Hsj); [eapply list_elem_of_lookup_2; eassumption |].
    unfold placed in Hx. rewrite Hsi, Hsj in Hx. simpl in Hx.
    injection Hx as Hx.
    destruct (assigned_slot_Some _ _ _ _ Hsi) as [Hin Hvi].
    destruct (assigned_slot_Some _ _ _ _ Hsj) as [_ Hvj].
    rewrite <- Hx in Hvj.
    exact (sat_capacity v matches slots config max_day Hfeas
             i j mi mj si Hne Hi Hj Hin Hvi Hvj).
  - intros x Hx. apply list_elem_of_fmap in Hx as (m & -> & Hm).
    destruct (sat_exactly_one v matches slots config max_day Hfeas m Hm)
      as (s & Hs).
    unfold placed. rewrite Hs. simpl.
    apply list_elem_of_fmap. exists s.
    split; [reflexivity | now apply assigned_slot_Some in Hs].
Qed.

(** X8. With more matches than slots no schedule is ever returned: for any
    solver that only reports solutions of the model, [solve_schedule]
    raises the no-feasible-schedule error (or, passed no slot at all, the
    error of taking the maximum of an empty sequence). *)
Theorem solve_schedule_too_few_slots (Solve : Solver) matches slots config :
  solver_sound Solve ->
  (length slots < length matches)%nat ->
  solve_schedule Solve matches slots config
  = Raise (match slots with [] => ValueError | _ => infeasible_error end).
Proof.
  intros Hsound Hlen. unfold solve_schedule.
  destruct matches as [| m ms]; [simpl in Hlen; lia |].
  destruct slots as [| s ss]; [reflexivity |].
  destruct (Solve _) as [v |] eqn:E; [| reflexivity].
  apply Hsound, feasible_match_count in E. lia.
Qed.

(** Sixteen matches on the first twelve slots of the example. *)
Lemma solve_schedule_too_few_slots_witness :
  solve_schedule (checking_solver example_valuation) example_matches
    (take 12 example_slots) example_config
  = Raise infeasible_error.
Proof.
  apply (solve_schedule_too_few_slots (checking_solver example_valuation)
           example_matches (take 12 example_slots) example_config).
  - apply checking_solver_sound.
  - vm_compute. lia.
Defined.

(** X9. A window no longer than the rest period cannot host one team
    twice: when all slots lie within [lo, hi] day indices with
    hi - lo <= descanso_min_dias (taken as 0 when negative) and some team
    plays two of the matches, no schedule is returned. *)
Theorem solve_schedule_window_within_rest (Solve : Solver) matches slots
    config lo hi team i j mi mj :
  solver_sound Solve ->
  Forall (fun s => lo <= Slot.day_index s <= hi) slots ->
  hi - lo <= Z.max (ScheduleConfig.descanso_min_dias config) 0 ->
  i <> j -> matches !! i = Some mi -> matches !! j = Some mj ->
  plays team mi = true -> plays team mj = true ->
  solve_schedule Solve matches slots config
  = Raise (match slots with [] => ValueError | _ => infeasible_error end).
Proof.
  intros Hsound Hdays Hshort Hij Hi Hj Hpi Hpj. unfold solve_schedule.
  destruct matches as [| m ms]; [discriminate |].
  destruct slots as [| s ss]; [reflexivity |].
  destruct (Solve _) as [v |] eqn:E; [exfalso | reflexivity].
  apply Hsound in E.
  destruct (sat_exactly_one v _ _ config _ E mi) as (si & Hsi);
    [eapply list_elem_of_lookup_2; eassumption |].
  destruct (sat_exactly_one v _ _ config _ E mj) as (sj & Hsj);
    [eapply list_elem_of_lookup_2; eassumption |].
  pose proof (sat_rest v _ _ config _ E team i j mi mj si sj
                Hij Hi Hj Hpi Hpj Hsi Hsj) as Hrest.
  rewrite Forall_forall in Hdays.
  apply assigned_slot_Some in Hsi as [Hsi _].
  apply assigned_slot_Some in Hsj as [Hsj _].
  apply Hdays in Hsi, Hsj. lia.
Qed.

(** The sixteen matches of the example on its four days, when four rest
    days are asked for: team 1 plays the first match and the third. *)
Lemma solve_schedule_window_within_rest_witness :
  solve_schedule (checking_solver example_valuation) example_matches
    example_slots (ScheduleConfig.mk (mkTime 8 0) (mkTime 10 0) 2 4)
  = Raise infeasible_error.
Proof.
  apply (solve_schedule_window_within_rest (checking_solver example_valuation)
           example_matches example_slots
           (ScheduleConfig.mk (mkTime 8 0) (mkTime 10 0) 2 4)
           0 3 1 0%nat 2%nat
           (default (playoff_match 0 "" "" "" "" "") (example_matches !! 0%nat))
           (default (playoff_match 0 "" "" "" "" "") (example_matches !! 2%nat))).
  - apply checking_solver_sound.
  - vm_compute. repeat constructor; discriminate.
  - vm_compute. discriminate.
  - discriminate.
  - vm_compute. reflexivity.
  - vm_compute. reflexivity.
  - vm_compute. reflexivity.
  - vm_compute. reflexivity.
Defined.

(** ** Bracket builder: numbering, seeds and phases *)

Lemma numbered_snoc ms k m :
  numbered (ms, k) -> MatchDefinition.internal_id m = k ->
  numbered (ms ++ [m], k + 1).
Proof.
  unfold numbered. simpl. intros [Hk Hids] Hm. rewrite length_app. simpl.
  split; [lia |].
  rewrite fmap_app, Hids. simpl.
  replace (length ms + 1)%nat with (S (length ms)) by lia.
  rewrite seq_S, fmap_app. simpl. now rewrite Hm, Hk.
Qed.

Lemma add_round_numbered serie_name acc round :
  numbered acc -> numbered (add_round serie_name acc round).
Proof.
  destruct round as [round_index pairings]. unfold add_round.
  revert acc. induction pairings as [| [l v] r IH]; intros [ms k] H;
    [exact H |].
  cbn [fold_left]. apply IH. now apply numbered_snoc.
Qed.

Lemma add_serie_numbered acc assignment :
  numbered acc -> numbered (add_serie acc assignment).
Proof.
  destruct assignment as [serie_name serie_teams]. unfold add_serie.
  generalize (enumerate 1 (_round_robin_pairs serie_teams)).
  intros rounds. revert acc.
  induction rounds as [| rd r IH]; intros acc H; [exact H |].
  cbn [fold_left]. apply IH. now apply add_round_numbered.
Qed.

Lemma group_stage_numbered assignments acc :
  numbered acc -> numbered (fold_left add_serie assignments acc).
Proof.
  revert acc. induction assignments as [| a r IH]; intros acc H; [exact H |].
  cbn [fold_left]. apply IH. now apply add_serie_numbered.
Qed.

Lemma add_seeded_numbered fase prefix acc pairs :
  numbered acc -> numbered (add_seeded fase prefix acc pairs).
Proof.
  unfold add_seeded. generalize (enumerate 1 pairs). intros l. revert acc.
  induction l as [| [idx [[code h] a]] r IH]; intros [ms k] H; [exact H |].
  cbn [fold_left]. apply IH. now apply numbered_snoc.
Qed.

Lemma add_final_and_third_numbered acc :
  numbered acc -> numbered (add_final_and_third acc).
Proof.
  destruct acc as [ms k]. intros H. unfold add_final_and_third.
  rewrite (assoc_L (++)). replace (k + 2) with (k + 1 + 1) by lia.
  apply numbered_snoc; [| reflexivity]. now apply numbered_snoc.
Qed.

(** X10. [build_matches] numbers the matches it returns 0, 1, 2, ... in
    list order, for any structure and any assignment of teams to series:
    no two matches share an [internal_id], the key under which the solver
    stores the slot of a match. *)
Theorem build_matches_numbered structure assignments :
  let matches := build_matches structure assignments in
  MatchDefinition.internal_id <$> matches
    = Z.of_nat <$> seq 0 (length matches)
  /\ NoDup (MatchDefinition.internal_id <$> matches).
Proof.
  intros matches.
  assert (H : MatchDefinition.internal_id <$> matches
              = Z.of_nat <$> seq 0 (length matches)).
  { subst matches. unfold build_matches.
    pose proof (group_stage_numbered assignments ([], 0)
                  (conj eq_refl eq_refl)) as HG.
    match goal with |- _ <$> ?acc.1 = _ => enough (Hn : numbered acc) by apply Hn end.
    destruct (playoff_teams structure =? 4).
    { apply add_final_and_third_numbered, add_seeded_numbered, HG. }
    destruct (playoff_teams structure =? 8); [| apply HG].
    apply add_final_and_third_numbered.
    do 2 apply add_seeded_numbered. exact HG. }
  split; [exact H |]. rewrite H.
  apply NoDup_fmap; [intros a b; lia | apply NoDup_seq].
Qed.

Lemma second_seeds_fold total (names : list string) (seeds : list string) :
  fold_left
    (fun seeds serie =>
       if Z.of_nat (length seeds) >=? total then seeds
       else seeds ++ [("2° " ++ serie)%string])
    names seeds
  = seeds ++ take (Z.to_nat total - length seeds)
               ((fun serie => ("2° " ++ serie)%string) <$> names).
Proof.
  revert seeds. induction names as [| x r IH]; intros seeds; simpl.
  - now rewrite take_nil, app_nil_r.
  - rewrite IH. destruct (Z.geb_spec (Z.of_nat (length seeds)) total) as [Hge | Hlt].
    + replace (Z.to_nat total - length seeds)%nat with 0%nat by lia.
      reflexivity.
    + rewrite length_app. simpl.
      replace (Z.to_nat total - length seeds)%nat
        with (S (Z.to_nat total - (length seeds + 1))) by lia.
      simpl. now rewrite <- (assoc_L (++)).
Qed.

(** X11. For a number of slots that is not negative, the seed list is the
    first [total_slots] labels of the pool made of the series winners
    (1°), then the series runners-up (2°), then as many numbered wildcards
    (Clasificado #1, #2, ...) as are still missing; so it has exactly
    [total_slots] entries, which is what makes the indexing [seeds[i]] of
    the bracket builder succeed.  For a negative number the final slice
    drops that many labels from the end of the series winners. *)
Theorem seed_labels_pool series_names total_slots :
  (0 <= total_slots ->
   _seed_labels series_names total_slots
     = take (Z.to_nat total_slots) (seed_pool series_names total_slots)
   /\ length (_seed_labels series_names total_slots) = Z.to_nat total_slots)
  /\ (total_slots < 0 ->
      _seed_labels series_names total_slots
      = take (length series_names - Z.to_nat (- total_slots))
          (first_seeds series_names)).
Proof.
  split.
  - intros Hpos.
    assert (H : _seed_labels series_names total_slots
      = take (Z.to_nat total_slots) (seed_pool series_names total_slots)).
    { unfold _seed_labels, seed_pool, slice_to. rewrite second_seeds_fold.
      destruct (Z.ltb_spec total_slots 0) as [| _]; [lia |].
      set (firsts := (fun serie => ("1° " ++ serie)%string) <$> series_names).
      set (seconds := (fun serie => ("2° " ++ serie)%string) <$> series_names).
      set (wild := fun k => ("Clasificado #" ++ pretty (Z.of_nat k))%string).
      set (T := Z.to_nat total_slots).
      assert (Hf : length firsts = length series_names) by apply length_fmap.
      assert (Hs : length seconds = length series_names) by apply length_fmap.
      set (n := length series_names) in *.
      rewrite length_app, length_take, Hf, Hs.
      destruct (decide (T <= 2 * n)%nat) as [Hle | Hgt].
      - replace (Z.to_nat (total_slots - Z.of_nat (n + (T - n) `min` n)))
          with 0%nat by lia.
        replace (T - 2 * n)%nat with 0%nat by lia.
        simpl. rewrite !app_nil_r.
        rewrite !take_app, Hf, !take_take.
        now rewrite Nat.min_id.
      - replace (Z.to_nat (total_slots - Z.of_nat (n + (T - n) `min` n)))
          with (T - 2 * n)%nat by lia.
        rewrite (take_ge seconds) by lia.
        now rewrite (assoc_L (++)). }
    split; [exact H |].
    rewrite H, length_take. unfold seed_pool.
    rewrite !length_app, !length_fmap, length_seq. lia.
  - intros Hneg. unfold _seed_labels, slice_to, first_seeds.
    rewrite second_seeds_fold.
    destruct (Z.ltb_spec total_slots 0) as [_ |]; [| lia].
    replace (Z.to_nat total_slots) with 0%nat by lia.
    cbn [Nat.sub take]. rewrite app_nil_r, length_fmap.
    replace (Z.to_nat (total_slots - Z.of_nat (length series_names)))
      with 0%nat by lia.
    cbn [seq fmap list_fmap]. now rewrite app_nil_r, length_fmap.
Qed.

(** Two series: four seeds for four slots, and what the slice leaves for
    minus one. *)
Lemma seed_labels_pool_witness :
  _seed_labels ["Serie A"; "Serie B"]%string 4
    = ["1° Serie A"; "1° Serie B"; "2° Serie A"; "2° Serie B"]%string
  /\ _seed_labels ["Serie A"; "Serie B"]%string 5
     = ["1° Serie A"; "1° Serie B"; "2° Serie A"; "2° Serie B";
        "Clasificado #1"]%string
  /\ _seed_labels ["Serie A"; "Serie B"]%string (-1) = ["1° Serie A"]%string.
Proof.
  pose proof (seed_labels_pool ["Serie A"; "Serie B"]%string 4) as [H4 _].
  pose proof (seed_labels_pool ["Serie A"; "Serie B"]%string 5) as [H5 _].
  pose proof (seed_labels_pool ["Serie A"; "Serie B"]%string (-1)) as [_ Hn].
  split; [| split].
  - rewrite (proj1 (H4 ltac:(lia))). reflexivity.
  - rewrite (proj1 (H5 ltac:(lia))). reflexivity.
  - rewrite (Hn ltac:(lia)). reflexivity.
Defined.

Lemma resolve_stage_sequence_group playoff_teams :
  "group"%string ∈ resolve_stage_sequence playoff_teams.
Proof.
  unfold resolve_stage_sequence.
  destruct (playoff_teams =? 4); [left |].
  destruct (playoff_teams =? 8); left.
Qed.

Lemma phase_match_exists (l : list MatchDefinition) phase :
  existsb (fun m => String.eqb (MatchDefinition.fase m) phase
                    && MatchDefinition.is_playoff m) l = true ->
  exists m, m ∈ l /\ MatchDefinition.fase m = phase
            /\ MatchDefinition.is_playoff m = true.
Proof.
  intros H. apply existsb_exists in H as (m & Hin & H).
  apply andb_prop in H as [Hf Hp]. apply String.eqb_eq in Hf.
  exists m. split; [now apply list_elem_of_In | now split].
Qed.

(** X12. The phases of the matches that [build_matches] creates are phases
    of the stage sequence of the same structure, and with a bracket of 4
    or 8 every phase of the sequence after the group phase has a playoff
    match; with any other playoff size the list holds group matches only,
    although the sequence then ends with a final. *)
Theorem build_matches_phases structure assignments :
  Forall
    (fun m => MatchDefinition.fase m
              ∈ resolve_stage_sequence (playoff_teams structure))
    (build_matches structure assignments)
  /\ (playoff_teams structure = 4 \/ playoff_teams structure = 8 ->
      Forall
        (fun phase =>
           phase = "group"%string
           \/ exists m, m ∈ build_matches structure assignments
                        /\ MatchDefinition.fase m = phase
                        /\ MatchDefinition.is_playoff m = true)
        (resolve_stage_sequence (playoff_teams structure)))
  /\ (playoff_teams structure <> 4 -> playoff_teams structure <> 8 ->
      Forall group_shaped (build_matches structure assignments)
      /\ resolve_stage_sequence (playoff_teams structure)
         = ["group"; "final"]%string).
Proof.
  pose proof (group_stage_group assignments ([], 0) (Forall_nil_2 _)) as HG.
  assert (HGseq : Forall
            (fun m => MatchDefinition.fase m
                      ∈ resolve_stage_sequence (playoff_teams structure))
            (fold_left add_serie assignments ([], 0)).1).
  { eapply Forall_impl; [exact HG |]. intros m [-> _].
    apply resolve_stage_sequence_group. }
  unfold build_matches, resolve_stage_sequence in *.
  destruct (fold_left add_serie assignments ([], 0)) as [groups k].
  simpl in HG, HGseq.
  destruct (Z.eqb_spec (playoff_teams structure) 4) as [E4 | N4];
    [| destruct (Z.eqb_spec (playoff_teams structure) 8) as [E8 | N8]].
  - cbn -[_seed_labels seed_at]. rewrite <- ?app_assoc.
    split; [| split; [| intros H; contradiction]].
    + apply Forall_app. split; [exact HGseq |].
      repeat (apply Forall_cons; split; [set_solver |]). apply Forall_nil_2.
    + intros _.
      repeat (apply Forall_cons; split;
              [first [ now left
                     | right; apply phase_match_exists;
                       rewrite existsb_app; apply orb_true_iff; right;
                       reflexivity ] |]).
      apply Forall_nil_2.
  - cbn -[_seed_labels seed_at]. rewrite <- ?app_assoc.
    split; [| split; [| intros _ H; contradiction]].
    + apply Forall_app. split; [exact HGseq |].
      repeat (apply Forall_cons; split; [set_solver |]). apply Forall_nil_2.
    + intros _.
      repeat (apply Forall_cons; split;
              [first [ now left
                     | right; apply phase_match_exists;
                       rewrite existsb_app; apply orb_true_iff; right;
                       reflexivity ] |]).
      apply Forall_nil_2.
  - simpl. split; [exact HGseq |]. split; [intros [H | H]; contradiction |].
    intros _ _. split; [exact HG | reflexivity].
Qed.

(** ** Series assignment: teams are dealt round the series *)

Lemma dealt_snoc c j (l : list Team) x :
  dealt c j (l ++ [x])
  = dealt c j l ++ (if decide ((length l mod c)%nat = j) then [x] else []).
Proof.
  unfold dealt. rewrite imap_app, filter_app, fmap_app. f_equal.
  simpl. rewrite Nat.add_0_r. unfold base.filter at 1. simpl.
  destruct (decide_rel _ _ _); reflexivity.
Qed.

Lemma deal_fold (teams : list Team) (c : Z) :
  0 < c ->
  fold_left
    (fun series '(idx, team) =>
       alter (fun l => l ++ [team]) (Z.to_nat (idx mod c)) series)
    (enumerate 0 teams) (replicate (Z.to_nat c) [])
  = (fun j => dealt (Z.to_nat c) j teams) <$> seq 0 (Z.to_nat c).
Proof.
  intros Hc. induction teams as [| x l IH] using rev_ind.
  - simpl. apply list_eq. intros i.
    rewrite list_lookup_fmap.
    destruct (decide (i < Z.to_nat c)%nat) as [Hi | Hi].
    + rewrite lookup_replicate_2 by exact Hi.
      now rewrite lookup_seq_lt by exact Hi.
    + rewrite (proj1 (lookup_replicate_None _ _ _)) by lia.
      now rewrite lookup_seq_ge by lia.
  - unfold enumerate in *. rewrite imap_app, fold_left_app, IH. simpl.
    rewrite Nat.add_0_r.
    replace (Z.to_nat ((0 + Z.of_nat (length l)) mod c))
      with (length l mod Z.to_nat c)%nat
      by (rewrite Z.add_0_l, Z2Nat.inj_mod, Nat2Z.id by lia; reflexivity).
    set (k := (length l mod Z.to_nat c)%nat).
    apply list_eq. intros i. rewrite list_lookup_fmap.
    destruct (decide (i = k)) as [-> | Hne].
    + rewrite list_lookup_alter_eq, list_lookup_fmap.
      destruct (seq 0 (Z.to_nat c) !! k) as [j |] eqn:Ej; [| reflexivity].
      simpl. apply lookup_seq in Ej as [-> _]. simpl.
      rewrite dealt_snoc. fold k. now rewrite decide_True.
    + rewrite list_lookup_alter_ne by congruence. rewrite list_lookup_fmap.
      destruct (seq 0 (Z.to_nat c) !! i) as [j |] eqn:Ej; [| reflexivity].
      simpl. apply lookup_seq in Ej as [-> _]. simpl.
      rewrite dealt_snoc. fold k. rewrite decide_False by congruence.
      now rewrite app_nil_r.
Qed.

Lemma succ_div_mod (n c : nat) :
  (0 < c)%nat ->
  (if decide (S (n mod c) = c)
   then (S n / c = S (n / c) /\ S n mod c = 0)%nat
   else (S n / c = n / c /\ S n mod c = S (n mod c))%nat).
Proof.
  intros Hc.
  pose proof (Nat.div_mod_eq n c) as Hn.
  pose proof (Nat.mod_upper_bound n c ltac:(lia)) as Hr.
  destruct (decide (S (n mod c) = c)) as [E | E].
  - assert (Hq : S (n / c) = (S n / c)%nat).
    { apply (Nat.div_unique _ _ _ 0); [lia | nia]. }
    assert (Hm : 0%nat = (S n mod c)%nat).
    { apply (Nat.mod_unique _ _ (S (n / c))); [lia | nia]. }
    split; congruence.
  - assert (Hq : (n / c)%nat = (S n / c)%nat).
    { apply (Nat.div_unique _ _ _ (S (n mod c))); [lia | nia]. }
    assert (Hm : S (n mod c) = (S n mod c)%nat).
    { apply (Nat.mod_unique _ _ (n / c)); [lia | nia]. }
    split; congruence.
Qed.

Lemma dealt_length c j (l : list Team) :
  (j < c)%nat ->
  length (dealt c j l)
  = (length l / c + if decide (j < length l mod c)%nat then 1 else 0)%nat.
Proof.
  intros Hj. induction l as [| x l IH] using rev_ind.
  - unfold dealt. simpl. rewrite Nat.Div0.div_0_l, Nat.Div0.mod_0_l.
    now rewrite decide_False by lia.
  - rewrite dealt_snoc, !length_app, IH. simpl.
    replace (length l + 1)%nat with (S (length l)) by lia.
    pose proof (succ_div_mod (length l) c ltac:(lia)) as H.
    pose proof (Nat.mod_upper_bound (length l) c ltac:(lia)) as Hr.
    destruct (decide (S (length l mod c) = c)) as [E | E];
      destruct H as [-> ->];
      repeat (destruct (decide _); simpl); lia.
Qed.

Lemma concat_fmap_app {A B} (f g : A -> list B) (l : list A) :
  concat ((fun j => f j ++ g j) <$> l) ≡ₚ concat (f <$> l) ++ concat (g <$> l).
Proof.
  induction l as [| a r IH]; simpl; [reflexivity |].
  rewrite IH, <- !(assoc_L (++)). apply Permutation_app_head.
  rewrite !(assoc_L (++)). apply Permutation_app_tail, Permutation_app_comm.
Qed.

Lemma concat_one_hit {B} (x : B) (k s c : nat) :
  concat ((fun j => if decide (k = j) then [x] else []) <$> seq s c)
  = if decide (s <= k < s + c)%nat then [x] else [].
Proof.
  revert s. induction c as [| c IH]; intros s; simpl.
  - now rewrite decide_False by lia.
  - rewrite IH.
    destruct (decide (k = s)) as [-> | Hne];
      destruct (decide (S s <= _ < S s + c)%nat);
      destruct (decide (s <= _ < s + S c)%nat); simpl; try reflexivity; lia.
Qed.

Lemma dealt_partition c (l : list Team) :
  (0 < c)%nat ->
  concat ((fun j => dealt c j l) <$> seq 0 c) ≡ₚ l.
Proof.
  intros Hc. induction l as [| x l IH] using rev_ind.
  - unfold dealt. simpl. generalize (seq 0 c). intros s.
    induction s; simpl; [reflexivity | assumption].
  - erewrite list_fmap_ext; [| intros i j _; apply dealt_snoc].
    rewrite concat_fmap_app, IH, concat_one_hit.
    pose proof (Nat.mod_upper_bound (length l) c ltac:(lia)).
    now rewrite decide_True by lia.
Qed.

Lemma build_series_assignments_Ok teams c :
  0 < c ->
  _build_series_assignments teams c
  = Ok ((fun j => (serie_label j, dealt (Z.to_nat c) j teams))
          <$> seq 0 (Z.to_nat c)).
Proof.
  intros Hc. unfold _build_series_assignments.
  assert (Hguard :
    match teams with
    | _ :: _ =>
        if c =? 0 then Raise ZeroDivisionError
        else if c <? 0 then Raise IndexError else Ok ()
    | [] => Ok ()
    end = Ok ()).
  { destruct teams; [reflexivity |].
    destruct (Z.eqb_spec c 0); [lia |]. destruct (Z.ltb_spec c 0); [lia |].
    reflexivity. }
  rewrite Hguard. cbn [mbind result_bind]. rewrite deal_fold by exact Hc.
  f_equal. apply list_eq. intros i.
  rewrite list_lookup_imap, !list_lookup_fmap.
  destruct (seq 0 (Z.to_nat c) !! i) as [j |] eqn:Ej; [| reflexivity].
  apply lookup_seq in Ej as [-> _]. reflexivity.
Qed.

(** X13. With at least one series, [_build_series_assignments] deals
    the teams round the series: series number j (from 0) carries its
    label and the teams at the list positions that leave remainder j
    modulo the count, in list order. *)
Theorem build_series_assignments_deals teams series_count :
  1 <= series_count ->
  _build_series_assignments teams series_count
  = Ok ((fun j => (serie_label j, dealt (Z.to_nat series_count) j teams))
          <$> seq 0 (Z.to_nat series_count)).
Proof. intros Hc. apply build_series_assignments_Ok. lia. Qed.

(** Eight teams on two series: odd positions and even positions. *)
Lemma build_series_assignments_deals_witness :
  _build_series_assignments example_teams 2
  = Ok [ ("Serie A"%string,
          (fun i => mkTeam (Some i) ("Equipo " ++ pretty i)%string)
            <$> [1; 3; 5; 7]);
         ("Serie B"%string,
          (fun i => mkTeam (Some i) ("Equipo " ++ pretty i)%string)
            <$> [2; 4; 6; 8]) ].
Proof.
  rewrite (build_series_assignments_deals example_teams 2) by lia.
  vm_compute. reflexivity.
Defined.

(** X14. Whatever assignment [_build_series_assignments] returns loses
    and repeats no team, has as many series as asked for, and is balanced:
    series j holds the quotient of teams by series, plus one when j is
    below the remainder, so that two series differ by at most one team. *)
Theorem build_series_assignments_balanced teams series_count assignments :
  _build_series_assignments teams series_count = Ok assignments ->
  concat (snd <$> assignments) ≡ₚ teams
  /\ length assignments = Z.to_nat series_count
  /\ forall j label serie_teams,
       assignments !! j = Some (label, serie_teams) ->
       length serie_teams
       = (length teams / Z.to_nat series_count
          + if decide (j < length teams mod Z.to_nat series_count)%nat
            then 1 else 0)%nat.
Proof.
  destruct (Z.ltb_spec 0 series_count) as [Hc | Hc].
  - rewrite build_series_assignments_Ok by exact Hc. intros [= <-].
    split; [| split].
    + rewrite <- list_fmap_compose.
      erewrite list_fmap_ext; [| intros i j _; reflexivity].
      apply dealt_partition. lia.
    + now rewrite length_fmap, length_seq.
    + intros j label serie_teams Hj.
      rewrite list_lookup_fmap in Hj.
      destruct (seq 0 (Z.to_nat series_count) !! j) as [j' |] eqn:Ej;
        [| discriminate].
      apply lookup_seq in Ej as [-> Hlt]. simpl in Hj.
      injection Hj as _ <-. now apply dealt_length.
  - unfold _build_series_assignments.
    destruct teams as [| t ts].
    + cbn [mbind result_bind]. replace (Z.to_nat series_count) with 0%nat by lia.
      simpl. intros [= <-]. split; [reflexivity |]. split; [reflexivity |].
      intros j label serie_teams Hj. discriminate.
    + destruct (Z.eqb_spec series_count 0); [discriminate |].
      destruct (Z.ltb_spec series_count 0); [discriminate | lia].
Qed.

(** Eight teams on three series: three, three and two. *)
Lemma build_series_assignments_balanced_witness :
  exists assignments,
    _build_series_assignments example_teams 3 = Ok assignments
    /\ concat (snd <$> assignments) ≡ₚ example_teams
    /\ (length <$> (snd <$> assignments)) = [3; 3; 2]%nat.
Proof.
  destruct (_build_series_assignments example_teams 3) as [assignments |]
    eqn:E; [| vm_compute in E; discriminate].
  exists assignments. split; [reflexivity |].
  split.
  - exact (proj1 (build_series_assignments_balanced _ _ _ E)).
  - vm_compute in E. injection E as <-. reflexivity.
Defined.

(** ** Round-robin generator: odd counts, round sizes, one match a round *)

Section CirclePositions.
Local Open Scope nat_scope.

Ltac src_split :=
  unfold src in *;
  repeat match goal with
  | |- context [?a =? ?b] => destruct (Nat.eqb_spec a b)
  | |- context [?a <? ?b] => destruct (Nat.ltb_spec a b)
  | H : context [?a =? ?b] |- _ => destruct (Nat.eqb_spec a b)
  | H : context [?a <? ?b] |- _ => destruct (Nat.ltb_spec a b)
  end; try lia.

Lemma src_inj n r p p' :
  2 <= n -> r < n - 1 -> p < n -> p' < n ->
  src n r p = src n r p' -> p = p'.
Proof. intros. src_split. Qed.

Lemma src_surj n r x :
  2 <= n -> r < n - 1 -> x < n -> exists p, p < n /\ src n r p = x.
Proof.
  intros Hn Hr Hx.
  destruct (Nat.eq_dec x 0) as [-> | Hx0].
  { exists 0. split; [lia |]. src_split. }
  destruct (le_lt_dec (x + r) (n - 1)).
  - exists (x + r). split; [lia |]. src_split.
  - exists (x + r - (n - 1)). split; [lia |]. src_split.
Qed.

Lemma position_cell h p :
  p < 2 * h -> exists i, i < h /\ (p = i \/ p = 2 * h - 1 - i).
Proof.
  intros Hp. destruct (le_lt_dec h p).
  - exists (2 * h - 1 - p). split; lia.
  - exists p. split; [lia | now left].
Qed.
End CirclePositions.

Section CountingCells.
Local Open Scope nat_scope.
Context {X Y : Type}.

Lemma count_concat_zero (Q : Y -> bool) (G : X -> list Y) (xs : list X) :
  (forall x, x ∈ xs -> length (List.filter Q (G x)) = 0) ->
  length (List.filter Q (concat (G <$> xs))) = 0.
Proof.
  induction xs as [| y r IH]; intros H; [reflexivity |].
  rewrite fmap_cons. cbn [concat].
  rewrite List.filter_app, length_app, (H y) by left.
  apply IH. intros z Hz. apply H. now right.
Qed.

Lemma count_concat_only (Q : Y -> bool) (G : X -> list Y) (xs : list X) x0 :
  NoDup xs -> x0 ∈ xs ->
  (forall x, x ∈ xs -> x <> x0 -> length (List.filter Q (G x)) = 0) ->
  length (List.filter Q (concat (G <$> xs))) = length (List.filter Q (G x0)).
Proof.
  induction xs as [| x r IH]; intros Hnd Hin H0; [inversion Hin |].
  apply NoDup_cons in Hnd as [Hx Hnd].
  rewrite fmap_cons. cbn [concat].
  rewrite List.filter_app, length_app.
  apply elem_of_cons in Hin as [<- | Hin].
  - rewrite count_concat_zero; [lia |].
    intros y Hy. apply H0; [now right | congruence].
  - rewrite (H0 x) by (try left; congruence).
    rewrite IH; try assumption; [reflexivity |].
    intros y Hy. apply H0. now right.
Qed.

Lemma length_concat_singletons (G : X -> list Y) (xs : list X) :
  (forall x, x ∈ xs -> length (G x) = 1) ->
  length (concat (G <$> xs)) = length xs.
Proof.
  induction xs as [| x r IH]; intros H; [reflexivity |].
  rewrite fmap_cons. cbn [concat]. rewrite length_app, (H x) by left.
  simpl. f_equal. apply IH. intros y Hy. apply H. now right.
Qed.

Lemma length_concat_one_empty (G : X -> list Y) (xs : list X) x0 :
  NoDup xs -> x0 ∈ xs -> length (G x0) = 0 ->
  (forall x, x ∈ xs -> x <> x0 -> length (G x) = 1) ->
  length (concat (G <$> xs)) + 1 = length xs.
Proof.
  induction xs as [| x r IH]; intros Hnd Hin H0 H1; [inversion Hin |].
  apply NoDup_cons in Hnd as [Hx Hnd].
  rewrite fmap_cons. cbn [concat]. rewrite length_app.
  apply elem_of_cons in Hin as [<- | Hin].
  - rewrite H0, length_concat_singletons; [simpl; lia |].
    intros y Hy. apply H1; [now right | congruence].
  - rewrite (H1 x) by (try left; congruence). simpl.
    rewrite <- (IH Hnd Hin H0); [lia |].
    intros y Hy. apply H1. now right.
Qed.
End CountingCells.

Lemma cell_filter (Q : Team * Team -> bool) L n r i :
  length (List.filter Q (cell L n r i))
  = if String.eqb (nombre (L !!! src n r i)) "BYE"
       || String.eqb (nombre (L !!! src n r (n - 1 - i)%nat)) "BYE"
    then 0%nat
    else if Q (L !!! src n r i, L !!! src n r (n - 1 - i)%nat)
         then 1%nat else 0%nat.
Proof.
  unfold cell. destruct (_ || _); [reflexivity |].
  simpl. now destruct (Q _).
Qed.

Section Padded.
Local Open Scope nat_scope.
Variables (L : list Team) (h : nat).
Hypothesis Hdistinct : NoDup L.
Hypothesis Hlen : length L = 2 * h.
Hypothesis Hh : 1 <= h.

Lemma L_inj i j : i < 2 * h -> j < 2 * h -> L !!! i = L !!! j -> i = j.
Proof.
  intros Hi Hj E.
  apply (NoDup_lookup L i j (L !!! i) Hdistinct).
  - apply list_lookup_lookup_total_lt. lia.
  - rewrite E. apply list_lookup_lookup_total_lt. lia.
Qed.

Lemma round_cells r :
  r < 2 * h - 1 ->
  round_pairs (2 * h) h (Nat.iter r rotate L)
  = concat (cell L (2 * h) r <$> seq 0 h).
Proof.
  intros Hr. unfold round_pairs. rewrite flat_map_concat_map. f_equal.
  apply list_fmap_ext. intros k i [-> Hk]%lookup_seq. simpl.
  assert (Hlook : forall p, p < 2 * h ->
            Nat.iter r rotate L !! p = Some (L !!! src (2 * h) r p)).
  { intros p Hp. rewrite <- Hlen at 1.
    rewrite iter_rotate_lookup by lia. rewrite Hlen.
    apply list_lookup_lookup_total_lt.
    rewrite Hlen. apply src_bound; lia. }
  rewrite !Hlook by lia. reflexivity.
Qed.

Lemma padded_rounds :
  round_loop (2 * h - 1) (2 * h) h L
  = (fun r => concat (cell L (2 * h) r <$> seq 0 h)) <$> seq 0 (2 * h - 1).
Proof.
  rewrite round_loop_rounds. apply list_fmap_ext.
  intros k r [-> Hk]%lookup_seq. simpl. apply round_cells. lia.
Qed.

Lemma paired_once_cells ia ib :
  ia < ib -> ib < 2 * h ->
  nombre (L !!! ia) <> "BYE"%string -> nombre (L !!! ib) <> "BYE"%string ->
  times_paired (round_loop (2 * h - 1) (2 * h) h L) (L !!! ia) (L !!! ib) = 1
  /\ times_paired (round_loop (2 * h - 1) (2 * h) h L) (L !!! ib) (L !!! ia) = 1.
Proof.
  intros Hab Hb Hna Hnb.
  destruct (src_pair_exists h ia ib Hh Hab Hb) as (r0 & i0 & Hr0 & Hi0 & Hmeet).
  assert (Hforms : forall x y,
    (x = ia /\ y = ib) \/ (x = ib /\ y = ia) ->
    times_paired (round_loop (2 * h - 1) (2 * h) h L) (L !!! x) (L !!! y) = 1).
  { intros x y Hxy.
    assert (Hx : x < 2 * h) by lia. assert (Hy : y < 2 * h) by lia.
    unfold times_paired. rewrite padded_rounds.
    apply (count_concat_unique _ _ _ r0);
      [apply NoDup_seq | apply elem_of_seq; lia | |].
    - rewrite (count_concat_only _ _ _ i0);
        [| apply NoDup_seq | apply elem_of_seq; lia |].
      + rewrite cell_filter.
        assert (E : String.eqb (nombre (L !!! src (2 * h) r0 i0)) "BYE"
                    || String.eqb
                         (nombre (L !!! src (2 * h) r0 (2 * h - 1 - i0))) "BYE"
                    = false).
        { apply orb_false_iff.
          destruct Hmeet as [[-> ->] | [-> ->]];
            split; now apply String.eqb_neq. }
        rewrite E.
        assert (Hm : meets (L !!! x) (L !!! y)
                  (L !!! src (2 * h) r0 i0,
                   L !!! src (2 * h) r0 (2 * h - 1 - i0)) = true).
        { apply (meets_index L h Hdistinct Hlen Hh);
            try lia; try (apply src_bound; lia). }
        now rewrite Hm.
      + intros i Hi%elem_of_seq Hne. rewrite cell_filter.
        destruct (_ || _); [reflexivity |].
        destruct (meets _ _ _) eqn:Hm; [| reflexivity].
        apply (meets_index L h Hdistinct Hlen Hh) in Hm;
          try lia; try (apply src_bound; lia).
        exfalso. apply Hne.
        apply (src_pair_inj h r0 i r0 i0); lia.
    - intros r Hr%elem_of_seq Hne.
      apply count_concat_zero. intros i Hi%elem_of_seq.
      rewrite cell_filter. destruct (_ || _); [reflexivity |].
      destruct (meets _ _ _) eqn:Hm; [| reflexivity].
      apply (meets_index L h Hdistinct Hlen Hh) in Hm;
        try lia; try (apply src_bound; lia).
      exfalso. apply Hne.
      apply (src_pair_inj h r i r0 i0); lia. }
  split; apply Hforms; lia.
Qed.

(** In round [r] the team at list position [it] plays in the one cell
    that holds its position, and nowhere else. *)
Lemma appearances_cell r it :
  r < 2 * h - 1 -> it < 2 * h ->
  exists i0, i0 < h
    /\ appearances (concat (cell L (2 * h) r <$> seq 0 h)) (L !!! it)
       = length (cell L (2 * h) r i0)
    /\ (src (2 * h) r i0 = it \/ src (2 * h) r (2 * h - 1 - i0) = it).
Proof.
  intros Hr Hit.
  destruct (src_surj (2 * h) r it) as (p & Hp & Hsrc); try lia.
  destruct (position_cell h p Hp) as (i0 & Hi0 & Hpos).
  exists i0. split; [exact Hi0 |]. split.
  - unfold appearances.
    rewrite (count_concat_only _ _ _ i0);
      [| apply NoDup_seq | apply elem_of_seq; lia |].
    + rewrite cell_filter. unfold cell.
      destruct (_ || _); [reflexivity |].
      unfold plays_in. cbn [List.filter fst snd].
      rewrite bool_decide_eq_true_2; [reflexivity |].
      destruct Hpos as [-> | ->]; [left | right]; now rewrite Hsrc.
    + intros i Hi%elem_of_seq Hne. rewrite cell_filter.
      destruct (_ || _); [reflexivity |].
      destruct (plays_in _ _) eqn:Hm; [| reflexivity].
      unfold plays_in in Hm. apply bool_decide_eq_true in Hm.
      cbn [fst snd] in Hm.
      exfalso. apply Hne.
      destruct Hm as [Hm | Hm]; apply L_inj in Hm;
        try lia; try (apply src_bound; lia);
        rewrite <- Hsrc in Hm; apply src_inj in Hm; lia.
  - destruct Hpos as [-> | ->]; [left | right]; exact Hsrc.
Qed.

Lemma cell_length_le r i : length (cell L (2 * h) r i) <= 1.
Proof. unfold cell. destruct (_ || _); simpl; lia. Qed.
End Padded.

Section OddCount.
Local Open Scope nat_scope.
Variables (teams : list Team) (h : nat).
Hypothesis Hdistinct : NoDup teams.
Hypothesis Hlen : S (length teams) = 2 * h.
Hypothesis Hnames : Forall (fun t => nombre t <> "BYE"%string) teams.

Let L := teams ++ [BYE].

Lemma padded_length : length L = 2 * h.
Proof. unfold L. rewrite length_app. simpl. lia. Qed.

Lemma padded_distinct : NoDup L.
Proof.
  unfold L. apply NoDup_app. split; [exact Hdistinct |].
  split; [| apply NoDup_singleton].
  intros x Hx ->%list_elem_of_singleton.
  rewrite Forall_forall in Hnames. now apply (Hnames _ Hx).
Qed.

Lemma padded_real i : i < length teams -> L !!! i = teams !!! i.
Proof. intros Hi. unfold L. now rewrite lookup_total_app_l. Qed.

Lemma padded_real_name i : i < length teams -> nombre (L !!! i) <> "BYE"%string.
Proof.
  intros Hi. rewrite padded_real by exact Hi.
  rewrite Forall_forall in Hnames. apply Hnames.
  apply list_elem_of_lookup_total_2. exact Hi.
Qed.

Lemma padded_bye : L !!! (2 * h - 1) = BYE.
Proof.
  unfold L. rewrite lookup_total_app_r by lia.
  replace (2 * h - 1 - length teams) with 0 by lia. reflexivity.
Qed.

Lemma odd_padded :
  _round_robin_pairs teams = round_loop (2 * h - 1) (2 * h) h L.
Proof.
  unfold _round_robin_pairs.
  assert (Hodd : length teams mod 2 = 1).
  { symmetry. apply (Nat.mod_unique _ _ (h - 1)); lia. }
  rewrite Hodd. cbn [Nat.eqb].
  replace (length teams + 1) with (2 * h) by lia.
  replace (2 * h / 2) with h by (rewrite Nat.mul_comm, Nat.div_mul; lia).
  reflexivity.
Qed.

Lemma odd_paired_once a b :
  a ∈ teams -> b ∈ teams -> a <> b ->
  times_paired (_round_robin_pairs teams) a b = 1.
Proof.
  intros [ia Ha]%list_elem_of_lookup [ib Hb]%list_elem_of_lookup Hne.
  assert (Hia : ia < length teams) by (now apply lookup_lt_Some in Ha).
  assert (Hib : ib < length teams) by (now apply lookup_lt_Some in Hb).
  apply list_lookup_total_correct in Ha, Hb.
  rewrite <- padded_real in Ha, Hb by assumption. subst a b.
  rewrite odd_padded.
  assert (Hh : 1 <= h) by lia.
  destruct (Nat.lt_total ia ib) as [H | [H | H]].
  - apply (proj1 (paired_once_cells L h padded_distinct padded_length Hh
                    ia ib H ltac:(lia)
                    (padded_real_name ia Hia) (padded_real_name ib Hib))).
  - congruence.
  - apply (proj2 (paired_once_cells L h padded_distinct padded_length Hh
                    ib ia H ltac:(lia)
                    (padded_real_name ib Hib) (padded_real_name ia Hia))).
Qed.

Lemma odd_round_shape round :
  round ∈ _round_robin_pairs teams ->
  2 * length round + 1 = length teams
  /\ forall t, t ∈ teams -> appearances round t <= 1.
Proof.
  assert (Hh : 1 <= h) by lia.
  rewrite odd_padded, (padded_rounds L h padded_length Hh).
  intros (r & -> & Hr%elem_of_seq)%list_elem_of_fmap. split.
  - destruct (src_surj (2 * h) r (2 * h - 1)) as (p & Hp & Hsrc); try lia.
    destruct (position_cell h p Hp) as (i0 & Hi0 & Hpos).
    pose proof (length_concat_one_empty (cell L (2 * h) r) (seq 0 h) i0
                  (NoDup_seq 0 h)) as Hcount.
    rewrite length_seq in Hcount.
    enough (length (concat (cell L (2 * h) r <$> seq 0 h)) + 1 = h) by lia.
    apply Hcount.
    + apply elem_of_seq. lia.
    + unfold cell.
      assert (E : String.eqb (nombre (L !!! src (2 * h) r i0)) "BYE"
                  || String.eqb
                       (nombre (L !!! src (2 * h) r (2 * h - 1 - i0))) "BYE"
                  = true).
      { apply orb_true_iff.
        destruct Hpos as [-> | ->]; [left | right];
          now rewrite Hsrc, padded_bye. }
      now rewrite E.
    + intros i Hi%elem_of_seq Hne. unfold cell.
      assert (Hreal : forall q, q < 2 * h -> q <> p ->
                nombre (L !!! src (2 * h) r q) <> "BYE"%string).
      { intros q Hq Hqp. apply padded_real_name.
        pose proof (src_bound (2 * h) r q ltac:(lia) ltac:(lia) Hq).
        enough (src (2 * h) r q <> 2 * h - 1) by lia.
        intros E. rewrite <- Hsrc in E. apply src_inj in E; lia. }
      assert (E : String.eqb (nombre (L !!! src (2 * h) r i)) "BYE"
                  || String.eqb
                       (nombre (L !!! src (2 * h) r (2 * h - 1 - i))) "BYE"
                  = false).
      { apply orb_false_iff. split; apply String.eqb_neq, Hreal; lia. }
      now rewrite E.
  - intros t [it Ht]%list_elem_of_lookup.
    assert (Hit : it < length teams) by (now apply lookup_lt_Some in Ht).
    apply list_lookup_total_correct in Ht.
    rewrite <- padded_real in Ht by assumption. subst t.
    destruct (appearances_cell L h padded_distinct padded_length Hh r it)
      as (i0 & _ & -> & _); try lia.
    apply cell_length_le; first [apply padded_length | lia].
Qed.
End OddCount.

(** X15. For an odd number S of distinct teams, none of them named BYE,
    [_round_robin_pairs] produces S rounds; every two teams meet in exactly
    one match; and every round holds (S - 1) / 2 matches, with no team
    playing twice in it, so exactly one team rests. *)
Theorem round_robin_odd (teams : list Team) :
  NoDup teams ->
  Nat.odd (length teams) = true ->
  Forall (fun t => nombre t <> "BYE"%string) teams ->
  length (_round_robin_pairs teams) = length teams
  /\ (forall a b, a ∈ teams -> b ∈ teams -> a <> b ->
        times_paired (_round_robin_pairs teams) a b = 1%nat)
  /\ Forall
       (fun round =>
          (2 * length round + 1)%nat = length teams
          /\ forall t, t ∈ teams -> (appearances round t <= 1)%nat)
       (_round_robin_pairs teams).
Proof.
  intros Hnd Hodd Hnames.
  apply Nat.odd_spec in Hodd as [m Hm].
  assert (Hlen : S (length teams) = (2 * (m + 1))%nat) by lia.
  split; [| split].
  - rewrite (odd_padded teams (m + 1) Hlen), round_loop_length. lia.
  - intros a b. now apply (odd_paired_once teams (m + 1)).
  - apply Forall_forall. intros round Hr.
    now apply (odd_round_shape teams (m + 1)).
Qed.

(** Three teams: three rounds of one match each. *)
Lemma round_robin_odd_witness :
  let teams := (fun i => mkTeam (Some i) ("Equipo " ++ pretty i)%string)
               <$> [0; 1; 2] in
  length (_round_robin_pairs teams) = 3%nat
  /\ times_paired (_round_robin_pairs teams)
       (mkTeam (Some 0) "Equipo 0") (mkTeam (Some 2) "Equipo 2") = 1%nat
  /\ (length <$> _round_robin_pairs teams) = [1; 1; 1]%nat.
Proof.
  intros teams.
  destruct (round_robin_odd teams) as (Hrounds & Hpairs & _).
  - vm_compute. repeat (apply NoDup_cons; split;
      [rewrite ?elem_of_cons, elem_of_nil; intuition discriminate |]).
    apply NoDup_nil_2.
  - reflexivity.
  - repeat (apply Forall_cons; split; [discriminate |]). apply Forall_nil_2.
  - split; [exact Hrounds |]. split; [| vm_compute; reflexivity].
    apply Hpairs; [left | do 2 right; left | discriminate].
Defined.

Section EvenCount.
Local Open Scope nat_scope.
Variables (teams : list Team) (h : nat).
Hypothesis Hdistinct : NoDup teams.
Hypothesis Hlen : length teams = 2 * h.
Hypothesis Hh : 1 <= h.
Hypothesis Hnames : Forall (fun t => nombre t <> "BYE"%string) teams.

Lemma even_cell_full r i :
  r < 2 * h - 1 -> i < h -> length (cell teams (2 * h) r i) = 1.
Proof.
  intros Hr Hi. unfold cell.
  assert (Hreal : forall q, q < 2 * h ->
            nombre (teams !!! src (2 * h) r q) <> "BYE"%string).
  { intros q Hq. rewrite Forall_forall in Hnames. apply Hnames.
    apply list_elem_of_lookup_total_2. rewrite Hlen. apply src_bound; lia. }
  assert (E : String.eqb (nombre (teams !!! src (2 * h) r i)) "BYE"
              || String.eqb
                   (nombre (teams !!! src (2 * h) r (2 * h - 1 - i))) "BYE"
              = false).
  { apply orb_false_iff. split; apply String.eqb_neq, Hreal; lia. }
  now rewrite E.
Qed.

Lemma even_round_shape round :
  round ∈ _round_robin_pairs teams ->
  2 * length round = length teams
  /\ forall t, t ∈ teams -> appearances round t = 1.
Proof.
  rewrite (even_unpadded teams h Hlen Hh), (padded_rounds teams h Hlen Hh).
  intros (r & -> & Hr%elem_of_seq)%list_elem_of_fmap. split.
  - rewrite length_concat_singletons, length_seq; [lia |].
    intros i Hi%elem_of_seq. apply even_cell_full; lia.
  - intros t [it Ht]%list_elem_of_lookup.
    assert (Hit : it < 2 * h) by (apply lookup_lt_Some in Ht; lia).
    apply list_lookup_total_correct in Ht. subst t.
    destruct (appearances_cell teams h Hdistinct Hlen Hh r it)
      as (i0 & Hi0 & -> & _); try lia.
    apply even_cell_full; lia.
Qed.
End EvenCount.

(** X16. For an even number S of distinct teams, none of them named BYE,
    every round of [_round_robin_pairs] holds S / 2 matches and every team
    plays in exactly one of them. *)
Theorem round_robin_even_rounds (teams : list Team) :
  NoDup teams ->
  Nat.even (length teams) = true ->
  Forall (fun t => nombre t <> "BYE"%string) teams ->
  Forall
    (fun round =>
       (2 * length round)%nat = length teams
       /\ forall t, t ∈ teams -> appearances round t = 1%nat)
    (_round_robin_pairs teams).
Proof.
  intros Hnd Heven Hnames.
  apply Nat.even_spec in Heven as [h Hh].
  destruct (Nat.eq_dec h 0%nat) as [-> | Hpos].
  { destruct teams; [apply Forall_nil_2 | discriminate]. }
  apply Forall_forall. intros round Hr.
  apply (even_round_shape teams h); try assumption. lia.
Qed.

(** Four teams: three rounds of two matches. *)
Lemma round_robin_even_rounds_witness :
  let teams := (fun i => mkTeam (Some i) ("Equipo " ++ pretty i)%string)
               <$> [0; 1; 2; 3] in
  (length <$> _round_robin_pairs teams) = [2; 2; 2]%nat
  /\ Forall
       (fun round =>
          (2 * length round)%nat = length teams
          /\ forall t, t ∈ teams -> appearances round t = 1%nat)
       (_round_robin_pairs teams).
Proof.
  intros teams. split; [vm_compute; reflexivity |].
  apply (round_robin_even_rounds teams).
  - vm_compute. repeat (apply NoDup_cons; split;
      [rewrite ?elem_of_cons, elem_of_nil; intuition discriminate |]).
    apply NoDup_nil_2.
  - reflexivity.
  - repeat (apply Forall_cons; split; [discriminate |]). apply Forall_nil_2.
Defined.

(** ** Slot builder: numbering, dates and distinct bookings *)

Lemma result_fold_app {A S} (f : S -> A -> result S) l1 l2 s :
  result_fold f (l1 ++ l2) s
  = (s' ← result_fold f l1 s; result_fold f l2 s').
Proof.
  revert s. induction l1 as [| a r IH]; intros s; simpl; [reflexivity |].
  destruct (f s a) as [s1 | e]; simpl; [apply IH | reflexivity].
Qed.

Lemma range_snoc (k : nat) :
  range (Z.of_nat (S k)) = range (Z.of_nat k) ++ [Z.of_nat k].
Proof.
  unfold range. rewrite !Nat2Z.id, seq_S, fmap_app. reflexivity.
Qed.

(** A loop over [range(n)] that returns has kept every invariant that its
    iterations keep. *)
Lemma result_fold_range {St} (f : St -> Z -> result St) (I : Z -> St -> Prop)
    n s0 sN :
  I 0 s0 ->
  (forall i s s', 0 <= i < n -> I i s -> f s i = Ok s' -> I (i + 1) s') ->
  result_fold f (range n) s0 = Ok sN -> I (Z.max n 0) sN.
Proof.
  intros H0 Hstep.
  assert (H : forall (k : nat) s, Z.of_nat k <= Z.max n 0 ->
            result_fold f (range (Z.of_nat k)) s0 = Ok s -> I (Z.of_nat k) s).
  { induction k as [| k IH]; intros s Hk E.
    - simpl in E. injection E as <-. exact H0.
    - rewrite range_snoc, result_fold_app in E.
      destruct (result_fold f (range (Z.of_nat k)) s0) as [s1 | e] eqn:E1;
        [| discriminate].
      simpl in E. destruct (f s1 (Z.of_nat k)) as [s2 | e] eqn:E2;
        [| discriminate].
      simpl in E. injection E as <-.
      replace (Z.of_nat (S k)) with (Z.of_nat k + 1) by lia.
      apply (Hstep _ s1); [lia | apply IH; [lia | reflexivity] | exact E2]. }
  intros E.
  replace (Z.max n 0) with (Z.of_nat (Z.to_nat n)) by lia.
  apply H; [lia |].
  unfold range in *. now rewrite Nat2Z.id.
Qed.

Lemma add_venue_slots_imap d t cd h1 h2 venues slots idx :
  add_venue_slots d t cd h1 h2 venues (slots, idx)
  = (slots ++ imap (fun j v => Slot.mk (idx + Z.of_nat j) d t cd h1 h2 v) venues,
     idx + Z.of_nat (length venues)).
Proof.
  unfold add_venue_slots. revert slots idx.
  induction venues as [| v vs IH]; intros slots idx.
  - simpl. rewrite app_nil_r. f_equal. lia.
  - cbn [fold_left]. rewrite IH. cbn [imap length].
    rewrite <- (assoc_L (++)). cbn [app]. f_equal.
    + f_equal. rewrite Z.add_0_r. f_equal.
      apply imap_ext. intros j x _. simpl. f_equal. lia.
    + lia.
Qed.

Lemma slot_window_start start_minutes duration_minutes time_index w :
  slot_window start_minutes duration_minutes time_index = Ok w ->
  minutes_of w.1 = start_minutes + time_index * duration_minutes.
Proof.
  unfold slot_window.
  set (st := start_minutes + time_index * duration_minutes).
  destruct (make_time (st / 60) (st mod 60)) as [hi |] eqn:Ehi;
    cbn [mbind result_bind]; [| intros [=]].
  unfold make_time in Ehi. destruct (_ && _) in Ehi; [| discriminate].
  injection Ehi as <-.
  destruct (_ >? _); [intros [=] |].
  destruct (make_time _ _) as [hf |]; cbn [mbind result_bind]; [| intros [=]].
  intros [= <-]. cbn [fst]. apply minutes_of_make.
Qed.

Section SlotLoops.
Variables (start_date : date) (start_minutes duration_minutes slots_per_day : Z)
  (venues : list Venue).
Hypothesis Hspd : 1 <= slots_per_day.

Let placed := slots_placed start_date start_minutes duration_minutes
                slots_per_day venues.
Let nv := Z.of_nat (length venues).

Lemma time_loop_placed d t acc acc' :
  0 <= d -> 0 <= t < slots_per_day ->
  placed ((d * slots_per_day + t) * nv) acc ->
  time_loop start_date start_minutes duration_minutes venues d acc t = Ok acc' ->
  placed ((d * slots_per_day + (t + 1)) * nv) acc'.
Proof.
  intros Hd Ht (Hnext & Hlen & Hall). unfold time_loop.
  destruct (slot_window _ _ _) as [w |] eqn:Ew; [| discriminate].
  simpl. intros [= <-]. destruct acc as [slots idx]. simpl in *.
  rewrite add_venue_slots_imap. unfold placed, slots_placed. simpl.
  split; [subst nv; lia |].
  split; [rewrite length_app, length_imap; subst nv; lia |].
  intros i s Hi. apply lookup_app_Some in Hi as [Hi | [Hge Hi]].
  - now apply Hall.
  - rewrite list_lookup_imap in Hi.
    destruct (venues !! (i - length slots)%nat) as [v |] eqn:Ev;
      [| discriminate].
    simpl in Hi. injection Hi as <-.
    unfold slot_placed. simpl.
    split; [lia |]. split; [reflexivity |]. split; [exact Hd |].
    split; [exact Ht |]. split; [now apply slot_window_start |].
    exists (i - length slots)%nat. split; [exact Ev |]. subst nv. lia.
Qed.

Lemma day_loop_placed d acc acc' :
  0 <= d ->
  placed (d * slots_per_day * nv) acc ->
  day_loop start_date start_minutes duration_minutes slots_per_day venues acc d
    = Ok acc' ->
  placed ((d + 1) * slots_per_day * nv) acc'.
Proof.
  intros Hd Hacc E. unfold day_loop in E.
  apply (result_fold_range _
           (fun t a => placed ((d * slots_per_day + t) * nv) a)) in E.
  - replace (Z.max slots_per_day 0) with slots_per_day in E by lia.
    replace ((d + 1) * slots_per_day * nv)
      with ((d * slots_per_day + slots_per_day) * nv) by lia.
    exact E.
  - now rewrite Z.add_0_r.
  - intros t s s' Ht Hs Es. now apply (time_loop_placed d t s).
Qed.

Lemma days_placed total_days acc :
  1 <= total_days ->
  result_fold
    (day_loop start_date start_minutes duration_minutes slots_per_day venues)
    (range total_days) ([], 0) = Ok acc ->
  placed (total_days * slots_per_day * nv) acc.
Proof.
  intros Hdays E.
  apply (result_fold_range _
           (fun d a => placed (d * slots_per_day * nv) a)) in E.
  - now replace (Z.max total_days 0) with total_days in E by lia.
  - split; [reflexivity |]. split; [reflexivity |]. intros i s Hi. discriminate.
  - intros d s s' Hd Hs Es. now apply (day_loop_placed d s).
Qed.
End SlotLoops.

(** What a returned slot list is made of. *)
Lemma build_slots_placed start_date end_date config venues slots :
  build_slots start_date end_date config venues = Ok slots ->
  start_date <= end_date
  /\ ScheduleConfig.duracion_horas config * 60 <> 0
  /\ slots_placed start_date
       (minutes_of (ScheduleConfig.hora_inicio config))
       (ScheduleConfig.duracion_horas config * 60)
       (slots_per_day_of config) venues
       ((end_date - start_date + 1) * slots_per_day_of config
        * Z.of_nat (length venues))
       (slots, (end_date - start_date + 1) * slots_per_day_of config
               * Z.of_nat (length venues)).
Proof.
  unfold build_slots.
  destruct (Z.gtb_spec start_date end_date) as [| Hdates]; [discriminate |].
  destruct (_ <? _); [discriminate |].
  destruct (Z.eqb_spec (ScheduleConfig.duracion_horas config * 60) 0)
    as [| Hdur]; [discriminate |].
  fold (slots_per_day_of config).
  destruct (result_fold _ _ _) as [acc |] eqn:E; [| discriminate].
  simpl. intros [= <-].
  split; [exact Hdates |]. split; [exact Hdur |].
  apply days_placed in E; [| unfold slots_per_day_of; lia | lia].
  destruct acc as [slots idx]. destruct E as (Hnext & Hlen & Hall).
  simpl in *. subst idx. split; [reflexivity |]. split; [exact Hlen | exact Hall].
Qed.

(** X17. Whatever slot list [build_slots] returns counts days, then the
    times of a day, then the venues: it has (days of the window) x (slots
    per day) x (venues) entries; the slot at position i has index i; its
    date is the start date plus its day index and lies in the window; its
    time index is below the slots per day; and its venue is one of the
    venues given. *)
Theorem build_slots_layout start_date end_date config venues slots :
  build_slots start_date end_date config venues = Ok slots ->
  Z.of_nat (length slots)
    = (end_date - start_date + 1) * slots_per_day_of config
      * Z.of_nat (length venues)
  /\ forall (i : nat) s, slots !! i = Some s ->
       Slot.index s = Z.of_nat i
       /\ Slot.fecha s = start_date + Slot.day_index s
       /\ start_date <= Slot.fecha s <= end_date
       /\ 0 <= Slot.time_index s < slots_per_day_of config
       /\ Slot.venue s ∈ venues.
Proof.
  intros E. apply build_slots_placed in E as (Hdates & Hdur & _ & Hlen & Hall).
  simpl in Hlen, Hall. split; [exact Hlen |].
  intros i s Hi.
  pose proof (lookup_lt_Some _ _ _ Hi) as Hlt.
  destruct (Hall i s Hi) as (Hidx & Hfecha & Hday & Htime & _ & j & Hj & Hpos).
  pose proof (lookup_lt_Some _ _ _ Hj) as Hjlt.
  split; [exact Hidx |]. split; [exact Hfecha |].
  split; [| split; [exact Htime | eapply list_elem_of_lookup_2; exact Hj]].
  rewrite Hfecha. split; [lia |].
  enough (Slot.day_index s < end_date - start_date + 1) by lia.
  set (V := Z.of_nat (length venues)) in *.
  set (P := slots_per_day_of config) in *.
  assert (HV : 0 < V) by (subst V; lia).
  assert (Hi' : Z.of_nat i < (end_date - start_date + 1) * P * V) by lia.
  destruct (Z.lt_ge_cases (Slot.day_index s) (end_date - start_date + 1))
    as [| Hge]; [assumption | exfalso].
  assert ((end_date - start_date + 1) * P * V
          <= Slot.day_index s * P * V) by nia.
  nia.
Qed.

Lemma build_slots_layout_witness :
  Z.of_nat (length example_slots) = 16
  /\ forall (i : nat) s, example_slots !! i = Some s ->
       Slot.index s = Z.of_nat i /\ 100 <= Slot.fecha s <= 103.
Proof.
  destruct (build_slots_layout 100 103 example_config example_venues
              example_slots) as [Hlen Hall]; [vm_compute; reflexivity |].
  split; [exact Hlen |].
  intros i s Hi. destruct (Hall i s Hi) as (Hidx & _ & Hdate & _).
  split; assumption.
Defined.

(** X18. In a returned slot list no booking is offered twice: when the
    venues have pairwise different ids, two list positions that agree on
    date, start time and venue id are the same position. *)
Theorem build_slots_distinct start_date end_date config venues slots :
  build_slots start_date end_date config venues = Ok slots ->
  NoDup (venue_id <$> venues) ->
  forall (i i' : nat) s s',
    slots !! i = Some s -> slots !! i' = Some s' ->
    Slot.fecha s = Slot.fecha s' ->
    Slot.hora_inicio s = Slot.hora_inicio s' ->
    venue_id (Slot.venue s) = venue_id (Slot.venue s') ->
    i = i'.
Proof.
  intros E Hnd i i' s s' Hi Hi' Hf Hh Hv.
  apply build_slots_placed in E as (_ & Hdur & _ & _ & Hall). simpl in Hall.
  destruct (Hall i s Hi) as (_ & Hfs & _ & _ & Hms & j & Hj & Hpos).
  destruct (Hall i' s' Hi') as (_ & Hfs' & _ & _ & Hms' & j' & Hj' & Hpos').
  assert (Hday : Slot.day_index s = Slot.day_index s') by lia.
  assert (Htime : Slot.time_index s = Slot.time_index s').
  { rewrite Hh in Hms. rewrite Hms in Hms'.
    assert (H : (Slot.time_index s - Slot.time_index s')
                * (ScheduleConfig.duracion_horas config * 60) = 0) by lia.
    apply Z.mul_eq_0 in H as [H | H]; lia. }
  assert (Hjj : j = j').
  { apply (NoDup_lookup (venue_id <$> venues) j j'
             (venue_id (Slot.venue s)) Hnd).
    - now rewrite list_lookup_fmap, Hj.
    - now rewrite list_lookup_fmap, Hj', Hv. }
  subst j'. rewrite Hday, Htime in Hpos. lia.
Qed.

Lemma build_slots_distinct_witness :
  length example_slots = 16%nat
  /\ forall (i i' : nat) s s',
       example_slots !! i = Some s -> example_slots !! i' = Some s' ->
       Slot.fecha s = Slot.fecha s' ->
       Slot.hora_inicio s = Slot.hora_inicio s' ->
       venue_id (Slot.venue s) = venue_id (Slot.venue s') ->
       i = i'.
Proof.
  split; [reflexivity |].
  apply (build_slots_distinct 100 103 example_config example_venues
           example_slots).
  - vm_compute. reflexivity.
  - vm_compute. repeat (apply NoDup_cons; split;
      [rewrite ?elem_of_cons, elem_of_nil; intuition discriminate |]).
    apply NoDup_nil_2.
Defined.

(** ** Event mapping *)

(** With [PyStr.lower] for the name key, the parametric mapping is
    [_map_teams]. *)
Lemma map_teams_by_lower registrations :
  _map_teams_by PyStr.lower registrations = _map_teams registrations.
Proof. reflexivity. Qed.

(** X19. [_map_teams] fails exactly when there are fewer than two
    registrations; otherwise it returns one team per registration (the
    registration id and team name), rearranged so that no team's
    lower-cased name is strictly before that of the team listed before
    it, whatever lower-casing [str.lower] applies to the names. *)
Theorem map_teams_sorted (str_lower : string -> string) registrations :
  match _map_teams_by str_lower registrations with
  | Ok teams =>
      (2 <= length registrations)%nat
      /\ teams ≡ₚ team_of_registration <$> registrations
      /\ ordered (name_lt_by str_lower) teams = true
  | Raise e => (length registrations < 2)%nat /\ e = too_few_teams_error
  end.
Proof.
  unfold _map_teams_by.
  rewrite length_stable_sort, length_fmap.
  destruct (Nat.ltb_spec (length registrations) 2) as [Hlt | Hge].
  - split; [exact Hlt | reflexivity].
  - split; [exact Hge |]. split; [apply stable_sort_perm |].
    apply (ordered_stable_sort (name_lt_by str_lower)).
    intros a b. apply string_ltb_asym.
Qed.

(** ** Calendars: what the scheduled matches inherit from slots and solver *)

Lemma omap_lookup_total {A B} (f : A -> option B) (l : list A) (i : nat) :
  (forall x, x ∈ l -> is_Some (f x)) -> omap f l !! i = l !! i ≫= f.
Proof.
  revert i. induction l as [| a r IH]; intros i H; [reflexivity |].
  destruct (H a) as [b Hb]; [left |].
  cbn [omap list_omap]. rewrite Hb.
  destruct i as [| i]; simpl; [now rewrite Hb |].
  apply IH. intros x Hx. apply H. now right.
Qed.

(** Two positions of the match list never share a slot, and two matches
    of one team are a rest period apart. *)
Lemma solve_schedule_pairs (Solve : Solver) matches slots config solution :
  solver_sound Solve ->
  solve_schedule Solve matches slots config = Ok solution ->
  forall i j mi mj si sj,
    i <> j ->
    matches !! i = Some mi -> matches !! j = Some mj ->
    solution !! MatchDefinition.internal_id mi = Some si ->
    solution !! MatchDefinition.internal_id mj = Some sj ->
    Slot.index si <> Slot.index sj
    /\ forall team,
         plays team mi = true -> plays team mj = true ->
         Z.max (ScheduleConfig.descanso_min_dias config) 0 + 1
           <= Z.abs (Slot.day_index si - Slot.day_index sj).
Proof.
  intros Hsound Hsol.
  destruct (solve_schedule_Ok _ _ _ _ _ Hsound Hsol)
    as [[-> ->] | (v & max_day & Hfeas & ->)].
  { intros i j mi mj si sj _ Hi. discriminate. }
  intros i j mi mj si sj Hij Hi Hj Hsi Hsj.
  rewrite extract_solution_of_match in Hsi, Hsj
    by (eapply list_elem_of_lookup_2; eassumption).
  split.
  - intros Heq.
    destruct (assigned_slot_Some _ _ _ _ Hsi) as [Hin Hvi].
    destruct (assigned_slot_Some _ _ _ _ Hsj) as [_ Hvj].
    rewrite <- Heq in Hvj.
    exact (sat_capacity v matches slots config max_day Hfeas
             i j mi mj si Hij Hi Hj Hin Hvi Hvj).
  - intros team Hpi Hpj.
    exact (sat_rest v matches slots config max_day Hfeas team i j mi mj si sj
             Hij Hi Hj Hpi Hpj Hsi Hsj).
Qed.

Lemma build_slots_member start_date end_date config venues slots s :
  build_slots start_date end_date config venues = Ok slots ->
  s ∈ slots ->
  Slot.fecha s = start_date + Slot.day_index s
  /\ start_date <= Slot.fecha s <= end_date
  /\ Slot.venue s ∈ venues.
Proof.
  intros E [i Hi]%list_elem_of_lookup.
  apply build_slots_placed in E as (Hdates & Hdur & _ & Hlen & Hall).
  simpl in Hlen, Hall.
  pose proof (lookup_lt_Some _ _ _ Hi) as Hlt.
  destruct (Hall i s Hi) as (Hidx & Hfecha & Hday & Htime & _ & j & Hj & Hpos).
  pose proof (lookup_lt_Some _ _ _ Hj) as Hjlt.
  split; [exact Hfecha |].
  split; [| eapply list_elem_of_lookup_2; exact Hj].
  rewrite Hfecha. split; [lia |].
  enough (Slot.day_index s < end_date - start_date + 1) by lia.
  set (V := Z.of_nat (length venues)) in *.
  set (P := slots_per_day_of config) in *.
  assert (HV : 0 < V) by (subst V; lia).
  assert (Hi' : Z.of_nat i < (end_date - start_date + 1) * P * V) by lia.
  destruct (Z.lt_ge_cases (Slot.day_index s) (end_date - start_date + 1))
    as [| Hge]; [assumption | exfalso].
  assert ((end_date - start_date + 1) * P * V
          <= Slot.day_index s * P * V) by nia.
  nia.
Qed.

Lemma build_slots_same_booking start_date end_date config venues slots s s' :
  build_slots start_date end_date config venues = Ok slots ->
  NoDup (venue_id <$> venues) ->
  s ∈ slots -> s' ∈ slots ->
  slot_booking s = slot_booking s' -> s = s'.
Proof.
  intros E Hnd [i Hi]%list_elem_of_lookup [i' Hi']%list_elem_of_lookup
    [= Hf Hh Hv].
  apply build_slots_placed in E as (_ & Hdur & _ & _ & Hall). simpl in Hall.
  destruct (Hall i s Hi) as (_ & Hfs & _ & _ & Hms & j & Hj & Hpos).
  destruct (Hall i' s' Hi') as (_ & Hfs' & _ & _ & Hms' & j' & Hj' & Hpos').
  assert (Hday : Slot.day_index s = Slot.day_index s') by lia.
  assert (Htime : Slot.time_index s = Slot.time_index s').
  { rewrite Hh in Hms. rewrite Hms in Hms'.
    assert (H : (Slot.time_index s - Slot.time_index s')
                * (ScheduleConfig.duracion_horas config * 60) = 0) by lia.
    apply Z.mul_eq_0 in H as [H | H]; lia. }
  assert (Hjj : j = j').
  { apply (NoDup_lookup (venue_id <$> venues) j j'
             (venue_id (Slot.venue s)) Hnd).
    - now rewrite list_lookup_fmap, Hj.
    - now rewrite list_lookup_fmap, Hj', Hv. }
  subst j'. rewrite Hday, Htime in Hpos.
  assert (i = i') by lia. subst i'. congruence.
Qed.

Section Calendar.
Variables (Solve : Solver) (dto : MatchDefinition -> Slot -> PartidoDTO)
  (matches : list MatchDefinition) (slots0 slots : list Slot)
  (config : ScheduleConfig) (start_date end_date : date)
  (venues : list Venue) (solution : gmap Z Slot).
Hypothesis Hsound : solver_sound Solve.
Hypothesis Hbuilt : build_slots start_date end_date config venues = Ok slots0.
Hypothesis Hsub : forall s, s ∈ slots -> s ∈ slots0.
Hypothesis Hsol : solve_schedule Solve matches slots config = Ok solution.
Hypothesis Hbooking : forall m s, booking (dto m s) = slot_booking s.
Hypothesis Hlocal : forall m s,
  PartidoDTO.equipo_local_id (dto m s) = real_id (MatchDefinition.local m).
Hypothesis Hvisitor : forall m s,
  PartidoDTO.equipo_visitante_id (dto m s)
  = real_id (MatchDefinition.visitante m).

Let unsorted : list PartidoDTO :=
  omap (fun m => dto m <$> solution !! MatchDefinition.internal_id m) matches.

Lemma unsorted_lookup i d :
  unsorted !! i = Some d ->
  exists m s, matches !! i = Some m
    /\ solution !! MatchDefinition.internal_id m = Some s
    /\ s ∈ slots /\ d = dto m s.
Proof.
  unfold unsorted. rewrite omap_lookup_total.
  - destruct (matches !! i) as [m |] eqn:Em; [| discriminate]. simpl.
    destruct (solve_schedule_places _ _ _ _ _ Hsound Hsol m) as (s & Hs & Es);
      [eapply list_elem_of_lookup_2; exact Em |].
    rewrite Es. simpl. intros [= <-]. now exists m, s.
  - intros m Hm.
    destruct (solve_schedule_places _ _ _ _ _ Hsound Hsol m Hm) as (s & _ & Es).
    rewrite Es. simpl. eauto.
Qed.

Lemma calendar_perm : scheduled_dtos dto matches solution ≡ₚ unsorted.
Proof. apply stable_sort_perm. Qed.

Lemma calendar_entry d :
  d ∈ scheduled_dtos dto matches solution ->
  exists i m s, unsorted !! i = Some d /\ matches !! i = Some m
    /\ solution !! MatchDefinition.internal_id m = Some s
    /\ s ∈ slots /\ d = dto m s.
Proof.
  rewrite calendar_perm. intros [i Hi]%list_elem_of_lookup.
  destruct (unsorted_lookup i d Hi) as (m & s & H). exists i, m, s.
  split; [exact Hi | exact H].
Qed.

Lemma calendar_window d :
  d ∈ scheduled_dtos dto matches solution ->
  start_date <= PartidoDTO.fecha d <= end_date
  /\ exists s, s ∈ slots /\ booking d = slot_booking s
               /\ Slot.venue s ∈ venues.
Proof.
  intros (i & m & s & _ & _ & _ & Hs & ->)%calendar_entry.
  destruct (build_slots_member _ _ _ _ _ s Hbuilt (Hsub s Hs))
    as (_ & Hdate & Hvenue).
  pose proof (Hbooking m s) as Hb. unfold booking, slot_booking in Hb.
  injection Hb as Hf _ _. rewrite Hf.
  split; [exact Hdate |]. exists s. now rewrite Hbooking.
Qed.

Lemma calendar_no_double_booking :
  NoDup (venue_id <$> venues) ->
  NoDup (booking <$> scheduled_dtos dto matches solution).
Proof.
  intros Hnd. rewrite calendar_perm. apply NoDup_alt. intros i j b Hi Hj.
  apply list_lookup_fmap_Some in Hi as (di & -> & Hi).
  apply list_lookup_fmap_Some in Hj as (dj & Hb & Hj).
  destruct (unsorted_lookup i di Hi) as (mi & si & Emi & Esi & Hsi & ->).
  destruct (unsorted_lookup j dj Hj) as (mj & sj & Emj & Esj & Hsj & ->).
  destruct (decide (i = j)) as [| Hne]; [assumption | exfalso].
  rewrite !Hbooking in Hb.
  assert (si = sj)
    by (apply (build_slots_same_booking _ _ _ _ _ si sj Hbuilt Hnd); auto).
  subst sj.
  destruct (solve_schedule_pairs _ _ _ _ _ Hsound Hsol i j mi mj si si
              Hne Emi Emj Esi Esj) as [Hidx _].
  now apply Hidx.
Qed.

Lemma dto_plays_match team m s :
  dto_plays team (dto m s) -> plays team m = true.
Proof.
  unfold dto_plays, plays. rewrite Hlocal, Hvisitor.
  intros [H | H]; apply orb_true_iff; [left | right];
    now apply bool_decide_eq_true.
Qed.

Lemma calendar_rest d d' team :
  d ∈ scheduled_dtos dto matches solution ->
  d' ∈ scheduled_dtos dto matches solution ->
  d <> d' -> dto_plays team d -> dto_plays team d' ->
  Z.max (ScheduleConfig.descanso_min_dias config) 0 + 1
    <= Z.abs (PartidoDTO.fecha d - PartidoDTO.fecha d').
Proof.
  intros (i & mi & si & _ & Emi & Esi & Hsi & ->)%calendar_entry
         (j & mj & sj & _ & Emj & Esj & Hsj & ->)%calendar_entry
         Hne Hpi Hpj.
  assert (Hij : i <> j).
  { intros ->. rewrite Emi in Emj. injection Emj as ->.
    rewrite Esi in Esj. injection Esj as ->. now apply Hne. }
  destruct (solve_schedule_pairs _ _ _ _ _ Hsound Hsol i j mi mj si sj
              Hij Emi Emj Esi Esj) as [_ Hrest].
  specialize (Hrest team (dto_plays_match _ _ _ Hpi) (dto_plays_match _ _ _ Hpj)).
  pose proof (Hbooking mi si) as Hbi. pose proof (Hbooking mj sj) as Hbj.
  unfold booking, slot_booking in Hbi, Hbj.
  injection Hbi as Hfi _ _. injection Hbj as Hfj _ _. rewrite Hfi, Hfj.
  destruct (build_slots_member _ _ _ _ _ si Hbuilt (Hsub si Hsi)) as (-> & _).
  destruct (build_slots_member _ _ _ _ _ sj Hbuilt (Hsub sj Hsj)) as (-> & _).
  replace (start_date + Slot.day_index si - (start_date + Slot.day_index sj))
    with (Slot.day_index si - Slot.day_index sj) by lia.
  exact Hrest.
Qed.
End Calendar.

Lemma map_venues_ids escenarios venues :
  _map_venues escenarios = Ok venues ->
  venue_id <$> venues = omap escenario_id escenarios.
Proof.
  unfold _map_venues.
  destruct (omap _ escenarios) as [| v vs] eqn:E; [discriminate |].
  intros [= <-]. rewrite <- E. clear E.
  induction escenarios as [| e es IH]; [reflexivity |].
  cbn [omap list_omap]. destruct (escenario_id e) as [i |].
  - cbn [fmap option_fmap option_map]. rewrite fmap_cons. f_equal. exact IH.
  - exact IH.
Qed.

Lemma map_venues_known escenarios venues v :
  _map_venues escenarios = Ok venues -> v ∈ venues ->
  Some (venue_id v) ∈ escenario_id <$> escenarios.
Proof.
  intros E Hv. apply map_venues_ids in E.
  assert (H : venue_id v ∈ omap escenario_id escenarios).
  { rewrite <- E. apply list_elem_of_fmap. now exists v. }
  apply list_elem_of_omap in H as (e & He & Hid).
  apply list_elem_of_fmap. now exists e.
Qed.

Lemma build_event_schedule_parts (Solve : Solver) event config dtos :
  build_event_schedule Solve event config = Ok dtos ->
  exists inicio fin venues slots matches solution,
    fecha_campeonato_inicio event = Some inicio
    /\ fecha_campeonato_fin event = Some fin
    /\ _map_venues (escenarios event) = Ok venues
    /\ build_slots inicio fin config venues = Ok slots
    /\ solve_schedule Solve matches slots config = Ok solution
    /\ (dtos = [] \/ dtos = scheduled_dtos full_schedule_dto matches solution).
Proof.
  unfold build_event_schedule, _ensure_event_ready.
  destruct (fecha_campeonato_inicio event) as [inicio |]; [| discriminate].
  destruct (fecha_campeonato_fin event) as [fin |]; [| discriminate].
  destruct (inicio >? fin); [discriminate |].
  destruct (escenarios event) as [| e es] eqn:Ees; [discriminate |].
  cbn [mbind result_bind].
  destruct (_map_teams _) as [teams |]; [| discriminate].
  cbn [mbind result_bind].
  destruct (determine_tournament_structure _) as [structure |]; [| discriminate].
  cbn [mbind result_bind].
  destruct (_build_series_assignments _ _) as [assignments |]; [| discriminate].
  cbn [mbind result_bind].
  destruct (_map_venues _) as [venues |] eqn:Ev; [| discriminate].
  cbn [mbind result_bind fst snd].
  destruct (build_slots _ _ _ _) as [slots |] eqn:Es; [| discriminate].
  cbn [mbind result_bind].
  destruct (_ <? _)%nat; [discriminate |].
  destruct (solve_schedule _ _ _ _) as [solution |] eqn:Esol; [| discriminate].
  cbn [mbind result_bind].
  intros H.
  exists inicio, fin, venues, slots, (build_matches structure assignments),
    solution.
  repeat (split; [first [reflexivity | eassumption] |]).
  destruct (bool_decide _); injection H as <-; [now left | now right].
Qed.

(** X20. Every calendar that [build_event_schedule] returns stays inside
    the championship: each match is dated within the championship dates and
    played on a venue of the event; and when the venues have pairwise
    different ids no two matches share date, start time and venue. *)
Theorem build_event_schedule_calendar (Solve : Solver) event config dtos :
  solver_sound Solve ->
  build_event_schedule Solve event config = Ok dtos ->
  exists inicio fin,
    fecha_campeonato_inicio event = Some inicio
    /\ fecha_campeonato_fin event = Some fin
    /\ (forall d, d ∈ dtos ->
          inicio <= PartidoDTO.fecha d <= fin
          /\ Some (PartidoDTO.escenario_evento_id d)
             ∈ escenario_id <$> escenarios event)
    /\ (NoDup (omap escenario_id (escenarios event)) ->
        NoDup (booking <$> dtos)).
Proof.
  intros Hsound E.
  apply build_event_schedule_parts in E
    as (inicio & fin & venues & slots & matches & solution
        & Hi & Hf & Ev & Es & Esol & Hd).
  exists inicio, fin. split; [exact Hi |]. split; [exact Hf |].
  destruct Hd as [-> | ->].
  { split; [intros d Hd; inversion Hd | intros _; apply NoDup_nil_2]. }
  split.
  - intros d Hd.
    destruct (calendar_window Solve full_schedule_dto matches slots slots
                config inicio fin venues solution Hsound Es (fun s H => H)
                Esol (fun m s => eq_refl) d Hd)
      as (Hdate & s & _ & Hb & Hv).
    split; [exact Hdate |].
    injection Hb as _ _ ->. exact (map_venues_known _ _ _ Ev Hv).
  - intros Hnd. rewrite <- (map_venues_ids _ _ Ev) in Hnd.
    exact (calendar_no_double_booking Solve full_schedule_dto matches slots
             slots config inicio fin venues solution Hsound Es (fun s H => H)
             Esol (fun m s => eq_refl) Hnd).
Qed.

Lemma build_event_schedule_calendar_witness :
  exists dtos,
    build_event_schedule (checking_solver example_valuation)
      example_event example_config = Ok dtos
    /\ (forall d, d ∈ dtos -> 100 <= PartidoDTO.fecha d <= 103)
    /\ NoDup (booking <$> dtos).
Proof.
  destruct (build_event_schedule (checking_solver example_valuation)
              example_event example_config) as [dtos | e] eqn:E;
    [| vm_compute in E; discriminate].
  exists dtos. split; [reflexivity |].
  destruct (build_event_schedule_calendar (checking_solver example_valuation)
              example_event example_config dtos)
    as (inicio & fin & Hi & Hf & Hin & Hnd);
    [apply checking_solver_sound | exact E |].
  injection Hi as <-. injection Hf as <-. split.
  - intros d Hd. exact (proj1 (Hin d Hd)).
  - apply Hnd. vm_compute. repeat (apply NoDup_cons; split;
      [rewrite ?elem_of_cons, elem_of_nil; intuition discriminate |]).
    apply NoDup_nil_2.
Defined.

(** X21. In every calendar that [build_event_schedule] returns, two
    different matches of one team are at least descanso_min_dias + 1 days
    apart (one day when the setting is negative): no team plays twice on
    one date. *)
Theorem build_event_schedule_rested (Solve : Solver) event config dtos :
  solver_sound Solve ->
  build_event_schedule Solve event config = Ok dtos ->
  rested config dtos.
Proof.
  intros Hsound E.
  apply build_event_schedule_parts in E
    as (inicio & fin & venues & slots & matches & solution
        & Hi & Hf & Ev & Es & Esol & Hd).
  destruct Hd as [-> | ->]; [intros d d' team Hd; inversion Hd |].
  intros d d' team.
  exact (calendar_rest Solve full_schedule_dto matches slots slots
           config inicio fin venues solution Hsound Es (fun s H => H)
           Esol (fun m s => eq_refl) (fun m s => eq_refl) (fun m s => eq_refl)
           d d' team).
Qed.

Lemma build_event_schedule_rested_witness :
  exists dtos,
    build_event_schedule (checking_solver example_valuation)
      example_event example_config = Ok dtos
    /\ length dtos = 16%nat
    /\ rested example_config dtos.
Proof.
  destruct (build_event_schedule (checking_solver example_valuation)
              example_event example_config) as [dtos | e] eqn:E;
    [| vm_compute in E; discriminate].
  exists dtos. split; [reflexivity |].
  split; [vm_compute in E; injection E as <-; reflexivity |].
  apply (build_event_schedule_rested (checking_solver example_valuation)
           example_event example_config dtos);
    [apply checking_solver_sound | exact E].
Defined.

Lemma schedule_stage_matches_parts (Solve : Solver) event matches config
    start_date exclude_slots dtos :
  schedule_stage_matches Solve event matches config start_date exclude_slots
    = Ok dtos ->
  exists inicio fin venues slots0 slots solution,
    fecha_campeonato_inicio event = Some inicio
    /\ fecha_campeonato_fin event = Some fin
    /\ _map_venues (escenarios event) = Ok venues
    /\ build_slots (default inicio start_date) fin config venues = Ok slots0
    /\ (forall s, s ∈ slots -> s ∈ slots0 /\ occupied exclude_slots s = false)
    /\ solve_schedule Solve matches slots config = Ok solution
    /\ dtos = scheduled_dtos stage_dto matches solution.
Proof.
  unfold schedule_stage_matches, _ensure_event_ready.
  destruct (fecha_campeonato_inicio event) as [inicio |]; [| discriminate].
  destruct (fecha_campeonato_fin event) as [fin |]; [| discriminate].
  destruct (inicio >? fin); [discriminate |].
  destruct (escenarios event) as [| e es] eqn:Ees; [discriminate |].
  cbn [mbind result_bind].
  destruct (_map_venues _) as [venues |] eqn:Ev; [| discriminate].
  cbn [mbind result_bind fst snd].
  destruct (build_slots _ _ _ _) as [slots0 |] eqn:Es; [| discriminate].
  cbn [mbind result_bind].
  destruct (solve_schedule _ _ _ _) as [solution |] eqn:Esol; [| discriminate].
  cbn [mbind result_bind]. intros [= <-].
  eexists inicio, fin, venues, slots0, _, solution.
  repeat (split; [first [reflexivity | eassumption] |]).
  split; [| split; [exact Esol | reflexivity]].
  intros s Hs. destruct exclude_slots as [| x xs]; [now split |].
  apply list_elem_of_In, filter_In in Hs as [Hin Hocc].
  split; [now apply list_elem_of_In | now apply negb_true_iff in Hocc].
Qed.

(** X22. Whatever [schedule_stage_matches] returns schedules every match
    it was given, each dated from the start date asked for (the
    championship start when none is given) to the championship end and on
    no booking listed in [exclude_slots]; two matches of one team are a
    rest period apart; and when the venues have pairwise different ids no
    two matches share date, start time and venue. *)
Theorem schedule_stage_matches_calendar (Solve : Solver) event matches config
    start_date exclude_slots dtos :
  solver_sound Solve ->
  schedule_stage_matches Solve event matches config start_date exclude_slots
    = Ok dtos ->
  exists inicio fin,
    fecha_campeonato_inicio event = Some inicio
    /\ fecha_campeonato_fin event = Some fin
    /\ length dtos = length matches
    /\ (forall d, d ∈ dtos ->
          default inicio start_date <= PartidoDTO.fecha d <= fin
          /\ collides exclude_slots d = false)
    /\ rested config dtos
    /\ (NoDup (omap escenario_id (escenarios event)) ->
        NoDup (booking <$> dtos)).
Proof.
  intros Hsound E.
  apply schedule_stage_matches_parts in E
    as (inicio & fin & venues & slots0 & slots & solution
        & Hi & Hf & Ev & Es & Hsub & Esol & ->).
  exists inicio, fin. split; [exact Hi |]. split; [exact Hf |].
  assert (Hsub' : forall s, s ∈ slots -> s ∈ slots0)
    by (intros s Hs; apply (Hsub s Hs)).
  split; [| split; [| split]].
  - apply scheduled_dtos_mirror; [intros; reflexivity |].
    intros m Hm.
    destruct (solve_schedule_places _ _ _ _ _ Hsound Esol m Hm) as (s & _ & H).
    eauto.
  - intros d Hd.
    destruct (calendar_window Solve stage_dto matches slots0 slots
                config _ fin venues solution Hsound Es Hsub'
                Esol (fun m s => eq_refl) d Hd)
      as (Hdate & s & Hs & Hb & _).
    split; [exact Hdate |].
    destruct (Hsub s Hs) as [_ Hocc]. rewrite <- Hocc.
    injection Hb as Hb1 Hb2 Hb3. unfold collides, occupied.
    now rewrite Hb1, Hb2, Hb3.
  - intros d d' team.
    exact (calendar_rest Solve stage_dto matches slots0 slots
             config _ fin venues solution Hsound Es Hsub'
             Esol (fun m s => eq_refl) (fun m s => eq_refl) (fun m s => eq_refl)
             d d' team).
  - intros Hnd. rewrite <- (map_venues_ids _ _ Ev) in Hnd.
    exact (calendar_no_double_booking Solve stage_dto matches slots0 slots
             config _ fin venues solution Hsound Es Hsub'
             Esol (fun m s => eq_refl) Hnd).
Qed.

(** The two semifinals of the worked event, asked to start on its second
    day and to keep off the first venue's booking of that day. *)
Lemma schedule_stage_matches_calendar_witness :
  let exclude := [(101, mkTime 8 0, Some 1)] in
  exists dtos,
    schedule_stage_matches
      (checking_solver
         (placement_valuation unresolved_semifinals
            (List.filter (fun s => negb (occupied exclude s))
               (match build_slots 101 103 example_config example_venues with
                | Ok slots => slots
                | Raise _ => []
                end))
            [(12, 1); (13, 2)]))
      example_event unresolved_semifinals example_config (Some 101) exclude
    = Ok dtos
    /\ length dtos = 2%nat
    /\ (forall d, d ∈ dtos ->
          101 <= PartidoDTO.fecha d <= 103 /\ collides exclude d = false).
Proof.
  intros exclude.
  match goal with
  | |- exists dtos, ?call = Ok dtos /\ _ =>
      destruct call as [dtos | e] eqn:E; [| vm_compute in E; discriminate]
  end.
  exists dtos. split; [reflexivity |].
  apply schedule_stage_matches_calendar in E
    as (inicio & fin & Hi & Hf & Hlen & Hin & _);
    [| apply checking_solver_sound].
  injection Hi as <-. injection Hf as <-.
  split; [exact Hlen | exact Hin].
Defined.

(** ** Stage by stage: what a newly generated stage is made of *)

(** A loop that returns has kept every invariant that its iterations
    keep. *)
Lemma result_fold_inv {A St} (f : St -> A -> result St) (I : St -> Prop) l :
  (forall s a s', a ∈ l -> I s -> f s a = Ok s' -> I s') ->
  forall s sN, I s -> result_fold f l s = Ok sN -> I sN.
Proof.
  induction l as [| a r IH]; intros Hstep s sN Hs; simpl.
  - now intros [= <-].
  - destruct (f s a) as [s1 | e] eqn:E; simpl; [| discriminate].
    apply IH.
    + intros s2 b s3 Hb. apply Hstep. now right.
    + apply (Hstep s a); [left | exact Hs | exact E].
Qed.

Lemma later_date_grows (l : list EventoPartido) (x : Z) :
  exists y, fold_left later_date l (Some x) = Some y /\ x <= y.
Proof.
  revert x. induction l as [| a r IH]; intros x.
  - exists x. split; [reflexivity | lia].
  - cbn [fold_left].
    assert (Hstep : exists x', later_date (Some x) a = Some x' /\ x <= x').
    { unfold later_date. destruct (EventoPartido.fecha a) as [fa |].
      - destruct (Z.gtb_spec fa x); eexists; (split; [reflexivity | lia]).
      - eexists. split; [reflexivity | lia]. }
    destruct Hstep as (x' & -> & Hx').
    destruct (IH x') as (y & Hy & Hle).
    exists y. split; [exact Hy | lia].
Qed.

Lemma last_date_bound (existing_matches : list EventoPartido) last0 m f :
  m ∈ existing_matches -> EventoPartido.fecha m = Some f ->
  exists l, fold_left later_date existing_matches last0 = Some l /\ f <= l.
Proof.
  revert last0. induction existing_matches as [| a r IH]; intros last0 Hin Hf;
    [inversion Hin |].
  cbn [fold_left].
  apply elem_of_cons in Hin as [Heq | Hin].
  - rewrite Heq in Hf.
    assert (Hstep : exists x', later_date last0 a = Some x' /\ f <= x').
    { unfold later_date. rewrite Hf. destruct last0 as [l0 |].
      - destruct (Z.gtb_spec f l0); eexists; (split; [reflexivity | lia]).
      - eexists. split; [reflexivity | lia]. }
    destruct Hstep as (x' & -> & Hx').
    destruct (later_date_grows r x') as (y & Hy & Hle).
    exists y. split; [exact Hy | lia].
  - now apply IH.
Qed.

Lemma generate_event_schedule_parts (Solve : Solver) stage event config
    existing_matches next_stage dtos :
  generate_event_schedule Solve stage event config existing_matches
    = Ok (next_stage, dtos) ->
  stage = "campeonato"%string
  /\ exists definitions stage_start,
       prepare_next_stage (eligible event) existing_matches
         = Ok (next_stage, definitions)
       /\ schedule_stage_matches Solve event definitions config stage_start
            (omap
               (fun m =>
                  f ← EventoPartido.fecha m;
                  h ← EventoPartido.hora m;
                  Some (f, h, EventoPartido.escenario_evento_id m))
               existing_matches)
          = Ok dtos
       /\ forall m f inicio,
            m ∈ existing_matches -> EventoPartido.fecha m = Some f ->
            fecha_campeonato_inicio event = Some inicio ->
            f < default inicio stage_start.
Proof.
  unfold generate_event_schedule.
  destruct (String.eqb_spec stage "campeonato") as [-> | Hne];
    [| discriminate].
  cbn [negb].
  destruct (prepare_next_stage _ _) as [[next definitions] |]; [| discriminate].
  cbn [mbind result_bind fst snd].
  match goal with
  | |- context [fold_left ?step existing_matches None] =>
      change (fold_left step existing_matches None)
        with (fold_left later_date existing_matches None)
  end.
  pose proof (fun m f => last_date_bound existing_matches None m f) as Hlast.
  destruct (fold_left later_date existing_matches None) as [l |] eqn:El.
  - destruct (fecha_campeonato_inicio event) as [inicio |] eqn:Ei;
      [| discriminate].
    cbn [mbind result_bind].
    destruct (schedule_stage_matches _ _ _ _ _ _) as [ms |] eqn:Es;
      [| discriminate].
    cbn [mbind result_bind]. intros [= <- <-].
    split; [reflexivity |]. eexists definitions, _.
    split; [reflexivity |]. split; [exact Es |].
    intros m f inicio' Hm Hf [= <-].
    destruct (Hlast m f Hm Hf) as (l' & [= <-] & Hle). simpl. lia.
  - cbn [mbind result_bind].
    destruct (schedule_stage_matches _ _ _ _ _ _) as [ms |] eqn:Es;
      [| discriminate].
    cbn [mbind result_bind]. intros [= <- <-].
    split; [reflexivity |]. eexists definitions, _.
    split; [reflexivity |]. split; [exact Es |].
    intros m f inicio' Hm Hf _.
    destruct (Hlast m f Hm Hf) as (l' & [=] & _).
Qed.

(** X23. [generate_event_schedule] works only in the stage campeonato,
    and every match it schedules is dated strictly after every dated
    match of the existing fixture, up to the championship end; two new
    matches of one team are a rest period apart. *)
Theorem generate_event_schedule_after_existing (Solve : Solver) stage event
    config existing_matches next_stage dtos :
  solver_sound Solve ->
  generate_event_schedule Solve stage event config existing_matches
    = Ok (next_stage, dtos) ->
  stage = "campeonato"%string
  /\ (forall d m f,
        d ∈ dtos -> m ∈ existing_matches -> EventoPartido.fecha m = Some f ->
        f < PartidoDTO.fecha d)
  /\ (forall d, d ∈ dtos ->
        exists fin, fecha_campeonato_fin event = Some fin
                    /\ PartidoDTO.fecha d <= fin)
  /\ rested config dtos.
Proof.
  intros Hsound E.
  apply generate_event_schedule_parts in E
    as (-> & definitions & stage_start & _ & Es & Hafter).
  split; [reflexivity |].
  pose proof Es as Eparts.
  apply schedule_stage_matches_parts in Eparts
    as (inicio & fin & venues & slots0 & slots & solution
        & Hi & Hf & Ev & Eb & Hsub & Esol & ->).
  assert (Hsub' : forall s, s ∈ slots -> s ∈ slots0)
    by (intros s Hs; apply (Hsub s Hs)).
  assert (Hwin : forall d, d ∈ scheduled_dtos stage_dto definitions solution ->
            default inicio stage_start <= PartidoDTO.fecha d <= fin).
  { intros d Hd.
    exact (proj1 (calendar_window Solve stage_dto definitions slots0 slots
                    config _ fin venues solution Hsound Eb Hsub'
                    Esol (fun m s => eq_refl) d Hd)). }
  split; [| split].
  - intros d m f Hd Hm Hfm.
    specialize (Hafter m f inicio Hm Hfm Hi). specialize (Hwin d Hd). lia.
  - intros d Hd. exists fin.
    split; [exact Hf |]. specialize (Hwin d Hd). lia.
  - intros d d' team.
    exact (calendar_rest Solve stage_dto definitions slots0 slots
             config _ fin venues solution Hsound Eb Hsub'
             Esol (fun m s => eq_refl) (fun m s => eq_refl) (fun m s => eq_refl)
             d d' team).
Qed.

(** The semifinals of the worked event after its finalized group stage. *)
Lemma generate_event_schedule_after_existing_witness :
  exists dtos,
    generate_event_schedule example_semifinal_solver "campeonato"
      example_event example_config example_finalized_fixture
    = Ok ("semifinal"%string, dtos)
    /\ length dtos = 2%nat
    /\ forall d m f,
         d ∈ dtos -> m ∈ example_finalized_fixture ->
         EventoPartido.fecha m = Some f -> f < PartidoDTO.fecha d.
Proof.
  destruct (generate_event_schedule example_semifinal_solver "campeonato"
              example_event example_config example_finalized_fixture)
    as [[next dtos] | e] eqn:E; [| vm_compute in E; discriminate].
  assert (Hnext : next = "semifinal"%string
                  /\ length dtos = 2%nat).
  { vm_compute in E. injection E as <- <-. split; reflexivity. }
  destruct Hnext as [-> Hlen].
  exists dtos. split; [reflexivity |]. split; [exact Hlen |].
  apply (generate_event_schedule_after_existing example_semifinal_solver
           "campeonato" example_event example_config
           example_finalized_fixture "semifinal" dtos).
  - unfold example_semifinal_solver.
    destruct (prepare_next_stage _ _) as [[s defs] |];
      [| intros model v [=]].
    destruct (build_slots _ _ _ _); [| intros model v [=]].
    apply checking_solver_sound.
  - exact E.
Defined.

Lemma prepare_definition_fase next_stage winners_map standings global_rankings
    acc definition acc' (P : MatchDefinition -> Prop) :
  (forall m, MatchDefinition.fase m = MatchDefinition.fase definition -> P m) ->
  Forall P acc.1 ->
  prepare_definition next_stage winners_map standings global_rankings
    acc definition = Ok acc' ->
  Forall P acc'.1.
Proof.
  intros HP Hacc. unfold prepare_definition. destruct acc as [prepared used].
  destruct (resolve_participant _ _ _ _ _ _) as [[lt lp] u1].
  destruct (resolve_participant _ _ _ _ _ _) as [[vt vp] u2].
  destruct (_ && _); [discriminate |].
  intros [= <-]. simpl. apply Forall_app. split; [exact Hacc |].
  apply Forall_singleton. now apply HP.
Qed.

(** The phase test of the stage filter, read on a phase name. *)
Lemma stage_phase_spec fase next_stage :
  String.eqb (PyStr.lower fase) next_stage
  || (String.eqb next_stage "final"
      && String.eqb (PyStr.lower fase) "third_place") = true ->
  PyStr.lower fase = next_stage
  \/ (next_stage = "final"%string
      /\ PyStr.lower fase = "third_place"%string).
Proof.
  intros [H | [H1 H2]%andb_prop]%orb_true_iff.
  - left. now apply String.eqb_eq.
  - right. split; now apply String.eqb_eq.
Qed.

Lemma fallback_final_fase teams team_lookup global_rankings definitions :
  fallback_final teams team_lookup global_rankings = Ok definitions ->
  Forall (fun m => MatchDefinition.fase m = "final"%string) definitions.
Proof.
  unfold fallback_final.
  destruct (sort_standings _) as [| first [| second rest]]; try discriminate.
  intros [= <-]. now apply Forall_singleton.
Qed.

Lemma prepare_next_stage_parts eligible_registrations existing_matches
    next_stage definitions :
  prepare_next_stage eligible_registrations existing_matches
    = Ok (next_stage, definitions) ->
  exists structure,
    determine_tournament_structure (Z.of_nat (length eligible_registrations))
      = Ok structure
    /\ _resolve_next_stage structure existing_matches = Some next_stage
    /\ Forall
         (fun m =>
            PyStr.lower (MatchDefinition.fase m) = next_stage
            \/ (next_stage = "final"%string
                /\ PyStr.lower (MatchDefinition.fase m) = "third_place"%string))
         definitions.
Proof.
  unfold prepare_next_stage.
  destruct (team_of_registration <$> eligible_registrations) as [| t ts] eqn:Et;
    [discriminate |].
  assert (Hlen : length (t :: ts) = length eligible_registrations)
    by (rewrite <- Et; apply length_fmap).
  rewrite Hlen.
  destruct (determine_tournament_structure _) as [structure |]; [| discriminate].
  cbn [mbind result_bind].
  destruct (_resolve_next_stage structure existing_matches) as [next |]
    eqn:Enext; [| discriminate].
  destruct (_build_series_assignments _ _) as [assignments |]; [| discriminate].
  cbn [mbind result_bind].
  set (P := fun m =>
         PyStr.lower (MatchDefinition.fase m) = next
         \/ (next = "final"%string
             /\ PyStr.lower (MatchDefinition.fase m) = "third_place"%string)).
  match goal with
  | |- context [mbind _ (match ?filtered with [] => _ | _ :: _ => _ end)] =>
      assert (Hfiltered : Forall P filtered);
      [| destruct filtered as [| d0 ds] eqn:Efiltered]
  end.
  { apply Forall_forall. intros m Hm.
    apply list_elem_of_In, filter_In in Hm as [_ Hm].
    now apply stage_phase_spec. }
  - destruct (String.eqb_spec next "final") as [-> | Hne];
      cbn [mbind result_bind].
    + destruct (fallback_final _ _ _) as [fallback |] eqn:Efb;
        cbn [mbind result_bind]; [| discriminate].
      apply fallback_final_fase in Efb.
      match goal with
      | |- context [result_fold ?f ?l ?s] =>
          destruct (result_fold f l s) as [prepared |] eqn:Efold;
          [| discriminate]
      end.
      cbn [mbind result_bind]. intros [= <- <-].
      exists structure. split; [reflexivity |]. split; [exact Enext |].
      revert Efold. apply (result_fold_inv _
               (fun acc : list MatchDefinition * gset (option Z) =>
                  Forall P acc.1)).
      * intros s a s' Ha Hs Es.
        eapply prepare_definition_fase; [| exact Hs | exact Es].
        intros m Hm. left. rewrite Hm.
        rewrite Forall_forall in Efb. now rewrite (Efb a Ha).
      * apply Forall_nil_2.
    + cbn [result_fold].
      intros [= <- <-].
      exists structure. split; [reflexivity |]. split; [exact Enext |].
      apply Forall_nil_2.
  - cbn [mbind result_bind].
    match goal with
    | |- context [result_fold ?f ?l ?s] =>
        destruct (result_fold f l s) as [prepared |] eqn:Efold;
        [| discriminate]
    end.
    cbn [mbind result_bind]. intros [= <- <-].
    exists structure. split; [reflexivity |]. split; [exact Enext |].
    revert Efold. apply (result_fold_inv _
               (fun acc : list MatchDefinition * gset (option Z) =>
                  Forall P acc.1)).
    + intros s a s' Ha Hs Es.
      eapply prepare_definition_fase; [| exact Hs | exact Es].
      intros m Hm. rewrite Forall_forall in Hfiltered.
      specialize (Hfiltered a Ha). unfold P in *. now rewrite Hm.
    + apply Forall_nil_2.
Qed.

(** ** The next stage *)

Lemma phase_complete_has_matches matches phase :
  _is_phase_complete matches phase = true ->
  List.filter (in_phase (PyStr.lower phase)) matches <> [].
Proof.
  unfold _is_phase_complete.
  destruct (List.filter _ matches); [discriminate | discriminate].
Qed.

Lemma next_stage_loop_spec matches prev sequence p :
  Forall (fun q => PyStr.lower q = q) sequence ->
  match prev with
  | Some q => _is_phase_complete matches q = true
  | None => True
  end ->
  next_stage_loop matches prev sequence = Some p
  <-> exists pre post,
        sequence = pre ++ p :: post
        /\ Forall (fun q => _is_phase_complete matches q = true) pre
        /\ List.filter (in_phase p) matches = [].
Proof.
  revert prev. induction sequence as [| phase rest IH]; intros prev Hlow Hprev.
  - simpl. split; [discriminate |].
    intros (pre & post & H & _). now destruct pre.
  - apply Forall_cons in Hlow as [Hphase Hlow]. cbn [next_stage_loop].
    destruct (List.filter (in_phase phase) matches) as [| m ms] eqn:Ef.
    + assert (Hres : match prev with
                     | Some prev0 =>
                         if _is_phase_complete matches prev0
                         then Some phase else None
                     | None => Some phase
                     end = Some phase).
      { destruct prev as [q |]; [now rewrite Hprev | reflexivity]. }
      rewrite Hres. split.
      * intros [= <-]. exists [], rest. split; [reflexivity |].
        split; [apply Forall_nil_2 | exact Ef].
      * intros (pre & post & Hseq & Hpre & Hp).
        destruct pre as [| q pre']; simpl in Hseq.
        -- now injection Hseq as <- _.
        -- injection Hseq as <- _.
           apply Forall_cons in Hpre as [Hq _].
           apply phase_complete_has_matches in Hq.
           rewrite Hphase in Hq. contradiction.
    + destruct (_is_phase_complete matches phase) eqn:Ec.
      * rewrite (IH (Some phase) Hlow Ec). split.
        -- intros (pre & post & -> & Hpre & Hp).
           exists (phase :: pre), post. split; [reflexivity |].
           split; [now apply Forall_cons | exact Hp].
        -- intros (pre & post & Hseq & Hpre & Hp).
           destruct pre as [| q pre']; simpl in Hseq.
           ++ injection Hseq as <- _. rewrite Ef in Hp. discriminate.
           ++ injection Hseq as <- ->.
              apply Forall_cons in Hpre as [_ Hpre].
              now exists pre', post.
      * split; [discriminate |].
        intros (pre & post & Hseq & Hpre & Hp).
        destruct pre as [| q pre']; simpl in Hseq.
        -- injection Hseq as <- _. rewrite Ef in Hp. discriminate.
        -- injection Hseq as <- _.
           apply Forall_cons in Hpre as [Hq _]. congruence.
Qed.

Lemma stage_sequence_lower playoff_teams :
  Forall (fun q => PyStr.lower q = q) (resolve_stage_sequence playoff_teams).
Proof.
  unfold resolve_stage_sequence.
  destruct (playoff_teams =? 4);
    [| destruct (playoff_teams =? 8)];
    repeat (apply Forall_cons; split; [reflexivity |]); apply Forall_nil_2.
Qed.

Lemma resolve_next_stage_spec structure matches p :
  _resolve_next_stage structure matches = Some p
  <-> exists pre post,
        resolve_stage_sequence (playoff_teams structure) = pre ++ p :: post
        /\ Forall (fun q => _is_phase_complete matches q = true) pre
        /\ List.filter (in_phase p) matches = [].
Proof.
  unfold _resolve_next_stage. destruct matches as [| m ms].
  - split.
    + intros H. destruct (resolve_stage_sequence _) as [| q rest];
        [discriminate |].
      injection H as ->. exists [], rest.
      split; [reflexivity |]. split; [apply Forall_nil_2 | reflexivity].
    + intros (pre & post & -> & Hpre & _).
      destruct pre as [| q pre']; [reflexivity |].
      apply Forall_cons in Hpre as [Hq _]. discriminate.
  - apply next_stage_loop_spec; [apply stage_sequence_lower | exact I].
Qed.

(** X24. [_resolve_next_stage] offers a phase exactly when it is the first
    phase of the stage sequence that has no match yet and every phase
    before it in the sequence has matches, all of them finalized (the
    third-place matches counting with the final). *)
Theorem resolve_next_stage_first_open structure matches phase :
  _resolve_next_stage structure matches = Some phase
  <-> exists pre post,
        resolve_stage_sequence (playoff_teams structure) = pre ++ phase :: post
        /\ Forall (fun q => _is_phase_complete matches q = true) pre
        /\ List.filter (in_phase phase) matches = [].
Proof. apply resolve_next_stage_spec. Qed.

(** X25. [generate_event_schedule] schedules matches of one stage only:
    the stage it reports is the one [_resolve_next_stage] offers for the
    structure of the eligible teams, no match of that stage existed
    before, and every match it schedules belongs to it (third-place
    matches going with the final). *)
Theorem generate_event_schedule_stage (Solve : Solver) stage event config
    existing_matches next_stage dtos :
  solver_sound Solve ->
  generate_event_schedule Solve stage event config existing_matches
    = Ok (next_stage, dtos) ->
  exists structure,
    determine_tournament_structure (Z.of_nat (length (eligible event)))
      = Ok structure
    /\ _resolve_next_stage structure existing_matches = Some next_stage
    /\ List.filter (in_phase next_stage) existing_matches = []
    /\ forall d, d ∈ dtos ->
         PyStr.lower (PartidoDTO.fase d) = next_stage
         \/ (next_stage = "final"%string
             /\ PyStr.lower (PartidoDTO.fase d) = "third_place"%string).
Proof.
  intros Hsound E.
  apply generate_event_schedule_parts in E
    as (_ & definitions & stage_start & Eprep & Es & _).
  apply prepare_next_stage_parts in Eprep as (structure & Est & Enext & Hdefs).
  exists structure. split; [exact Est |]. split; [exact Enext |].
  split.
  { apply resolve_next_stage_spec in Enext as (pre & post & _ & _ & H).
    exact H. }
  apply schedule_stage_matches_parts in Es
    as (inicio & fin & venues & slots0 & slots & solution
        & _ & _ & _ & _ & _ & Esol & ->).
  intros d Hd.
  destruct (scheduled_dtos_mirror stage_dto definitions solution)
    as (_ & _ & Hfrom).
  - intros; reflexivity.
  - intros m Hm.
    destruct (solve_schedule_places _ _ _ _ _ Hsound Esol m Hm) as (s & _ & H).
    eauto.
  - destruct (Hfrom d Hd) as (m & slot & Hm & ->).
    rewrite Forall_forall in Hdefs. exact (Hdefs m Hm).
Qed.

Lemma generate_event_schedule_stage_witness :
  exists dtos,
    generate_event_schedule example_semifinal_solver "campeonato"
      example_event example_config example_finalized_fixture
    = Ok ("semifinal"%string, dtos)
    /\ _resolve_next_stage (mkStructure 2 4) example_finalized_fixture
       = Some "semifinal"%string
    /\ forall d, d ∈ dtos -> PartidoDTO.fase d = "semifinal"%string.
Proof.
  destruct (generate_event_schedule example_semifinal_solver "campeonato"
              example_event example_config example_finalized_fixture)
    as [[next dtos] | e] eqn:E; [| vm_compute in E; discriminate].
  assert (Hnext : next = "semifinal"%string
                  /\ Forall (fun d => PartidoDTO.fase d = "semifinal"%string) dtos).
  { vm_compute in E. injection E as <- <-.
    split; [reflexivity |]. repeat constructor. }
  destruct Hnext as [-> Hfase].
  exists dtos. split; [reflexivity |].
  destruct (generate_event_schedule_stage example_semifinal_solver
              "campeonato" example_event example_config
              example_finalized_fixture "semifinal" dtos)
    as (structure & Est & Enext & _).
  - unfold example_semifinal_solver.
    destruct (prepare_next_stage _ _) as [[s defs] |];
      [| intros model v [=]].
    destruct (build_slots _ _ _ _); [| intros model v [=]].
    apply checking_solver_sound.
  - exact E.
  - vm_compute in Est. injection Est as <-.
    split; [exact Enext |]. now apply Forall_forall.
Defined.

(** ** Event dates and stage *)

Ltac date_cases :=
  repeat match goal with
  | |- context [?a <? ?b] => destruct (Z.ltb_spec a b)
  | |- context [?a <=? ?b] => destruct (Z.leb_spec a b)
  | |- context [?a >? ?b] => destruct (Z.gtb_spec a b)
  | |- context [?a >=? ?b] => destruct (Z.geb_spec a b)
  | H : context [?a <? ?b] |- _ => destruct (Z.ltb_spec a b)
  | H : context [?a <=? ?b] |- _ => destruct (Z.leb_spec a b)
  | H : context [?a >? ?b] |- _ => destruct (Z.gtb_spec a b)
  | H : context [?a >=? ?b] |- _ => destruct (Z.geb_spec a b)
  end.

Lemma validate_event_schedule_Ok dates :
  _validate_event_schedule dates = Ok tt
  <-> exists rs re as_ ae cs ce, dates_in_order dates rs re as_ ae cs ce.
Proof.
  unfold _validate_event_schedule, dates_in_order. split.
  - destruct dates as [[rs |] [re |] [as_ |] [ae |] [cs |] [ce |]];
      cbn [EventDates.registration_start EventDates.registration_end
           EventDates.audit_start EventDates.audit_end
           EventDates.championship_start EventDates.championship_end];
      date_cases; try discriminate; intros _;
      exists rs, re, as_, ae, cs, ce; (split; [reflexivity | lia]).
  - intros (rs & re & as_ & ae & cs & ce & -> & H).
    cbn [EventDates.registration_start EventDates.registration_end
         EventDates.audit_start EventDates.audit_end
         EventDates.championship_start EventDates.championship_end].
    date_cases; try lia; reflexivity.
Qed.

(** X26. [_validate_event_schedule] accepts an event exactly when its six
    dates are all given and strictly increasing: registration opens before
    it closes, the audit starts after that and ends before the
    championship starts, which ends later still.  Its sixth check never
    fires: no dates make it raise the audit-must-end-after-registration
    error. *)
Theorem validate_event_schedule_order dates :
  (_validate_event_schedule dates = Ok tt
   <-> exists rs re as_ ae cs ce, dates_in_order dates rs re as_ ae cs ce)
  /\ _validate_event_schedule dates <> Raise audit_end_error.
Proof.
  split; [apply validate_event_schedule_Ok |].
  unfold _validate_event_schedule.
  destruct dates as [[rs |] [re |] [as_ |] [ae |] [cs |] [ce |]];
    cbn [EventDates.registration_start EventDates.registration_end
         EventDates.audit_start EventDates.audit_end
         EventDates.championship_start EventDates.championship_end];
    date_cases; try lia; discriminate.
Qed.

Lemma calculate_event_stage_ordered dates rs re as_ ae cs ce
    reference_date clock current_state :
  dates_in_order dates rs re as_ ae cs ce ->
  normalized_state current_state <> "archivado"%string ->
  _calculate_event_stage dates reference_date clock current_state
  = stage_by_day rs re as_ ae cs ce (default clock reference_date).
Proof.
  intros (-> & H) Hstate. unfold _calculate_event_stage, stage_by_day.
  destruct (String.eqb_spec (normalized_state current_state) "archivado");
    [contradiction |].
  cbn [EventDates.registration_start EventDates.registration_end
       EventDates.audit_start EventDates.audit_end
       EventDates.championship_start EventDates.championship_end].
  date_cases; try lia; reflexivity.
Qed.



(** X28. With accepted dates, a calendar is generated only while the
    championship runs: when the stage that [generate_event_schedule]
    computes for today falls outside the championship dates, the
    operation raises the stage error, whatever the fixture. *)
Theorem generate_event_schedule_only_in_championship (Solve : Solver) dates
    clock event config existing_matches rs re as_ ae cs ce :
  dates_in_order dates rs re as_ ae cs ce ->
  ~ (cs <= clock <= ce) ->
  generate_event_schedule Solve
    (_calculate_event_stage dates None clock None)
    event config existing_matches
  = Raise stage_gate_error.
Proof.
  intros Hord Hout.
  rewrite (calculate_event_stage_ordered _ _ _ _ _ _ _ None clock None Hord)
    by (vm_compute; discriminate).
  destruct Hord as (_ & H). unfold stage_by_day, generate_event_schedule.
  cbn [default]. date_cases; try lia; reflexivity.
Qed.

Lemma generate_event_schedule_only_in_championship_witness :
  generate_event_schedule example_group_solver
    (_calculate_event_stage
       (EventDates.mk (Some 10) (Some 20) (Some 30) (Some 40)
          (Some 100) (Some 103))
       None 50 None)
    example_event example_config []
  = Raise stage_gate_error.
Proof.
  apply (generate_event_schedule_only_in_championship example_group_solver
           _ 50 example_event example_config [] 10 20 30 40 100 103).
  - split; [reflexivity | lia].
  - lia.
Defined.

(** ** Schedule summary *)

Lemma phase_complete_finalized matches phase :
  _is_phase_complete matches phase = true -> existsb is_finalizado matches = true.
Proof.
  unfold _is_phase_complete.
  destruct (List.filter _ matches) as [| m ms] eqn:E; [discriminate |].
  intros H. cbn [forallb] in H. apply andb_prop in H as [Hm _].
  apply existsb_exists. exists m. split; [| exact Hm].
  assert (Hin : In m (List.filter (in_phase (PyStr.lower phase)) matches))
    by (rewrite E; left; reflexivity).
  now apply filter_In in Hin as [Hin _].
Qed.

(** X29. In the summary [_build_schedule_meta] gives of a fixture, the
    next stage is never one of the completed phases, while every phase
    before it in the stage sequence is; and when some phase is completed
    the fixture has results. *)
Theorem build_schedule_meta_consistent structure matches :
  let meta := _build_schedule_meta structure matches in
  (forall phase, next_stage meta = Some phase ->
     phase ∉ completed_phases meta
     /\ exists pre post,
          resolve_stage_sequence (playoff_teams structure)
            = pre ++ phase :: post
          /\ Forall (fun q => q ∈ completed_phases meta) pre)
  /\ (completed_phases meta <> [] -> has_results meta = true).
Proof.
  intros meta. subst meta. unfold _build_schedule_meta.
  cbn [next_stage completed_phases has_results]. split.
  - intros phase Hnext.
    apply resolve_next_stage_spec in Hnext as (pre & post & Hseq & Hpre & Hnone).
    split.
    + intros Hin. apply list_elem_of_In, filter_In in Hin as [Hin Hc].
      apply phase_complete_has_matches in Hc.
      pose proof (stage_sequence_lower (playoff_teams structure)) as Hlow.
      rewrite Forall_forall in Hlow.
      rewrite (Hlow phase) in Hc by now apply list_elem_of_In.
      contradiction.
    + exists pre, post. split; [exact Hseq |].
      apply Forall_forall. intros q Hq.
      apply list_elem_of_In, filter_In. split.
      * rewrite Hseq. apply in_or_app. left. now apply list_elem_of_In.
      * rewrite Forall_forall in Hpre. now apply Hpre.
  - intros Hne.
    destruct (List.filter _ _) as [| q qs] eqn:E; [contradiction |].
    assert (Hin : In q (List.filter (_is_phase_complete matches)
                          (resolve_stage_sequence (playoff_teams structure))))
      by (rewrite E; left; reflexivity).
    apply filter_In in Hin as [_ Hc].
    exact (phase_complete_finalized _ _ Hc).
Qed.

(** ** Eligible registrations *)

Lemma keep_registration_ok (P : InscripcionRow -> Prop) acc registration :
  (is_Some (row_id registration) -> P registration) ->
  eligible_ok P acc -> eligible_ok P (keep_registration acc registration).
Proof.
  intros HP (Hnd & Hall & Hseen). unfold keep_registration.
  destruct (row_id registration) as [i |] eqn:Ei; [| now split].
  case_bool_decide as Hin; [now split |].
  unfold eligible_ok. simpl. rewrite fmap_app. simpl. split; [| split].
  - apply NoDup_app. split; [exact Hnd |]. split; [| apply NoDup_singleton].
    intros x Hx ->%list_elem_of_singleton. rewrite Ei in Hx.
    now apply Hseen in Hx.
  - apply Forall_app. split; [exact Hall |]. apply Forall_singleton.
    apply HP. eauto.
  - intros j. rewrite elem_of_union, elem_of_singleton, elem_of_app,
      list_elem_of_singleton, Hseen, Ei.
    split.
    + intros [-> | H]; [right; reflexivity | left; exact H].
    + intros [H | [= ->]]; [right; exact H | left; reflexivity].
Qed.

Lemma keep_registration_grows acc registration :
  (forall i, i ∈ acc.2 -> i ∈ (keep_registration acc registration).2)
  /\ (forall i, row_id registration = Some i ->
        i ∈ (keep_registration acc registration).2)
  /\ (acc.1 <> [] -> (keep_registration acc registration).1 <> []).
Proof.
  unfold keep_registration.
  destruct (row_id registration) as [i |]; [| repeat split; auto; discriminate].
  case_bool_decide as Hin.
  - repeat split; auto. now intros j [= <-].
  - simpl. repeat split.
    + intros j Hj. set_solver.
    + intros j [= <-]. set_solver.
    + intros _. now destruct acc.1.
Qed.

Section FirstLoop.
Variable instituciones_invitadas : list Invitacion.
Let P := invited_and_approved instituciones_invitadas.

Lemma collect_invitation_ok acc invitation :
  invitation ∈ instituciones_invitadas ->
  eligible_ok P acc -> eligible_ok P (collect_invitation acc invitation).
Proof.
  intros Hinv. unfold collect_invitation.
  assert (H : forall rows acc0,
    (forall r, r ∈ rows -> r ∈ invitacion_inscripciones invitation) ->
    eligible_ok P acc0 ->
    eligible_ok P
      (fold_left
         (fun acc registration =>
            if negb (invitation_approved invitation)
               && negb (row_aprobado registration)
            then acc else keep_registration acc registration)
         rows acc0)).
  { induction rows as [| r rs IH]; intros acc0 Hsub Hacc; [exact Hacc |].
    cbn [fold_left]. apply IH; [intros x Hx; apply Hsub; now right |].
    destruct (negb _ && negb _) eqn:E; [exact Hacc |].
    apply keep_registration_ok; [| exact Hacc].
    intros Hid. split; [exact Hid |]. exists invitation.
    split; [exact Hinv |]. split; [apply Hsub; left |].
    apply andb_false_iff in E as [E | E]; apply negb_false_iff in E; auto. }
  apply H. auto.
Qed.

Lemma collect_invitation_grows acc invitation :
  (forall i, i ∈ acc.2 -> i ∈ (collect_invitation acc invitation).2)
  /\ (forall r i, r ∈ invitacion_inscripciones invitation ->
        invitation_approved invitation = true \/ row_aprobado r = true ->
        row_id r = Some i -> i ∈ (collect_invitation acc invitation).2)
  /\ (acc.1 <> [] -> (collect_invitation acc invitation).1 <> []).
Proof.
  unfold collect_invitation.
  generalize (invitacion_inscripciones invitation). intros rows. revert acc.
  induction rows as [| r rs IH]; intros acc.
  - repeat split; auto. intros r i Hr. inversion Hr.
  - cbn [fold_left].
    set (acc1 := if negb (invitation_approved invitation)
                    && negb (row_aprobado r)
                 then acc else keep_registration acc r).
    destruct (IH acc1) as (Hmono & Hrows & Hne).
    destruct (keep_registration_grows acc r) as (Kmono & Kid & Kne).
    assert (Hstep : forall i, i ∈ acc.2 -> i ∈ acc1.2).
    { intros i Hi. subst acc1. destruct (_ && _); auto. }
    repeat split.
    + intros i Hi. auto.
    + intros x i [-> | Hx]%elem_of_cons Happ Hid.
      * apply Hmono. subst acc1.
        assert (E : negb (invitation_approved invitation)
                    && negb (row_aprobado r) = false).
        { apply andb_false_iff.
          destruct Happ as [-> | ->]; [left | right]; reflexivity. }
        rewrite E. now apply Kid.
      * now apply (Hrows x).
    + intros Hacc. apply Hne. subst acc1. destruct (_ && _); auto.
Qed.

Lemma first_loop_ok invitations acc :
  (forall inv, inv ∈ invitations -> inv ∈ instituciones_invitadas) ->
  eligible_ok P acc ->
  eligible_ok P (fold_left collect_invitation invitations acc).
Proof.
  revert acc. induction invitations as [| inv rest IH]; intros acc Hsub Hacc;
    [exact Hacc |].
  cbn [fold_left]. apply IH; [intros x Hx; apply Hsub; now right |].
  apply collect_invitation_ok; [apply Hsub; left | exact Hacc].
Qed.

Lemma first_loop_complete invitations acc inv r i :
  inv ∈ invitations -> r ∈ invitacion_inscripciones inv ->
  invitation_approved inv = true \/ row_aprobado r = true ->
  row_id r = Some i ->
  i ∈ (fold_left collect_invitation invitations acc).2.
Proof.
  assert (Hmono : forall invs a j, j ∈ a.2 ->
            j ∈ (fold_left collect_invitation invs a).2).
  { induction invs as [| x xs IH]; intros a j Hj; [exact Hj |].
    cbn [fold_left]. apply IH.
    now apply (proj1 (collect_invitation_grows a x)). }
  revert acc. induction invitations as [| x xs IH]; intros acc Hinv Hr Happ Hid;
    [inversion Hinv |].
  cbn [fold_left]. apply elem_of_cons in Hinv as [-> | Hinv].
  - apply Hmono.
    now apply (proj1 (proj2 (collect_invitation_grows acc x)) r i).
  - now apply IH.
Qed.
End FirstLoop.

Lemma second_loop_ok inscripciones rows acc :
  (forall r, r ∈ rows -> r ∈ inscripciones) ->
  eligible_ok (directly_approved inscripciones) acc ->
  eligible_ok (directly_approved inscripciones)
    (fold_left
       (fun acc registration =>
          if negb (row_aprobado registration) then acc
          else keep_registration acc registration)
       rows acc).
Proof.
  revert acc. induction rows as [| r rs IH]; intros acc Hsub Hacc;
    [exact Hacc |].
  cbn [fold_left]. apply IH; [intros x Hx; apply Hsub; now right |].
  destruct (row_aprobado r) eqn:E; cbn [negb]; [| exact Hacc].
  apply keep_registration_ok; [| exact Hacc].
  intros Hid. split; [exact Hid |]. split; [apply Hsub; left | exact E].
Qed.

(** X30. [collect_eligible_registrations] returns registrations with
    pairwise different ids, none without an id.  When some registration
    of an invited institution has an id and is approved, itself or through
    its institution, the result is made of such registrations only and
    holds the id of every one of them; otherwise it is made of approved
    registrations of the event itself. *)
Theorem collect_eligible_registrations_sound instituciones_invitadas
    inscripciones :
  let eligible :=
    collect_eligible_registrations instituciones_invitadas inscripciones in
  NoDup (row_id <$> eligible)
  /\ Forall (fun r => is_Some (row_id r)) eligible
  /\ (Forall (invited_and_approved instituciones_invitadas) eligible
      \/ Forall (directly_approved inscripciones) eligible)
  /\ forall r, invited_and_approved instituciones_invitadas r ->
       Forall (invited_and_approved instituciones_invitadas) eligible
       /\ row_id r ∈ row_id <$> eligible.
Proof.
  intros eligible. subst eligible. unfold collect_eligible_registrations.
  pose proof (first_loop_ok instituciones_invitadas instituciones_invitadas
                ([], ∅) (fun inv H => H)) as Hfirst.
  assert (Hinit : forall Q, eligible_ok Q (([], ∅) : eligible_acc)).
  { intros Q. split; [apply NoDup_nil_2 |]. split; [apply Forall_nil_2 |].
    intros i. simpl. rewrite elem_of_empty, elem_of_nil. tauto. }
  specialize (Hfirst (Hinit _)).
  pose proof (fun inv r i => first_loop_complete instituciones_invitadas
                               ([], ∅) inv r i) as Hcomplete.
  destruct (fold_left collect_invitation instituciones_invitadas ([], ∅))
    as [found seen] eqn:Efirst.
  assert (Hall : forall r, invited_and_approved instituciones_invitadas r ->
            Forall (invited_and_approved instituciones_invitadas) found
            /\ row_id r ∈ row_id <$> found).
  { intros r ([i Hi] & inv & Hinv & Hr & Happ).
    destruct Hfirst as (_ & Hrows & Hseen). split; [exact Hrows |].
    rewrite Hi. apply Hseen. exact (Hcomplete inv r i Hinv Hr Happ Hi). }
  cbn [fst]. destruct found as [| r0 found'].
  - assert (Hsecond := second_loop_ok inscripciones inscripciones ([], seen)
                         (fun r H => H)).
    assert (Hseen_empty : forall i, i ∉ seen).
    { intros i Hi. destruct Hfirst as (_ & _ & Hseen).
      apply Hseen in Hi. simpl in Hi. inversion Hi. }
    assert (Hok : eligible_ok (directly_approved inscripciones) ([], seen)).
    { split; [apply NoDup_nil_2 |]. split; [apply Forall_nil_2 |].
      intros i. simpl. rewrite elem_of_nil. split; [| tauto].
      intros Hi. now apply Hseen_empty in Hi. }
    specialize (Hsecond Hok).
    destruct Hsecond as (Hnd & Hrows & _).
    split; [exact Hnd |]. split; [| split; [now right |]].
    + eapply Forall_impl; [exact Hrows |]. now intros r [H _].
    + intros r Hr. destruct (Hall r Hr) as [_ Hin]. simpl in Hin.
      inversion Hin.
  - destruct Hfirst as (Hnd & Hrows & _).
    split; [exact Hnd |]. split; [| split; [now left | exact Hall]].
    eapply Forall_impl; [exact Hrows |]. now intros r [H _].
Qed.
